(** * The PSM provider's completion queue (prov/psm/src/psmx_cq.c) and
      the flag printers of fi_tostr (src/fi_tostr.c)

    A shallow embedding of the completion-queue code of the PSM provider:
    the event FIFO, the construction of completion entries, the progress
    driver [psmx_cq_poll_mq], and the consumer calls read / readerr /
    write / control / open / close, followed by the properties of the
    specification that concern them and by further properties of the
    code.  The flag printers of [fi_tostr] and their buffer discipline
    are embedded in the module [Tostr]. *)

From Stdlib Require Import ZArith Lia.
From Stdlib Require Import Ascii.
From Stdlib Require String.
From stdpp Require Import base option list gmap.

Local Open Scope Z_scope.

(** Pointers are machine addresses; the null pointer is address 0. *)
Definition NULL : Z := 0.

(** ** Machine integers and raw memory *)

Module Mem.

(** [size_t], [uint64_t] and pointers are 64 bits wide, [int] and
    [uint32_t] 32 bits. *)
Definition u64 (x : Z) : Z := x mod 2 ^ 64.
Definition u32 (x : Z) : Z := x mod 2 ^ 32.

(** A byte is a [Z] in [0, 256); memory is a list of bytes.  Integers
    are stored little-endian. *)
Fixpoint le_bytes (n : nat) (v : Z) : list Z :=
  match n with
  | O => []
  | S k => v mod 256 :: le_bytes k (v / 256)
  end.

Fixpoint le_value (bs : list Z) : Z :=
  match bs with
  | [] => 0
  | b :: r => b + 256 * le_value r
  end.

Definition mem_write (off : nat) (bs m : list Z) : list Z :=
  take off m ++ bs ++ drop (off + length bs) m.

Definition mem_read (off n : nat) (m : list Z) : list Z :=
  take n (drop off m).

Definition store64 (off : nat) (v : Z) (m : list Z) : list Z :=
  mem_write off (le_bytes 8 (u64 v)) m.

Definition store32 (off : nat) (v : Z) (m : list Z) : list Z :=
  mem_write off (le_bytes 4 (u32 v)) m.

Definition load64 (off : nat) (m : list Z) : Z := le_value (mem_read off 8 m).
Definition load32 (off : nat) (m : list Z) : Z := le_value (mem_read off 4 m).

(** [memcpy(dst, src, n)]: the first [n] bytes of [dst] are replaced by
    the first [n] bytes of [src]. *)
Definition memcpy (dst src : list Z) (n : nat) : list Z :=
  take n src ++ drop n dst.

(** [calloc]: [n] zero bytes. *)
Definition zeros (n : nat) : list Z := replicate n 0.

End Mem.

(** ** The event FIFO at pointer level

    [struct psmx_cq_event_queue] holds two pointers, [head] and [tail],
    into a singly linked list of [struct psmx_cq_event] threaded through
    the [next] field.  This module embeds [psmx_cq_enqueue_event] and
    [psmx_cq_dequeue_event] statement by statement over that memory, in a
    state monad that counts every pointer load and store. *)

Module EventList.

(** The memory the two functions touch: the queue header and the
    [next] field of every allocated event. *)
Record mem := Mem {
  ceq_head : Z;
  ceq_tail : Z;
  ev_next : gmap Z Z
}.

(** Computations return a value, the new memory and the number of
    pointer operations performed. *)
Definition M (A : Type) : Type := mem -> A * mem * nat.

#[export] Instance M_ret : MRet M := fun A a m => (a, m, O).
#[export] Instance M_bind : MBind M := fun A B f c m =>
  let '(a, m1, n1) := c m in
  let '(b, m2, n2) := f a m1 in
  (b, m2, (n1 + n2)%nat).

Definition load_head : M Z := fun m => (ceq_head m, m, 1%nat).
Definition load_tail : M Z := fun m => (ceq_tail m, m, 1%nat).
Definition store_head (v : Z) : M unit :=
  fun m => (tt, Mem v (ceq_tail m) (ev_next m), 1%nat).
Definition store_tail (v : Z) : M unit :=
  fun m => (tt, Mem (ceq_head m) v (ev_next m), 1%nat).
(* The events the functions follow are allocated; for an address that
   is not, the load of [next] yields NULL. *)
Definition load_next (p : Z) : M Z :=
  fun m => (default NULL (ev_next m !! p), m, 1%nat).
Definition store_next (p v : Z) : M unit :=
  fun m => (tt, Mem (ceq_head m) (ceq_tail m) (<[p := v]> (ev_next m)), 1%nat).

Definition psmx_cq_enqueue_event (event : Z) : M unit :=
  t ← load_tail;
  if bool_decide (t ≠ NULL) then
    t' ← load_tail;
    store_next t' event;;
    store_tail event
  else
    (* ceq->head = ceq->tail = event *)
    store_tail event;;
    store_head event.

Definition psmx_cq_dequeue_event : M Z :=
  h ← load_head;
  if bool_decide (h = NULL) then mret NULL
  else
    event ← load_head;
    n ← load_next event;
    store_head n;;
    h' ← load_head;
    (if bool_decide (h' = NULL) then store_tail NULL else mret tt);;
    store_next event NULL;;
    mret event.

Definition result {A} (r : A * mem * nat) : A := r.1.1.
Definition final {A} (r : A * mem * nat) : mem := r.1.2.
Definition cost {A} (r : A * mem * nat) : nat := r.2.

Fixpoint enqueue_all (evs : list Z) : M unit :=
  match evs with
  | [] => mret tt
  | e :: r => psmx_cq_enqueue_event e;; enqueue_all r
  end.

Fixpoint dequeue_n (n : nat) : M (list Z) :=
  match n with
  | O => mret []
  | S k => e ← psmx_cq_dequeue_event; r ← dequeue_n k; mret (e :: r)
  end.

(** The linked list starting at [from] holds exactly the events [l]. *)
Fixpoint lseg (nx : gmap Z Z) (from : Z) (l : list Z) : Prop :=
  match l with
  | [] => from = NULL
  | p :: r => from = p /\ p <> NULL /\ exists n, nx !! p = Some n /\ lseg nx n r
  end.

(** The queue header and the links represent the sequence [l]. *)
Definition queue_rep (m : mem) (l : list Z) : Prop :=
  NoDup l /\ lseg (ev_next m) (ceq_head m) l /\ ceq_tail m = default NULL (last l).

End EventList.

(** ** Data model *)

(** [enum fi_cq_format]; [FI_CQ_FORMAT_OTHER] stands for an integer
    outside the enumeration, which the [default:] branches reject. *)
Inductive fi_cq_format :=
| FI_CQ_FORMAT_UNSPEC
| FI_CQ_FORMAT_CONTEXT
| FI_CQ_FORMAT_MSG
| FI_CQ_FORMAT_DATA
| FI_CQ_FORMAT_TAGGED
| FI_CQ_FORMAT_OTHER (n : Z).

Inductive fi_wait_obj :=
| FI_WAIT_NONE
| FI_WAIT_UNSPECIFIED
| FI_WAIT_SET
| FI_WAIT_FD
| FI_WAIT_MUT_COND
| FI_WAIT_OTHER (n : Z).

Inductive fi_cq_wait_cond :=
| FI_CQ_COND_NONE
| FI_CQ_COND_THRESHOLD
| FI_CQ_COND_OTHER (n : Z).

(** The context kinds [psmx_cq_poll_mq] switches on. *)
Inductive psmx_context_type :=
| PSMX_NOCOMP_SEND_CONTEXT
| PSMX_NOCOMP_RECV_CONTEXT
| PSMX_NOCOMP_WRITE_CONTEXT
| PSMX_NOCOMP_READ_CONTEXT
| PSMX_INJECT_CONTEXT
| PSMX_INJECT_WRITE_CONTEXT
| PSMX_SEND_CONTEXT
| PSMX_RECV_CONTEXT
| PSMX_MULTI_RECV_CONTEXT
| PSMX_READ_CONTEXT
| PSMX_WRITE_CONTEXT
| PSMX_REMOTE_WRITE_CONTEXT
| PSMX_REMOTE_READ_CONTEXT.

(** Sizes and field offsets of the entry structures that make up the
    union [event->cqe].  The structures are declared in the libfabric
    headers, outside psmx_cq.c, so the layout is a parameter; each
    offset is that of the named member inside the named union member. *)
Record cqe_layout := {
  sizeof_cqe : nat;
  sizeof_fi_cq_entry : nat;
  sizeof_fi_cq_msg_entry : nat;
  sizeof_fi_cq_data_entry : nat;
  sizeof_fi_cq_tagged_entry : nat;
  sizeof_fi_cq_err_entry : nat;
  context_op_context : nat;
  msg_op_context : nat;
  msg_flags : nat;
  msg_len : nat;
  data_op_context : nat;
  data_buf : nat;
  data_flags : nat;
  data_len : nat;
  data_data : nat;
  tagged_op_context : nat;
  tagged_buf : nat;
  tagged_flags : nat;
  tagged_len : nat;
  tagged_data : nat;
  tagged_tag : nat;
  err_op_context : nat;
  err_err : nat;
  err_prov_errno : nat;
  err_data : nat;
  err_tag : nat;
  err_olen : nat
}.

(** [struct psmx_cq_event] without its [next] link: the entry union as
    raw bytes, the error flag and the source tag. *)
Record psmx_cq_event := CqEvent {
  ev_cqe : list Z;
  ev_error : bool;
  ev_source : Z
}.

(** [struct psmx_wait]. *)
Record psmx_wait := Wait {
  wait_type : fi_wait_obj;
  wait_cond : fi_cq_wait_cond;
  wait_wait_set : Z;
  wait_fd : Z * Z;
  wait_mutex_cond : bool
}.

(** [struct psmx_fid_cq].  The event queue and the free list are held
    as the sequences their linked lists represent (see [EventList] for
    the pointer-level functions and [enqueue_rep], [dequeue_rep] for
    the correspondence). *)
Record psmx_fid_cq := Cq {
  cq_format : fi_cq_format;
  cq_entry_size : Z;
  cq_event_queue : list psmx_cq_event;
  cq_free_list : list psmx_cq_event;
  cq_pending_error : option psmx_cq_event;
  cq_wait : option psmx_wait;
  cq_poll_am_before_mq : bool;
  cq_fid_context : Z
}.

(** [struct fi_context] as the PSMX_CTXT_* macros read it. *)
Record fi_context := Ctxt {
  ctxt_req : Z;
  ctxt_type : psmx_context_type;
  ctxt_user : Z;
  ctxt_ep : Z
}.

(** The fields of [struct psmx_fid_ep] the progress driver uses. *)
Record psmx_fid_ep := Ep {
  ep_pending_sends : Z;
  ep_pending_writes : Z;
  ep_pending_reads : Z;
  ep_send_cq : Z;
  ep_recv_cq : Z;
  ep_send_cntr : Z;
  ep_recv_cntr : Z;
  ep_write_cntr : Z;
  ep_read_cntr : Z;
  ep_send_cntr_event_flag : bool;
  ep_recv_cntr_event_flag : bool;
  ep_write_cntr_event_flag : bool;
  ep_read_cntr_event_flag : bool
}.

(** [struct psmx_fid_mr]: the bound CQ and counter. *)
Record psmx_fid_mr := Mr {
  mr_cq : Z;
  mr_cntr : Z
}.

(** [struct psmx_multi_recv]: the cursor of a multi-recv buffer. *)
Record psmx_multi_recv := MultiRecv {
  req_tag : Z;
  req_tagsel : Z;
  req_flag : Z;
  req_buf : Z;
  req_offset : Z;
  req_min_buf_size : Z;
  req_len : Z;
  req_context : Z
}.

(** [psm_mq_status_t]. *)
Record psm_mq_status := Status {
  sts_msg_tag : Z;
  sts_msg_length : Z;
  sts_nbytes : Z;
  sts_error_code : Z;
  sts_context : Z
}.

(** The PSM matched queue is an external library.  It is modelled by
    what the driver observes of it: the outcomes the next calls of
    [psm_mq_ipeek] (followed by [psm_mq_test]) will report, in order (a
    completed request with its status, or a failure code; the empty list
    is PSM_MQ_NO_COMPLETIONS), the receives posted through
    [psm_mq_irecv], and the code [psm_mq_irecv] answers with. *)
Inductive mq_item :=
| MqDone (status : psm_mq_status)
| MqFail (err : Z).

Record irecv_post := Post {
  post_tag : Z;
  post_tagsel : Z;
  post_flags : Z;
  post_buf : Z;
  post_len : Z;
  post_context : Z
}.

Record psm_mq := Mq {
  mq_ready : list mq_item;
  mq_posted : list irecv_post;
  mq_irecv_err : Z
}.

(** The program state: the domain (its matched queue and reserved tag
    bits; the model has the one domain every endpoint and CQ belongs
    to) and the heap objects by address. *)
Record state := State {
  psm_mq_of : psm_mq;
  reserved_tag_bits : Z;
  ctxts : gmap Z fi_context;
  eps : gmap Z psmx_fid_ep;
  cqs : gmap Z psmx_fid_cq;
  cntrs : gmap Z Z;
  mrs : gmap Z psmx_fid_mr;
  multi_recvs : gmap Z psmx_multi_recv;
  am_write_data : gmap Z Z
}.

(** What the headers and the rest of the provider supply: constants,
    the layout of the entry structures, and the functions defined in
    other files of the provider. *)
Record env := {
  lay : cqe_layout;
  psmx_errno : Z -> Z;
  psmx_epid_to_epaddr : Z -> Z * Z;
  psmx_am_progress : state -> state;
  PSM_OK : Z;
  PSM_MQ_NO_COMPLETIONS : Z;
  FI_MULTI_RECV : Z;
  PSMX_MSG_BIT : Z;
  FI_ADDR_UNSPEC : Z;
  FI_GETWAIT : Z;
  ENOMEM : Z;
  ENOSYS : Z;
  ENODATA : Z;
  FI_EINVAL : Z;
  FI_ENOMEM : Z;
  FI_ETOOSMALL : Z;
  FI_EAVAIL : Z
}.

(** ** Field updates *)

Definition set_mq (q : psm_mq) (st : state) : state :=
  State q (reserved_tag_bits st) (ctxts st) (eps st) (cqs st) (cntrs st)
        (mrs st) (multi_recvs st) (am_write_data st).
Definition set_ctxts (h : gmap Z fi_context) (st : state) : state :=
  State (psm_mq_of st) (reserved_tag_bits st) h (eps st) (cqs st) (cntrs st)
        (mrs st) (multi_recvs st) (am_write_data st).
Definition set_eps (h : gmap Z psmx_fid_ep) (st : state) : state :=
  State (psm_mq_of st) (reserved_tag_bits st) (ctxts st) h (cqs st) (cntrs st)
        (mrs st) (multi_recvs st) (am_write_data st).
Definition set_cqs (h : gmap Z psmx_fid_cq) (st : state) : state :=
  State (psm_mq_of st) (reserved_tag_bits st) (ctxts st) (eps st) h (cntrs st)
        (mrs st) (multi_recvs st) (am_write_data st).
Definition set_cntrs (h : gmap Z Z) (st : state) : state :=
  State (psm_mq_of st) (reserved_tag_bits st) (ctxts st) (eps st) (cqs st) h
        (mrs st) (multi_recvs st) (am_write_data st).
Definition set_multi_recvs (h : gmap Z psmx_multi_recv) (st : state) : state :=
  State (psm_mq_of st) (reserved_tag_bits st) (ctxts st) (eps st) (cqs st)
        (cntrs st) (mrs st) h (am_write_data st).

Definition set_ready (r : list mq_item) (q : psm_mq) : psm_mq :=
  Mq r (mq_posted q) (mq_irecv_err q).
Definition set_posted (p : list irecv_post) (q : psm_mq) : psm_mq :=
  Mq (mq_ready q) p (mq_irecv_err q).

Definition set_event_queue (q : list psmx_cq_event) (c : psmx_fid_cq) : psmx_fid_cq :=
  Cq (cq_format c) (cq_entry_size c) q (cq_free_list c) (cq_pending_error c)
     (cq_wait c) (cq_poll_am_before_mq c) (cq_fid_context c).
Definition set_free_list (f : list psmx_cq_event) (c : psmx_fid_cq) : psmx_fid_cq :=
  Cq (cq_format c) (cq_entry_size c) (cq_event_queue c) f (cq_pending_error c)
     (cq_wait c) (cq_poll_am_before_mq c) (cq_fid_context c).
Definition set_pending_error (e : option psmx_cq_event) (c : psmx_fid_cq) : psmx_fid_cq :=
  Cq (cq_format c) (cq_entry_size c) (cq_event_queue c) (cq_free_list c) e
     (cq_wait c) (cq_poll_am_before_mq c) (cq_fid_context c).
Definition set_poll_am_before_mq (b : bool) (c : psmx_fid_cq) : psmx_fid_cq :=
  Cq (cq_format c) (cq_entry_size c) (cq_event_queue c) (cq_free_list c)
     (cq_pending_error c) (cq_wait c) b (cq_fid_context c).

Definition set_pending_sends (v : Z) (e : psmx_fid_ep) : psmx_fid_ep :=
  Ep v (ep_pending_writes e) (ep_pending_reads e) (ep_send_cq e) (ep_recv_cq e)
     (ep_send_cntr e) (ep_recv_cntr e) (ep_write_cntr e) (ep_read_cntr e)
     (ep_send_cntr_event_flag e) (ep_recv_cntr_event_flag e)
     (ep_write_cntr_event_flag e) (ep_read_cntr_event_flag e).
Definition set_pending_writes (v : Z) (e : psmx_fid_ep) : psmx_fid_ep :=
  Ep (ep_pending_sends e) v (ep_pending_reads e) (ep_send_cq e) (ep_recv_cq e)
     (ep_send_cntr e) (ep_recv_cntr e) (ep_write_cntr e) (ep_read_cntr e)
     (ep_send_cntr_event_flag e) (ep_recv_cntr_event_flag e)
     (ep_write_cntr_event_flag e) (ep_read_cntr_event_flag e).
Definition set_pending_reads (v : Z) (e : psmx_fid_ep) : psmx_fid_ep :=
  Ep (ep_pending_sends e) (ep_pending_writes e) v (ep_send_cq e) (ep_recv_cq e)
     (ep_send_cntr e) (ep_recv_cntr e) (ep_write_cntr e) (ep_read_cntr e)
     (ep_send_cntr_event_flag e) (ep_recv_cntr_event_flag e)
     (ep_write_cntr_event_flag e) (ep_read_cntr_event_flag e).

Definition set_offset (v : Z) (r : psmx_multi_recv) : psmx_multi_recv :=
  MultiRecv (req_tag r) (req_tagsel r) (req_flag r) (req_buf r) v
            (req_min_buf_size r) (req_len r) (req_context r).
Definition set_ctxt_req (v : Z) (c : fi_context) : fi_context :=
  Ctxt v (ctxt_type c) (ctxt_user c) (ctxt_ep c).

Definition set_cqe (m : list Z) (e : psmx_cq_event) : psmx_cq_event :=
  CqEvent m (ev_error e) (ev_source e).
Definition set_error (b : bool) (e : psmx_cq_event) : psmx_cq_event :=
  CqEvent (ev_cqe e) b (ev_source e).
Definition set_source (v : Z) (e : psmx_cq_event) : psmx_cq_event :=
  CqEvent (ev_cqe e) (ev_error e) v.

(** ** Execution of statements

    A statement sequence run from a state either dereferences an
    invalid pointer ([Fault]), executes a [return] ([Return]), or falls
    through to the next statement with a value ([Next]). *)

Inductive outcome (A : Type) : Type :=
| Fault
| Return (r : Z) (st : state)
| Next (a : A) (st : state).
Arguments Fault {A}.
Arguments Return {A} r st.
Arguments Next {A} a st.

Definition prog (A : Type) : Type := state -> outcome A.

#[export] Instance prog_ret : MRet prog := fun A a st => Next a st.
#[export] Instance prog_bind : MBind prog := fun A B f c st =>
  match c st with
  | Fault => Fault
  | Return r st' => Return r st'
  | Next a st' => f a st'
  end.

Definition return_ {A} (r : Z) : prog A := fun st => Return r st.
Definition modify (f : state -> state) : prog unit := fun st => Next tt (f st).

(** [h[p]] for a pointer [p]: defined on the allocated, non-null
    addresses only. *)
Definition deref {A} (h : gmap Z A) (p : Z) : option A :=
  if bool_decide (p = NULL) then None else h !! p.

Definition load {A} (heap : state -> gmap Z A) (p : Z) : prog A := fun st =>
  match deref (heap st) p with
  | Some a => Next a st
  | None => Fault
  end.

Definition store_cq (p : Z) (c : psmx_fid_cq) : prog unit :=
  modify (fun st => set_cqs (<[p := c]> (cqs st)) st).
Definition store_ep (p : Z) (e : psmx_fid_ep) : prog unit :=
  modify (fun st => set_eps (<[p := e]> (eps st)) st).
Definition store_multi_recv (p : Z) (r : psmx_multi_recv) : prog unit :=
  modify (fun st => set_multi_recvs (<[p := r]> (multi_recvs st)) st).
Definition store_ctxt (p : Z) (c : fi_context) : prog unit :=
  modify (fun st => set_ctxts (<[p := c]> (ctxts st)) st).
Definition free_ctxt (p : Z) : prog unit :=
  modify (fun st => set_ctxts (delete p (ctxts st)) st).
Definition free_multi_recv (p : Z) : prog unit :=
  modify (fun st => set_multi_recvs (delete p (multi_recvs st)) st).

(** The sequence-level counterparts of [EventList.psmx_cq_enqueue_event]
    and [EventList.psmx_cq_dequeue_event]. *)
Definition enqueue_event (q : list psmx_cq_event) (event : psmx_cq_event)
  : list psmx_cq_event := q ++ [event].

Definition dequeue_event (q : list psmx_cq_event)
  : option psmx_cq_event * list psmx_cq_event :=
  match q with
  | [] => (None, [])
  | event :: r => (Some event, r)
  end.

(** [psmx_cq_enqueue_event(&cq->event_queue, event)] on the CQ at [cq]. *)
Definition enqueue_on (cq : Z) (event : psmx_cq_event) : prog unit :=
  c ← load cqs cq;
  store_cq cq (set_event_queue (enqueue_event (cq_event_queue c) event) c).

(** Modelled from the spec: the counter's [add] operation
    ([psmx_cntr_add], in another file of the provider) is the atomic
    increment of the counter it is handed, which it dereferences. *)
Definition cntr_add (cntr : Z) (value : Z) : prog unit :=
  v ← load cntrs cntr;
  modify (fun st => set_cntrs (<[cntr := v + value]> (cntrs st)) st).

(** [psm_mq_irecv]: answers with the code the library gives; on PSM_OK
    (passed as [psm_ok]) the receive is posted and a request handle
    returned. *)
Definition psm_mq_irecv (psm_ok : Z) (p : irecv_post) : prog (Z * Z) := fun st =>
  let q := psm_mq_of st in
  if bool_decide (mq_irecv_err q = psm_ok) then
    Next (mq_irecv_err q, Z.of_nat (S (length (mq_posted q))))
         (set_mq (set_posted (mq_posted q ++ [p]) q) st)
  else Next (mq_irecv_err q, 0) st.

(** ** The completion-queue code *)

Section Provider.

Variable E : env.

Let L := lay E.

(** A record as [calloc] hands it out: all bytes zero. *)
Definition fresh_event : psmx_cq_event :=
  CqEvent (Mem.zeros (sizeof_cqe L)) false 0.

(** Modelled from the spec: the macro PSMX_FREE_LIST_GET is defined in
    psmx.h, outside psmx_cq.c.  [get()] pops the pool head and allocates
    a fresh record when the pool is empty.  A pooled record keeps the
    bytes of its previous use. *)
Definition PSMX_FREE_LIST_GET (fl : list psmx_cq_event)
  : psmx_cq_event * list psmx_cq_event :=
  match fl with
  | item :: r => (item, r)
  | [] => (fresh_event, [])
  end.

(** Modelled from the spec: the macro PSMX_FREE_LIST_PUT is defined in
    psmx.h, outside psmx_cq.c.  [put()] pushes to the pool head. *)
Definition PSMX_FREE_LIST_PUT (fl : list psmx_cq_event) (item : psmx_cq_event)
  : list psmx_cq_event := item :: fl.

(** Modelled from the spec: the macro PSMX_FREE_LIST_INIT is defined in
    psmx.h, outside psmx_cq.c.  The pool is created with the given
    number of records (64 at open). *)
Definition PSMX_FREE_LIST_INIT (count : nat) : list psmx_cq_event :=
  replicate count fresh_event.

(** The body of [psmx_cq_create_event] after the free-list access:
    fills the record taken from the pool. *)
Definition fill_event (format : fi_cq_format) (event : psmx_cq_event)
    (op_context buf flags len data tag olen err : Z) : option psmx_cq_event :=
  let event := set_error (negb (err =? 0)) event in
  let m := ev_cqe event in
  if ev_error event then
    let m := Mem.store64 (err_op_context L) op_context m in
    let m := Mem.store32 (err_err L) (- err) m in
    let m := Mem.store64 (err_data L) data m in
    let m := Mem.store64 (err_tag L) tag m in
    let m := Mem.store64 (err_olen L) olen m in
    let m := Mem.store32 (err_prov_errno L) 0 m in
    Some (set_cqe m event)
  else
    match format with
    | FI_CQ_FORMAT_CONTEXT =>
        let m := Mem.store64 (context_op_context L) op_context m in
        Some (set_cqe m event)
    | FI_CQ_FORMAT_MSG =>
        let m := Mem.store64 (msg_op_context L) op_context m in
        let m := Mem.store64 (msg_flags L) flags m in
        let m := Mem.store64 (msg_len L) len m in
        Some (set_cqe m event)
    | FI_CQ_FORMAT_DATA =>
        let m := Mem.store64 (data_op_context L) op_context m in
        let m := Mem.store64 (data_buf L) buf m in
        let m := Mem.store64 (data_flags L) flags m in
        let m := Mem.store64 (data_len L) len m in
        let m := Mem.store64 (data_data L) data m in
        Some (set_cqe m event)
    | FI_CQ_FORMAT_TAGGED =>
        let m := Mem.store64 (tagged_op_context L) op_context m in
        let m := Mem.store64 (tagged_buf L) buf m in
        let m := Mem.store64 (tagged_flags L) flags m in
        let m := Mem.store64 (tagged_len L) len m in
        let m := Mem.store64 (tagged_data L) data m in
        let m := Mem.store64 (tagged_tag L) tag m in
        Some (set_cqe m event)
    | _ => None
    end.

(** [psmx_cq_create_event]: [None] is the NULL the unsupported-format
    branch returns. *)
Definition psmx_cq_create_event (cq : Z)
    (op_context buf flags len data tag olen err : Z) : prog (option psmx_cq_event) :=
  c ← load cqs cq;
  let '(event, fl) := PSMX_FREE_LIST_GET (cq_free_list c) in
  store_cq cq (set_free_list fl c);;
  mret (fill_event (cq_format c) event op_context buf flags len data tag olen err).

(** The filling part of [psmx_cq_create_event_from_status]. *)
Definition fill_event_from_status (format : fi_cq_format) (event : psmx_cq_event)
    (psm_status : psm_mq_status) (op_context buf data : Z) (is_recv : bool)
  : option psmx_cq_event :=
  let out (event : psmx_cq_event) :=
    if is_recv then set_source (sts_msg_tag psm_status) event else event in
  let event := set_error (negb (sts_error_code psm_status =? 0)) event in
  let m := ev_cqe event in
  if ev_error event then
    let m := Mem.store64 (err_op_context L) op_context m in
    let m := Mem.store32 (err_err L) (- psmx_errno E (sts_error_code psm_status)) m in
    let m := Mem.store32 (err_prov_errno L) (sts_error_code psm_status) m in
    let m := Mem.store64 (err_tag L) (sts_msg_tag psm_status) m in
    let m := Mem.store64 (err_olen L)
               (Mem.u32 (sts_msg_length psm_status - sts_nbytes psm_status)) m in
    let m := if data =? 0 then m else Mem.store64 (err_data L) data m in
    Some (out (set_cqe m event))
  else
    match format with
    | FI_CQ_FORMAT_CONTEXT =>
        let m := Mem.store64 (context_op_context L) op_context m in
        Some (out (set_cqe m event))
    | FI_CQ_FORMAT_MSG =>
        let m := Mem.store64 (msg_op_context L) op_context m in
        let m := Mem.store64 (msg_len L) (sts_nbytes psm_status) m in
        Some (out (set_cqe m event))
    | FI_CQ_FORMAT_DATA =>
        let m := Mem.store64 (data_op_context L) op_context m in
        let m := Mem.store64 (data_buf L) buf m in
        let m := Mem.store64 (data_len L) (sts_nbytes psm_status) m in
        let m := if data =? 0 then m else Mem.store64 (data_data L) data m in
        Some (out (set_cqe m event))
    | FI_CQ_FORMAT_TAGGED =>
        let m := Mem.store64 (tagged_op_context L) op_context m in
        let m := Mem.store64 (tagged_buf L) buf m in
        let m := Mem.store64 (tagged_len L) (sts_nbytes psm_status) m in
        let m := Mem.store64 (tagged_tag L) (sts_msg_tag psm_status) m in
        let m := if data =? 0 then m else Mem.store64 (tagged_data L) data m in
        Some (out (set_cqe m event))
    | _ => None
    end.

Definition psmx_cq_create_event_from_status (cq : Z)
    (psm_status : psm_mq_status) (data : Z) : prog (option psmx_cq_event) :=
  let fi_context := sts_context psm_status in
  c ← load cqs cq;
  let '(event, fl) := PSMX_FREE_LIST_GET (cq_free_list c) in
  store_cq cq (set_free_list fl c);;
  ctx ← load ctxts fi_context;
  '(op_context, buf, is_recv) ←
    match ctxt_type ctx with
    | PSMX_SEND_CONTEXT => mret (fi_context, ctxt_user ctx, false)
    | PSMX_RECV_CONTEXT => mret (fi_context, ctxt_user ctx, true)
    | PSMX_MULTI_RECV_CONTEXT =>
        req ← load multi_recvs (ctxt_user ctx);
        mret (fi_context, Mem.u64 (req_buf req + req_offset req), true)
    | _ => mret (ctxt_user ctx, NULL, false)
    end;
  mret (fill_event_from_status (cq_format c) event psm_status
          op_context buf data is_recv).

(** [psmx_cq_get_event_src_addr]: the error code and the value left
    in [*src_addr] ([None] is a null [src_addr]). *)
Definition psmx_cq_get_event_src_addr (tag_bits : Z) (event : psmx_cq_event)
    (src_addr : option Z) : Z * option Z :=
  match src_addr with
  | None => (0, None)
  | Some old =>
      if negb (Z.land tag_bits (PSMX_MSG_BIT E) =? 0)
         && negb (Z.land (ev_source event) (PSMX_MSG_BIT E) =? 0)
      then
        let '(err, epaddr) :=
          psmx_epid_to_epaddr E (Z.ldiff (ev_source event) (PSMX_MSG_BIT E)) in
        if negb (err =? 0) then (err, Some old) else (0, Some epaddr)
      else (- ENODATA E, Some old)
  end.

(** What the switch on the context kind leaves in the local
    variables [tmp_ep], [tmp_cq], [tmp_cntr] and [multi_recv]. *)
Record routing := Routing {
  tmp_ep : Z;
  tmp_cq : Z;
  tmp_cntr : Z;
  multi_recv : bool
}.

(** Build an event with [mk] and enqueue it on [cq]; a NULL event
    makes the driver return -ENOMEM. *)
Definition create_and_enqueue (cq : Z) (mk : prog (option psmx_cq_event))
  : prog unit :=
  event ← mk;
  match event with
  | None => return_ (- ENOMEM E)
  | Some event => enqueue_on cq event
  end.

(** The two one-sided cases of the switch, which return or [continue]
    on their own ([None] is the [continue]).  [write_data] tells
    whether the immediate data of the enclosing AM request is used
    (remote write) or 0 (remote read). *)
Definition remote_completion (cq : Z) (psm_status : psm_mq_status)
    (ctx : fi_context) (tmp_cntr : Z) (write_data : bool) : prog (option routing) :=
  let fi_context := sts_context psm_status in
  mr ← load mrs (ctxt_user ctx);
  (if bool_decide (mr_cq mr ≠ NULL) then
     data ← (if write_data then load am_write_data fi_context else mret 0);
     create_and_enqueue (mr_cq mr)
       (psmx_cq_create_event_from_status (mr_cq mr) psm_status data)
   else mret tt);;
  (if bool_decide (mr_cntr mr ≠ NULL) then
     (* mr->cntr->cntr.ops->add(&tmp_cntr->cntr, 1) *)
     load cntrs (mr_cntr mr);;
     cntr_add tmp_cntr 1
   else mret tt);;
  if bool_decide (cq = NULL) || bool_decide (mr_cq mr = cq)
  then return_ 1
  else mret None.

(** The switch of [psmx_cq_poll_mq] on the context kind. *)
Definition route (cq : Z) (psm_status : psm_mq_status) : prog (option routing) :=
  let fi_context := sts_context psm_status in
  ctx ← load ctxts fi_context;
  let tmp_ep := ctxt_ep ctx in
  let tmp_cq := NULL in
  let tmp_cntr := NULL in
  let multi_recv := false in
  match ctxt_type ctx with
  | PSMX_NOCOMP_SEND_CONTEXT =>
      ep ← load eps tmp_ep;
      store_ep tmp_ep (set_pending_sends (ep_pending_sends ep - 1) ep);;
      let tmp_cntr := if ep_send_cntr_event_flag ep then tmp_cntr else ep_send_cntr ep in
      mret (Some (Routing tmp_ep tmp_cq tmp_cntr multi_recv))
  | PSMX_NOCOMP_RECV_CONTEXT =>
      ep ← load eps tmp_ep;
      let tmp_cntr := if ep_recv_cntr_event_flag ep then tmp_cntr else ep_recv_cntr ep in
      mret (Some (Routing tmp_ep tmp_cq tmp_cntr multi_recv))
  | PSMX_NOCOMP_WRITE_CONTEXT =>
      ep ← load eps tmp_ep;
      store_ep tmp_ep (set_pending_writes (ep_pending_writes ep - 1) ep);;
      let tmp_cntr := if ep_write_cntr_event_flag ep then tmp_cntr else ep_write_cntr ep in
      mret (Some (Routing tmp_ep tmp_cq tmp_cntr multi_recv))
  | PSMX_NOCOMP_READ_CONTEXT =>
      ep ← load eps tmp_ep;
      store_ep tmp_ep (set_pending_reads (ep_pending_reads ep - 1) ep);;
      let tmp_cntr := if ep_read_cntr_event_flag ep then tmp_cntr else ep_read_cntr ep in
      mret (Some (Routing tmp_ep tmp_cq tmp_cntr multi_recv))
  | PSMX_INJECT_CONTEXT =>
      ep ← load eps tmp_ep;
      store_ep tmp_ep (set_pending_sends (ep_pending_sends ep - 1) ep);;
      let tmp_cntr := if ep_send_cntr_event_flag ep then tmp_cntr else ep_send_cntr ep in
      free_ctxt fi_context;;
      mret (Some (Routing tmp_ep tmp_cq tmp_cntr multi_recv))
  | PSMX_INJECT_WRITE_CONTEXT =>
      ep ← load eps tmp_ep;
      store_ep tmp_ep (set_pending_writes (ep_pending_writes ep - 1) ep);;
      let tmp_cntr := if ep_write_cntr_event_flag ep then tmp_cntr else ep_write_cntr ep in
      free_ctxt fi_context;;
      mret (Some (Routing tmp_ep tmp_cq tmp_cntr multi_recv))
  | PSMX_SEND_CONTEXT =>
      ep ← load eps tmp_ep;
      store_ep tmp_ep (set_pending_sends (ep_pending_sends ep - 1) ep);;
      mret (Some (Routing tmp_ep (ep_send_cq ep) (ep_send_cntr ep) multi_recv))
  | PSMX_RECV_CONTEXT =>
      ep ← load eps tmp_ep;
      mret (Some (Routing tmp_ep (ep_recv_cq ep) (ep_recv_cntr ep) multi_recv))
  | PSMX_MULTI_RECV_CONTEXT =>
      ep ← load eps tmp_ep;
      mret (Some (Routing tmp_ep (ep_recv_cq ep) (ep_recv_cntr ep) true))
  | PSMX_READ_CONTEXT =>
      ep ← load eps tmp_ep;
      store_ep tmp_ep (set_pending_reads (ep_pending_reads ep - 1) ep);;
      mret (Some (Routing tmp_ep (ep_send_cq ep) (ep_read_cntr ep) multi_recv))
  | PSMX_WRITE_CONTEXT =>
      ep ← load eps tmp_ep;
      store_ep tmp_ep (set_pending_writes (ep_pending_writes ep - 1) ep);;
      mret (Some (Routing tmp_ep (ep_send_cq ep) (ep_write_cntr ep) multi_recv))
  | PSMX_REMOTE_WRITE_CONTEXT =>
      remote_completion cq psm_status ctx tmp_cntr true
  | PSMX_REMOTE_READ_CONTEXT =>
      remote_completion cq psm_status ctx tmp_cntr false
  end.

(** The multi-recv continuation (the body of [if (multi_recv)]). *)
Definition multi_recv_continuation (psm_status : psm_mq_status) (r : routing)
  : prog unit :=
  let fi_context := sts_context psm_status in
  ctx ← load ctxts fi_context;
  req0 ← load multi_recvs (ctxt_user ctx);
  let req := set_offset (Mem.u64 (req_offset req0 + sts_nbytes psm_status)) req0 in
  store_multi_recv (ctxt_user ctx) req;;
  if Mem.u64 (req_offset req + req_min_buf_size req) <=? req_len req then
    load eps (tmp_ep r);;
    '(err, psm_req) ← psm_mq_irecv (PSM_OK E)
        (Post (req_tag req) (req_tagsel req) (req_flag req)
              (Mem.u64 (req_buf req + req_offset req))
              (Mem.u64 (req_len req - req_offset req))
              fi_context);
    if bool_decide (err ≠ PSM_OK E) then return_ (psmx_errno E err)
    else
      ctx ← load ctxts fi_context;
      store_ctxt fi_context (set_ctxt_req psm_req ctx)
  else
    (if bool_decide (tmp_cq r ≠ NULL) then
       create_and_enqueue (tmp_cq r)
         (psmx_cq_create_event (tmp_cq r)
            (req_context req) (req_buf req) (FI_MULTI_RECV E) (req_len req)
            (Mem.u64 (req_len req - req_offset req)) 0 0 0)
     else mret tt);;
    free_multi_recv (ctxt_user ctx).

(** One iteration of the drain loop for a completion the MQ handed
    out: [Return] is a [return] of the function, [Next] goes on to the
    next iteration. *)
Definition poll_one (cq : Z) (psm_status : psm_mq_status) : prog unit :=
  r ← route cq psm_status;
  match r with
  | None => mret tt
  | Some r =>
      (if bool_decide (tmp_cq r ≠ NULL) then
         create_and_enqueue (tmp_cq r)
           (psmx_cq_create_event_from_status (tmp_cq r) psm_status 0)
       else mret tt);;
      (if bool_decide (tmp_cntr r ≠ NULL) then cntr_add (tmp_cntr r) 1
       else mret tt);;
      (if multi_recv r then multi_recv_continuation psm_status r else mret tt);;
      if bool_decide (cq = NULL) || bool_decide (tmp_cq r = cq)
      then return_ 1
      else mret tt
  end.

(** The [while (1)] loop, by recursion on what the MQ has ready: each
    [psm_mq_ipeek]/[psm_mq_test] pair takes the first outcome.  A
    failure outcome carries a code other than PSM_OK. *)
Fixpoint poll_loop (cq : Z) (ready : list mq_item) (st : state) : outcome unit :=
  match ready with
  | [] => Return 0 st
  | MqDone psm_status :: rest =>
      match poll_one cq psm_status (set_mq (set_ready rest (psm_mq_of st)) st) with
      | Fault => Fault
      | Return r st' => Return r st'
      | Next _ st' => poll_loop cq rest st'
      end
  | MqFail err :: rest =>
      let st := set_mq (set_ready rest (psm_mq_of st)) st in
      if bool_decide (err = PSM_OK E) then Fault
      else if bool_decide (err = PSM_MQ_NO_COMPLETIONS E) then Return 0 st
      else Return (psmx_errno E err) st
  end.

(** [psmx_cq_poll_mq(cq, domain)]: the returned code and the state
    left, or [None] when an invalid pointer was dereferenced. *)
Definition psmx_cq_poll_mq (cq : Z) (st : state) : option (Z * state) :=
  match poll_loop cq (mq_ready (psm_mq_of st)) st with
  | Return r st' => Some (r, st')
  | _ => None
  end.

(** *** The consumer calls *)

(** What a read-family call hands back: the returned code, the
    caller's buffer and [*src_addr] as the call leaves them ([None]
    for a null pointer), and the state. *)
Record read_result := ReadResult {
  rd_ret : Z;
  rd_buf : option (list Z);
  rd_src_addr : option Z;
  rd_state : state
}.

(** The opening statements of [psmx_cq_readfrom]: flip the interleave
    flag and run the two progress sources in the order it selects. *)
Definition read_progress (cq : Z) (st : state) : option state :=
  cq_priv ← deref (cqs st) cq;
  let st := set_cqs (<[cq := set_poll_am_before_mq
                             (negb (cq_poll_am_before_mq cq_priv)) cq_priv]>
                       (cqs st)) st in
  cq_priv ← deref (cqs st) cq;
  let st := if cq_poll_am_before_mq cq_priv then psmx_am_progress E st else st in
  '(_, st) ← psmx_cq_poll_mq cq st;
  cq_priv ← deref (cqs st) cq;
  let st := if negb (cq_poll_am_before_mq cq_priv) then psmx_am_progress E st else st in
  Some st.

Definition psmx_cq_readfrom (cq : Z) (buf : option (list Z)) (len : Z)
    (src_addr : option Z) (st : state) : option read_result :=
  st ← read_progress cq st;
  cq_priv ← deref (cqs st) cq;
  if bool_decide (is_Some (cq_pending_error cq_priv)) then
    Some (ReadResult (- FI_EAVAIL E) buf src_addr st)
  else if len <? cq_entry_size cq_priv then
    Some (ReadResult (- FI_ETOOSMALL E) buf src_addr st)
  else
    match buf with
    | None => Some (ReadResult (- FI_EINVAL E) buf src_addr st)
    | Some bytes =>
        let '(event, q) := dequeue_event (cq_event_queue cq_priv) in
        let cq_priv := set_event_queue q cq_priv in
        match event with
        | Some event =>
            if negb (ev_error event) then
              let bytes := Mem.memcpy bytes (ev_cqe event)
                             (Z.to_nat (cq_entry_size cq_priv)) in
              let '(err, src) :=
                psmx_cq_get_event_src_addr (reserved_tag_bits st) event src_addr in
              let src := if negb (err =? 0)
                         then (fun _ => FI_ADDR_UNSPEC E) <$> src else src in
              let cq_priv :=
                set_free_list (PSMX_FREE_LIST_PUT (cq_free_list cq_priv) event)
                              cq_priv in
              Some (ReadResult (cq_entry_size cq_priv) (Some bytes) src
                      (set_cqs (<[cq := cq_priv]> (cqs st)) st))
            else
              let cq_priv := set_pending_error (Some event) cq_priv in
              Some (ReadResult (- FI_EAVAIL E) buf src_addr
                      (set_cqs (<[cq := cq_priv]> (cqs st)) st))
        | None =>
            Some (ReadResult 0 buf src_addr
                    (set_cqs (<[cq := cq_priv]> (cqs st)) st))
        end
    end.

Definition psmx_cq_read (cq : Z) (buf : option (list Z)) (len : Z) (st : state)
  : option read_result :=
  psmx_cq_readfrom cq buf len None st.

Definition psmx_cq_readerr (cq : Z) (buf : option (list Z)) (len flags : Z)
    (st : state) : option read_result :=
  if len <? Z.of_nat (sizeof_fi_cq_err_entry L) then
    Some (ReadResult (- FI_ETOOSMALL E) buf None st)
  else
    cq_priv ← deref (cqs st) cq;
    match cq_pending_error cq_priv with
    | Some pending_error =>
        bytes ← buf;
        let bytes := Mem.memcpy bytes (ev_cqe pending_error)
                       (sizeof_fi_cq_err_entry L) in
        let cq_priv := set_pending_error None cq_priv in
        Some (ReadResult (Z.of_nat (sizeof_fi_cq_err_entry L)) (Some bytes) None
                (set_cqs (<[cq := cq_priv]> (cqs st)) st))
    | None => Some (ReadResult 0 buf None st)
    end.

(** [psmx_cq_write]; [calloc_ok] tells whether the allocation of the
    record succeeds. *)
Definition psmx_cq_write (cq : Z) (buf : option (list Z)) (len : Z)
    (calloc_ok : bool) (st : state) : option (Z * state) :=
  cq_priv ← deref (cqs st) cq;
  if len <? cq_entry_size cq_priv then Some (- FI_ETOOSMALL E, st)
  else if negb calloc_ok then Some (- ENOMEM E, st)
  else
    bytes ← buf;
    let event := fresh_event in
    let event := set_cqe (Mem.memcpy (ev_cqe event) bytes
                            (Z.to_nat (cq_entry_size cq_priv))) event in
    let cq_priv :=
      set_event_queue (enqueue_event (cq_event_queue cq_priv) event) cq_priv in
    Some (cq_entry_size cq_priv, set_cqs (<[cq := cq_priv]> (cqs st)) st).

Definition psmx_cq_sreadfrom (cq : Z) (buf : option (list Z)) (len : Z)
    (src_addr : option Z) (cond : Z) (timeout : Z) : Z := - ENOSYS E.

(** *** Control and open *)

(** What [psmx_cq_control] stores through [arg]. *)
Inductive getwait_info :=
| ArgWaitSet (wait_set : Z)
| ArgFd (fd : Z)
| ArgMutexCond (mutex_cond : bool).

(** The inner switch of the FI_GETWAIT case; [None] when nothing is
    stored. *)
Definition getwait_switch (w : psmx_wait) : option getwait_info :=
  match wait_type w with
  | FI_WAIT_SET => Some (ArgWaitSet (wait_wait_set w))
  | FI_WAIT_FD => Some (ArgFd (wait_fd w).1)
  | FI_WAIT_MUT_COND => Some (ArgMutexCond (wait_mutex_cond w))
  | _ => None
  end.

(** [psmx_cq_control]: the returned code and what was stored through
    [arg] ([None]: [arg] is left as it was).  The outer [None] is the
    dereference of a null [cq->wait]. *)
Definition psmx_cq_control (cq : psmx_fid_cq) (command : Z)
  : option (Z * option getwait_info) :=
  if bool_decide (command = FI_GETWAIT E) then
    if bool_decide (cq_wait cq = None) then
      (* inside if (!cq->wait): switch (cq->wait->type) *)
      w ← cq_wait cq;
      Some (0, getwait_switch w)
    else Some (0, None)
  else Some (- ENOSYS E, None).

Record fi_cq_attr := CqAttr {
  attr_format : fi_cq_format;
  attr_wait_obj : fi_wait_obj;
  attr_wait_cond : fi_cq_wait_cond;
  attr_wait_set : Z
}.

(** What the operating system answers during [psmx_cq_open]: whether
    the two [calloc]s succeed, and the result of [pipe] (the errno, or
    the two descriptors). *)
Record open_oracle := OpenOracle {
  calloc_wait_ok : bool;
  pipe_result : Z + Z * Z;
  calloc_cq_ok : bool
}.

Definition psmx_cq_init_wait (wait : psmx_wait) (attr : fi_cq_attr)
    (os : open_oracle) : Z * psmx_wait :=
  let wait := Wait (attr_wait_obj attr) (attr_wait_cond attr)
                   (wait_wait_set wait) (wait_fd wait) (wait_mutex_cond wait) in
  match attr_wait_obj attr with
  | FI_WAIT_SET =>
      (0, Wait (wait_type wait) (wait_cond wait) (attr_wait_set attr)
               (wait_fd wait) (wait_mutex_cond wait))
  | FI_WAIT_FD =>
      match pipe_result os with
      | inl errno => (- errno, wait)
      | inr fds =>
          (0, Wait (wait_type wait) (wait_cond wait) (wait_wait_set wait)
                   fds (wait_mutex_cond wait))
      end
  | FI_WAIT_MUT_COND =>
      (0, Wait (wait_type wait) (wait_cond wait) (wait_wait_set wait)
               (wait_fd wait) true)
  | _ => (0, wait)
  end.

(** [psmx_cq_open]: the returned code, [attr] as the call leaves it,
    and the CQ stored through [cq] on success. *)
Definition psmx_cq_open (attr : fi_cq_attr) (context : Z) (os : open_oracle)
  : Z * fi_cq_attr * option psmx_fid_cq :=
  let sized (k : fi_cq_attr -> nat -> Z * fi_cq_attr * option psmx_fid_cq) :=
    match attr_format attr with
    | FI_CQ_FORMAT_UNSPEC =>
        k (CqAttr FI_CQ_FORMAT_TAGGED (attr_wait_obj attr) (attr_wait_cond attr)
                  (attr_wait_set attr))
          (sizeof_fi_cq_tagged_entry L)
    | FI_CQ_FORMAT_CONTEXT => k attr (sizeof_fi_cq_entry L)
    | FI_CQ_FORMAT_MSG => k attr (sizeof_fi_cq_msg_entry L)
    | FI_CQ_FORMAT_DATA => k attr (sizeof_fi_cq_data_entry L)
    | FI_CQ_FORMAT_TAGGED => k attr (sizeof_fi_cq_tagged_entry L)
    | FI_CQ_FORMAT_OTHER _ => (- FI_EINVAL E, attr, None)
    end in
  sized (fun attr entry_size =>
    let finish (wait : option psmx_wait) :=
      if negb (calloc_cq_ok os) then (- FI_ENOMEM E, attr, None)
      else (0, attr,
            Some (Cq (attr_format attr) (Z.of_nat entry_size) []
                     (PSMX_FREE_LIST_INIT 64) None wait false context)) in
    let with_wait :=
      match attr_wait_cond attr with
      | FI_CQ_COND_NONE | FI_CQ_COND_THRESHOLD =>
          if negb (calloc_wait_ok os) then (- FI_ENOMEM E, attr, None)
          else
            let '(err, wait) :=
              psmx_cq_init_wait (Wait FI_WAIT_NONE FI_CQ_COND_NONE 0 (0, 0) false)
                                attr os in
            if negb (err =? 0) then (err, attr, None) else finish (Some wait)
      | FI_CQ_COND_OTHER _ => (- FI_EINVAL E, attr, None)
      end in
    match attr_wait_obj attr with
    | FI_WAIT_NONE => finish None
    | FI_WAIT_SET =>
        if bool_decide (attr_wait_set attr = NULL) then (- FI_EINVAL E, attr, None)
        else with_wait
    | FI_WAIT_UNSPECIFIED | FI_WAIT_FD | FI_WAIT_MUT_COND => with_wait
    | FI_WAIT_OTHER _ => (- FI_EINVAL E, attr, None)
    end).

End Provider.

(** ** Closing a completion queue *)

(** Modelled from the spec: the macro PSMX_FREE_LIST_FINALIZE is defined
    in psmx.h, outside psmx_cq.c.  [finalize()] releases the entire
    pool. *)
Definition PSMX_FREE_LIST_FINALIZE (fl : list psmx_cq_event) : list psmx_cq_event := [].

(** [psmx_cq_close]: the returned code, the descriptors handed to
    [close(2)], in order, and the state with the CQ freed. *)
Definition psmx_cq_close (fid : Z) (st : state) : option (Z * list Z * state) :=
  cq ← deref (cqs st) fid;
  let cq := set_free_list (PSMX_FREE_LIST_FINALIZE (cq_free_list cq)) cq in
  let closed :=
    match cq_wait cq with
    | Some wait =>
        match wait_type wait with
        | FI_WAIT_FD => [(wait_fd wait).1; (wait_fd wait).2]
        | _ => []
        end
    | None => []
    end in
  Some (0, closed, set_cqs (delete fid (cqs st)) st).

(** ** The flag printers of src/fi_tostr.c

    [fi_tostr] prints into one buffer of FI_BUFSIZ bytes through
    [strcatf]; the printers of OR-able flags append the name of every
    flag that is set, each followed by a comma and a space, and strip
    the last separator with [fi_remove_comma]. *)

Module Tostr.

Import String.StringSyntax.
Local Open Scope string_scope.

(** The size of the buffer [fi_tostr] prints into. *)
Definition FI_BUFSIZ : nat := Z.to_nat 8192.

(** A C string is held as the characters before its terminating NUL. *)
Definition lit (s : String.string) : list ascii := String.list_ascii_of_string s.

(** [strcatf(dest, fmt, ...)], where [text] is what the format expands
    to.  [vsnprintf] is given the size [FI_BUFSIZ - 1 - len], of which
    one byte goes to the terminating NUL.  A [dest] that is not
    terminated within FI_BUFSIZ bytes makes that size wrap around and the
    call write past the buffer ([None]). *)
Definition strcatf (dest text : list ascii) : option (list ascii) :=
  let len := Nat.min (length dest) FI_BUFSIZ in
  if (len <? FI_BUFSIZ)%nat
  then Some (dest ++ take (FI_BUFSIZ - 1 - len - 1) text)
  else None.

Definition fi_remove_comma (buffer : list ascii) : list ascii :=
  let sz := length buffer in
  if (sz <? 2)%nat then buffer
  else if bool_decide (drop (sz - 2) buffer = lit ", ")
       then take (sz - 2) buffer
       else buffer.

(** [IFFLAGSTR(flags, SYM)], with the value of [SYM] and its name. *)
Definition IFFLAGSTR (flags SYM : Z) (name : String.string) (buf : list ascii)
  : option (list ascii) :=
  if negb (Z.land flags SYM =? 0) then strcatf buf (lit name ++ lit ", ")
  else Some buf.

(** The values of the flag constants, which the libfabric headers
    define. *)
Record flag_values := {
  FI_MSG : Z; FI_RMA : Z; FI_TAGGED : Z; FI_ATOMIC : Z;
  FI_READ : Z; FI_WRITE : Z; FI_RECV : Z; FI_SEND : Z;
  FI_REMOTE_READ : Z; FI_REMOTE_WRITE : Z;
  FI_MULTI_RECV : Z; FI_REMOTE_CQ_DATA : Z; FI_MORE : Z; FI_PEEK : Z;
  FI_TRIGGER : Z; FI_FENCE : Z;
  FI_COMPLETION : Z; FI_INJECT : Z; FI_INJECT_COMPLETE : Z;
  FI_TRANSMIT_COMPLETE : Z; FI_DELIVERY_COMPLETE : Z;
  FI_ORDER_NONE : Z; FI_ORDER_RAR : Z; FI_ORDER_RAW : Z; FI_ORDER_RAS : Z;
  FI_ORDER_WAR : Z; FI_ORDER_WAW : Z; FI_ORDER_WAS : Z; FI_ORDER_SAR : Z;
  FI_ORDER_SAW : Z; FI_ORDER_SAS : Z; FI_ORDER_STRICT : Z; FI_ORDER_DATA : Z;
  FI_NUMERICHOST : Z; FI_RMA_EVENT : Z; FI_SOURCE : Z; FI_NAMED_RX_CTX : Z;
  FI_DIRECTED_RECV : Z;
  FI_CONTEXT : Z; FI_MSG_PREFIX : Z; FI_ASYNC_IOV : Z; FI_RX_CQ_DATA : Z;
  FI_LOCAL_MR : Z; FI_NOTIFY_FLAGS_ONLY : Z;
  FI_MR_BASIC : Z; FI_MR_SCALABLE : Z; FI_MR_LOCAL : Z; FI_MR_RAW : Z;
  FI_MR_VIRT_ADDR : Z; FI_MR_ALLOCATED : Z; FI_MR_PROV_KEY : Z;
  FI_MR_MMU_NOTIFY : Z; FI_MR_RMA_EVENT : Z
}.

Section Printers.

Variable C : flag_values.

Definition fi_tostr_flags (buf : list ascii) (flags : Z) : option (list ascii) :=
  buf ← IFFLAGSTR flags (FI_MSG C) "FI_MSG" buf;
  buf ← IFFLAGSTR flags (FI_RMA C) "FI_RMA" buf;
  buf ← IFFLAGSTR flags (FI_TAGGED C) "FI_TAGGED" buf;
  buf ← IFFLAGSTR flags (FI_ATOMIC C) "FI_ATOMIC" buf;
  buf ← IFFLAGSTR flags (FI_READ C) "FI_READ" buf;
  buf ← IFFLAGSTR flags (FI_WRITE C) "FI_WRITE" buf;
  buf ← IFFLAGSTR flags (FI_RECV C) "FI_RECV" buf;
  buf ← IFFLAGSTR flags (FI_SEND C) "FI_SEND" buf;
  buf ← IFFLAGSTR flags (FI_REMOTE_READ C) "FI_REMOTE_READ" buf;
  buf ← IFFLAGSTR flags (FI_REMOTE_WRITE C) "FI_REMOTE_WRITE" buf;
  buf ← IFFLAGSTR flags (FI_MULTI_RECV C) "FI_MULTI_RECV" buf;
  buf ← IFFLAGSTR flags (FI_REMOTE_CQ_DATA C) "FI_REMOTE_CQ_DATA" buf;
  buf ← IFFLAGSTR flags (FI_MORE C) "FI_MORE" buf;
  buf ← IFFLAGSTR flags (FI_PEEK C) "FI_PEEK" buf;
  buf ← IFFLAGSTR flags (FI_TRIGGER C) "FI_TRIGGER" buf;
  buf ← IFFLAGSTR flags (FI_FENCE C) "FI_FENCE" buf;
  buf ← IFFLAGSTR flags (FI_COMPLETION C) "FI_COMPLETION" buf;
  buf ← IFFLAGSTR flags (FI_INJECT C) "FI_INJECT" buf;
  buf ← IFFLAGSTR flags (FI_INJECT_COMPLETE C) "FI_INJECT_COMPLETE" buf;
  buf ← IFFLAGSTR flags (FI_TRANSMIT_COMPLETE C) "FI_TRANSMIT_COMPLETE" buf;
  buf ← IFFLAGSTR flags (FI_DELIVERY_COMPLETE C) "FI_DELIVERY_COMPLETE" buf;
  Some (fi_remove_comma buf).

Definition fi_tostr_order (buf : list ascii) (flags : Z) : option (list ascii) :=
  buf ← IFFLAGSTR flags (FI_ORDER_NONE C) "FI_ORDER_NONE" buf;
  buf ← IFFLAGSTR flags (FI_ORDER_RAR C) "FI_ORDER_RAR" buf;
  buf ← IFFLAGSTR flags (FI_ORDER_RAW C) "FI_ORDER_RAW" buf;
  buf ← IFFLAGSTR flags (FI_ORDER_RAS C) "FI_ORDER_RAS" buf;
  buf ← IFFLAGSTR flags (FI_ORDER_WAR C) "FI_ORDER_WAR" buf;
  buf ← IFFLAGSTR flags (FI_ORDER_WAW C) "FI_ORDER_WAW" buf;
  buf ← IFFLAGSTR flags (FI_ORDER_WAS C) "FI_ORDER_WAS" buf;
  buf ← IFFLAGSTR flags (FI_ORDER_SAR C) "FI_ORDER_SAR" buf;
  buf ← IFFLAGSTR flags (FI_ORDER_SAW C) "FI_ORDER_SAW" buf;
  buf ← IFFLAGSTR flags (FI_ORDER_SAS C) "FI_ORDER_SAS" buf;
  buf ← IFFLAGSTR flags (FI_ORDER_STRICT C) "FI_ORDER_STRICT" buf;
  buf ← IFFLAGSTR flags (FI_ORDER_DATA C) "FI_ORDER_DATA" buf;
  Some (fi_remove_comma buf).

Definition fi_tostr_caps (buf : list ascii) (caps : Z) : option (list ascii) :=
  buf ← IFFLAGSTR caps (FI_NUMERICHOST C) "FI_NUMERICHOST" buf;
  buf ← IFFLAGSTR caps (FI_RMA_EVENT C) "FI_RMA_EVENT" buf;
  buf ← IFFLAGSTR caps (FI_SOURCE C) "FI_SOURCE" buf;
  buf ← IFFLAGSTR caps (FI_NAMED_RX_CTX C) "FI_NAMED_RX_CTX" buf;
  buf ← IFFLAGSTR caps (FI_DIRECTED_RECV C) "FI_DIRECTED_RECV" buf;
  buf ← fi_tostr_flags buf caps;
  Some (fi_remove_comma buf).

Definition fi_tostr_mode (buf : list ascii) (mode : Z) : option (list ascii) :=
  buf ← IFFLAGSTR mode (FI_CONTEXT C) "FI_CONTEXT" buf;
  buf ← IFFLAGSTR mode (FI_MSG_PREFIX C) "FI_MSG_PREFIX" buf;
  buf ← IFFLAGSTR mode (FI_ASYNC_IOV C) "FI_ASYNC_IOV" buf;
  buf ← IFFLAGSTR mode (FI_RX_CQ_DATA C) "FI_RX_CQ_DATA" buf;
  buf ← IFFLAGSTR mode (FI_LOCAL_MR C) "FI_LOCAL_MR" buf;
  buf ← IFFLAGSTR mode (FI_NOTIFY_FLAGS_ONLY C) "FI_NOTIFY_FLAGS_ONLY" buf;
  Some (fi_remove_comma buf).

(** [mr_mode] is an [int]. *)
Definition fi_tostr_mr_mode (buf : list ascii) (mr_mode : Z) : option (list ascii) :=
  buf ← IFFLAGSTR mr_mode (FI_MR_BASIC C) "FI_MR_BASIC" buf;
  buf ← IFFLAGSTR mr_mode (FI_MR_SCALABLE C) "FI_MR_SCALABLE" buf;
  buf ← IFFLAGSTR mr_mode (FI_MR_LOCAL C) "FI_MR_LOCAL" buf;
  buf ← IFFLAGSTR mr_mode (FI_MR_RAW C) "FI_MR_RAW" buf;
  buf ← IFFLAGSTR mr_mode (FI_MR_VIRT_ADDR C) "FI_MR_VIRT_ADDR" buf;
  buf ← IFFLAGSTR mr_mode (FI_MR_ALLOCATED C) "FI_MR_ALLOCATED" buf;
  buf ← IFFLAGSTR mr_mode (FI_MR_PROV_KEY C) "FI_MR_PROV_KEY" buf;
  buf ← IFFLAGSTR mr_mode (FI_MR_MMU_NOTIFY C) "FI_MR_MMU_NOTIFY" buf;
  buf ← IFFLAGSTR mr_mode (FI_MR_RMA_EVENT C) "FI_MR_RMA_EVENT" buf;
  Some (fi_remove_comma buf).

Definition fi_tostr_cq_event_flags (buf : list ascii) (flags : Z)
  : option (list ascii) :=
  buf ← IFFLAGSTR flags (FI_SEND C) "FI_SEND" buf;
  buf ← IFFLAGSTR flags (FI_RECV C) "FI_RECV" buf;
  buf ← IFFLAGSTR flags (FI_RMA C) "FI_RMA" buf;
  buf ← IFFLAGSTR flags (FI_ATOMIC C) "FI_ATOMIC" buf;
  buf ← IFFLAGSTR flags (FI_MSG C) "FI_MSG" buf;
  buf ← IFFLAGSTR flags (FI_TAGGED C) "FI_TAGGED" buf;
  buf ← IFFLAGSTR flags (FI_READ C) "FI_READ" buf;
  buf ← IFFLAGSTR flags (FI_WRITE C) "FI_WRITE" buf;
  buf ← IFFLAGSTR flags (FI_REMOTE_READ C) "FI_REMOTE_READ" buf;
  buf ← IFFLAGSTR flags (FI_REMOTE_WRITE C) "FI_REMOTE_WRITE" buf;
  buf ← IFFLAGSTR flags (FI_REMOTE_CQ_DATA C) "FI_REMOTE_CQ_DATA" buf;
  buf ← IFFLAGSTR flags (FI_MULTI_RECV C) "FI_MULTI_RECV" buf;
  Some (fi_remove_comma buf).

End Printers.

(** *** Vocabulary of the printers' properties *)

(** The names of a table of flags whose bit is set in [flags], in the
    order of the table. *)
Definition set_names (table : list (Z * String.string)) (flags : Z)
  : list (list ascii) :=
  (fun e => lit e.2) <$> filter (fun e => Z.land flags e.1 <> 0) table.

(** The names separated by a comma and a space. *)
Fixpoint join (names : list (list ascii)) : list ascii :=
  match names with
  | [] => []
  | [name] => name
  | name :: rest => name ++ lit ", " ++ join rest
  end.

(** The flags each printer tests, in the order it tests them. *)
Definition flags_table (C : flag_values) : list (Z * String.string) :=
  [(FI_MSG C, "FI_MSG"); (FI_RMA C, "FI_RMA"); (FI_TAGGED C, "FI_TAGGED");
   (FI_ATOMIC C, "FI_ATOMIC"); (FI_READ C, "FI_READ"); (FI_WRITE C, "FI_WRITE");
   (FI_RECV C, "FI_RECV"); (FI_SEND C, "FI_SEND");
   (FI_REMOTE_READ C, "FI_REMOTE_READ"); (FI_REMOTE_WRITE C, "FI_REMOTE_WRITE");
   (FI_MULTI_RECV C, "FI_MULTI_RECV"); (FI_REMOTE_CQ_DATA C, "FI_REMOTE_CQ_DATA");
   (FI_MORE C, "FI_MORE"); (FI_PEEK C, "FI_PEEK"); (FI_TRIGGER C, "FI_TRIGGER");
   (FI_FENCE C, "FI_FENCE"); (FI_COMPLETION C, "FI_COMPLETION");
   (FI_INJECT C, "FI_INJECT"); (FI_INJECT_COMPLETE C, "FI_INJECT_COMPLETE");
   (FI_TRANSMIT_COMPLETE C, "FI_TRANSMIT_COMPLETE");
   (FI_DELIVERY_COMPLETE C, "FI_DELIVERY_COMPLETE")].

Definition order_table (C : flag_values) : list (Z * String.string) :=
  [(FI_ORDER_NONE C, "FI_ORDER_NONE"); (FI_ORDER_RAR C, "FI_ORDER_RAR");
   (FI_ORDER_RAW C, "FI_ORDER_RAW"); (FI_ORDER_RAS C, "FI_ORDER_RAS");
   (FI_ORDER_WAR C, "FI_ORDER_WAR"); (FI_ORDER_WAW C, "FI_ORDER_WAW");
   (FI_ORDER_WAS C, "FI_ORDER_WAS"); (FI_ORDER_SAR C, "FI_ORDER_SAR");
   (FI_ORDER_SAW C, "FI_ORDER_SAW"); (FI_ORDER_SAS C, "FI_ORDER_SAS");
   (FI_ORDER_STRICT C, "FI_ORDER_STRICT"); (FI_ORDER_DATA C, "FI_ORDER_DATA")].

Definition caps_table (C : flag_values) : list (Z * String.string) :=
  [(FI_NUMERICHOST C, "FI_NUMERICHOST"); (FI_RMA_EVENT C, "FI_RMA_EVENT");
   (FI_SOURCE C, "FI_SOURCE"); (FI_NAMED_RX_CTX C, "FI_NAMED_RX_CTX");
   (FI_DIRECTED_RECV C, "FI_DIRECTED_RECV")].

Definition mode_table (C : flag_values) : list (Z * String.string) :=
  [(FI_CONTEXT C, "FI_CONTEXT"); (FI_MSG_PREFIX C, "FI_MSG_PREFIX");
   (FI_ASYNC_IOV C, "FI_ASYNC_IOV"); (FI_RX_CQ_DATA C, "FI_RX_CQ_DATA");
   (FI_LOCAL_MR C, "FI_LOCAL_MR");
   (FI_NOTIFY_FLAGS_ONLY C, "FI_NOTIFY_FLAGS_ONLY")].

Definition mr_mode_table (C : flag_values) : list (Z * String.string) :=
  [(FI_MR_BASIC C, "FI_MR_BASIC"); (FI_MR_SCALABLE C, "FI_MR_SCALABLE");
   (FI_MR_LOCAL C, "FI_MR_LOCAL"); (FI_MR_RAW C, "FI_MR_RAW");
   (FI_MR_VIRT_ADDR C, "FI_MR_VIRT_ADDR"); (FI_MR_ALLOCATED C, "FI_MR_ALLOCATED");
   (FI_MR_PROV_KEY C, "FI_MR_PROV_KEY"); (FI_MR_MMU_NOTIFY C, "FI_MR_MMU_NOTIFY");
   (FI_MR_RMA_EVENT C, "FI_MR_RMA_EVENT")].

Definition cq_event_flags_table (C : flag_values) : list (Z * String.string) :=
  [(FI_SEND C, "FI_SEND"); (FI_RECV C, "FI_RECV"); (FI_RMA C, "FI_RMA");
   (FI_ATOMIC C, "FI_ATOMIC"); (FI_MSG C, "FI_MSG"); (FI_TAGGED C, "FI_TAGGED");
   (FI_READ C, "FI_READ"); (FI_WRITE C, "FI_WRITE");
   (FI_REMOTE_READ C, "FI_REMOTE_READ"); (FI_REMOTE_WRITE C, "FI_REMOTE_WRITE");
   (FI_REMOTE_CQ_DATA C, "FI_REMOTE_CQ_DATA");
   (FI_MULTI_RECV C, "FI_MULTI_RECV")].

(** A run of IFFLAGSTR statements over a table, followed by the
    statements [k]. *)
Fixpoint flag_run (table : list (Z * String.string)) (flags : Z)
    (k : list ascii -> option (list ascii)) (buf : list ascii)
  : option (list ascii) :=
  match table with
  | [] => k buf
  | e :: rest => buf ← IFFLAGSTR flags e.1 e.2 buf; flag_run rest flags k buf
  end.

(** The text a run of IFFLAGSTR statements appends for the names
    [names]. *)
Definition appended (names : list (list ascii)) : list ascii :=
  concat ((fun n => n ++ lit ", ") <$> names).

(** The most characters a run over [table] appends. *)
Fixpoint table_width (table : list (Z * String.string)) : nat :=
  match table with
  | [] => 0
  | e :: rest => length (lit e.2) + 2 + table_width rest
  end.

(** A name that ends in a character other than a space. *)
Definition solid (name : list ascii) : bool :=
  match last name with
  | Some c => negb (Ascii.eqb c " ")
  | None => false
  end.

End Tostr.

(** ** Vocabulary of the properties *)

(** The CQ [c'] is [c] with events appended: same format, entry size
    and pending-error slot, and a queue that extends that of [c]. *)
Definition cq_grows (c c' : psmx_fid_cq) : Prop :=
  cq_format c' = cq_format c /\
  cq_entry_size c' = cq_entry_size c /\
  cq_pending_error c' = cq_pending_error c /\
  exists evs, cq_event_queue c' = cq_event_queue c ++ evs.

(** Every CQ of [st] is still there in [st'], with events appended. *)
Definition cqs_grow (st st' : state) : Prop :=
  forall p c, cqs st !! p = Some c ->
    exists c', cqs st' !! p = Some c' /\ cq_grows c c'.

(** At least one event was appended to the CQ at [cq] between [st] and
    [st']. *)
Definition enqueued_on (cq : Z) (st st' : state) : Prop :=
  forall c, cqs st !! cq = Some c ->
    exists c' ev evs,
      cqs st' !! cq = Some c' /\
      cq_event_queue c' = cq_event_queue c ++ ev :: evs.

(** [psm_mq_ipeek] answers PSM_MQ_NO_COMPLETIONS on the outcomes [l]. *)
Definition nothing_ready (E : env) (l : list mq_item) : Prop :=
  l = [] \/ exists rest, l = MqFail (PSM_MQ_NO_COMPLETIONS E) :: rest.

(** What is assumed of the active-message progress function, which is
    defined in another file of the provider: it leaves every CQ in
    place and at most appends events to it. *)
Definition am_progress_appends (E : env) : Prop :=
  forall st, cqs_grow st (psmx_am_progress E st).

(** What is assumed of [psmx_errno], defined in another file of the
    provider: every code but PSM_OK maps to a negative errno. *)
Definition psmx_errno_negative (E : env) : Prop :=
  forall err, err <> PSM_OK E -> psmx_errno E err < 0.

(** What is assumed of the active-message progress function besides:
    it never calls [psm_mq_ipeek], so the outcomes the next calls of
    [psm_mq_ipeek] will report are what they were. *)
Definition am_progress_keeps_mq (E : env) : Prop :=
  forall st, mq_ready (psm_mq_of (psmx_am_progress E st)) = mq_ready (psm_mq_of st).

(** The state once [psm_mq_ipeek] has answered PSM_MQ_NO_COMPLETIONS on
    the outcomes [post]: the answer is taken off the outcomes the MQ has
    in store (an MQ with nothing in store is left as it is). *)
Definition after_report (post : list mq_item) (st : state) : state :=
  match post with
  | [] => st
  | _ :: rest => set_mq (set_ready rest (psm_mq_of st)) st
  end.

(** Starting in [st] with the outcomes [pre ++ post] in store, the drain
    loop takes the outcomes [pre] one by one, each a completion whose
    iteration ends with neither a [return] nor a fault, and reaches
    [st'] with [post] in store. *)
Fixpoint drained_past (E : env) (cq : Z) (pre post : list mq_item)
    (st st' : state) : Prop :=
  match pre with
  | [] => st' = st
  | MqDone s :: pre' =>
      exists st1,
        poll_one E cq s (set_mq (set_ready (pre' ++ post) (psm_mq_of st)) st)
          = Next tt st1 /\
        drained_past E cq pre' post st1 st'
  | MqFail _ :: _ => False
  end.

(** The fields of an entry of the given format, read back from the raw
    bytes ([None] when the format has no such field). *)
Definition entry_flags (L : cqe_layout) (format : fi_cq_format) (m : list Z)
  : option Z :=
  match format with
  | FI_CQ_FORMAT_MSG => Some (Mem.load64 (msg_flags L) m)
  | FI_CQ_FORMAT_DATA => Some (Mem.load64 (data_flags L) m)
  | FI_CQ_FORMAT_TAGGED => Some (Mem.load64 (tagged_flags L) m)
  | _ => None
  end.

Definition entry_len (L : cqe_layout) (format : fi_cq_format) (m : list Z)
  : option Z :=
  match format with
  | FI_CQ_FORMAT_MSG => Some (Mem.load64 (msg_len L) m)
  | FI_CQ_FORMAT_DATA => Some (Mem.load64 (data_len L) m)
  | FI_CQ_FORMAT_TAGGED => Some (Mem.load64 (tagged_len L) m)
  | _ => None
  end.

Definition entry_data (L : cqe_layout) (format : fi_cq_format) (m : list Z)
  : option Z :=
  match format with
  | FI_CQ_FORMAT_DATA => Some (Mem.load64 (data_data L) m)
  | FI_CQ_FORMAT_TAGGED => Some (Mem.load64 (tagged_data L) m)
  | _ => None
  end.

(** The fixed entry size of each of the four entry formats. *)
Definition entry_size_of (L : cqe_layout) (format : fi_cq_format) : option nat :=
  match format with
  | FI_CQ_FORMAT_CONTEXT => Some (sizeof_fi_cq_entry L)
  | FI_CQ_FORMAT_MSG => Some (sizeof_fi_cq_msg_entry L)
  | FI_CQ_FORMAT_DATA => Some (sizeof_fi_cq_data_entry L)
  | FI_CQ_FORMAT_TAGGED => Some (sizeof_fi_cq_tagged_entry L)
  | _ => None
  end.

(** Two 8-byte members do not overlap. *)
Definition apart (a b : nat) : Prop := (a + 8 <= b \/ b + 8 <= a)%nat.

(** The members of the message, data and tagged entries lie inside the
    union and do not overlap one another. *)
Definition layout_ok (L : cqe_layout) : Prop :=
  (msg_op_context L + 8 <= sizeof_cqe L /\ msg_flags L + 8 <= sizeof_cqe L /\
   msg_len L + 8 <= sizeof_cqe L /\
   apart (msg_flags L) (msg_len L))%nat /\
  (data_op_context L + 8 <= sizeof_cqe L /\ data_buf L + 8 <= sizeof_cqe L /\
   data_flags L + 8 <= sizeof_cqe L /\ data_len L + 8 <= sizeof_cqe L /\
   data_data L + 8 <= sizeof_cqe L /\
   apart (data_flags L) (data_len L) /\ apart (data_flags L) (data_data L) /\
   apart (data_len L) (data_data L))%nat /\
  (tagged_op_context L + 8 <= sizeof_cqe L /\ tagged_buf L + 8 <= sizeof_cqe L /\
   tagged_flags L + 8 <= sizeof_cqe L /\ tagged_len L + 8 <= sizeof_cqe L /\
   tagged_data L + 8 <= sizeof_cqe L /\ tagged_tag L + 8 <= sizeof_cqe L /\
   apart (tagged_flags L) (tagged_len L) /\ apart (tagged_flags L) (tagged_data L) /\
   apart (tagged_flags L) (tagged_tag L) /\ apart (tagged_len L) (tagged_data L) /\
   apart (tagged_len L) (tagged_tag L) /\ apart (tagged_data L) (tagged_tag L))%nat.

(** Weakest preconditions for statement sequences: [wp m QR QN st]
    holds when running [m] from [st] either faults, returns a code and
    state satisfying [QR], or falls through with a value and state
    satisfying [QN]. *)
Definition wp {A} (m : prog A) (QR : Z -> state -> Prop)
    (QN : A -> state -> Prop) (st : state) : Prop :=
  match m st with
  | Fault => True
  | Return r st' => QR r st'
  | Next a st' => QN a st'
  end.

(** Total version of [wp]: running [m] from [st] does not fault, and
    the outcome satisfies [QR] (a [return]) or [QN] (falling through). *)
Definition twp {A} (m : prog A) (QR : Z -> state -> Prop)
    (QN : A -> state -> Prop) (st : state) : Prop :=
  match m st with
  | Fault => False
  | Return r st' => QR r st'
  | Next a st' => QN a st'
  end.

(** The length, flags and data a format's entry carries. *)
Definition has_len (format : fi_cq_format) : bool :=
  match format with
  | FI_CQ_FORMAT_MSG | FI_CQ_FORMAT_DATA | FI_CQ_FORMAT_TAGGED => true
  | _ => false
  end.

Definition has_data (format : fi_cq_format) : bool :=
  match format with
  | FI_CQ_FORMAT_DATA | FI_CQ_FORMAT_TAGGED => true
  | _ => false
  end.

(** Every record of the CQ's pool has a full-size entry union. *)
Definition pool_ok (L : cqe_layout) (c : psmx_fid_cq) : Prop :=
  Forall (fun e => length (ev_cqe e) = sizeof_cqe L) (cq_free_list c).

(** The completion [s] handed out by the MQ belongs to a multi-recv
    buffer: its context is of the multi-recv kind and names a live
    endpoint [ep] and tracking record [req]; the endpoint's receive
    counter, if it has one, is live. *)
Definition multi_recv_completion (st : state) (s : psm_mq_status)
    (ctx : fi_context) (ep : psmx_fid_ep) (req : psmx_multi_recv) : Prop :=
  sts_context s <> NULL /\ ctxts st !! sts_context s = Some ctx /\
  ctxt_type ctx = PSMX_MULTI_RECV_CONTEXT /\
  ctxt_ep ctx <> NULL /\ eps st !! ctxt_ep ctx = Some ep /\
  ctxt_user ctx <> NULL /\ multi_recvs st !! ctxt_user ctx = Some req /\
  (ep_recv_cntr ep = NULL \/ is_Some (cntrs st !! ep_recv_cntr ep)).

(** The bytes of the buffer consumed once the completion [s] is
    accounted for: the cursor [req->offset] after its update. *)
Definition consumed (req : psmx_multi_recv) (s : psm_mq_status) : Z :=
  Mem.u64 (req_offset req + sts_nbytes s).

(** The receive [psmx_cq_poll_mq] posts to re-arm the buffer. *)
Definition rearm_post (req : psmx_multi_recv) (s : psm_mq_status) : irecv_post :=
  Post (req_tag req) (req_tagsel req) (req_flag req)
       (Mem.u64 (req_buf req + consumed req s))
       (Mem.u64 (req_len req - consumed req s))
       (sts_context s).

(** [m] relates every state to the states it can leave by [R], and
    returns only codes that satisfy [P]. *)
Definition preserves {A} (R : state -> state -> Prop) (P : Z -> Prop)
    (m : prog A) : Prop :=
  forall st, wp m (fun r st' => P r /\ R st st') (fun _ st' => R st st') st.

(** What one iteration of the drain loop guarantees of the state: CQs
    only grow and the MQ's pending outcomes are untouched. *)
Definition poll_frame (st st' : state) : Prop :=
  cqs_grow st st' /\ mq_ready (psm_mq_of st') = mq_ready (psm_mq_of st).

(** What one iteration guarantees: it returns 1 or a negative code; a
    return of 1 for a CQ of interest means an event was appended to that
    CQ; and it goes on to the next iteration only when a CQ of interest
    was given. *)
Definition iteration_returns (cq : Z) (st : state) (r : Z) (st' : state) : Prop :=
  (r = 1 \/ r < 0) /\ poll_frame st st' /\
  (r = 1 -> cq <> NULL -> enqueued_on cq st st').

(** What a call of the driver guarantees, by the outcomes [ready] the
    MQ had in store. *)
Definition call_returns (E : env) (cq : Z) (ready : list mq_item) (st : state)
    (r : Z) (st' : state) : Prop :=
  (r = 0 \/ r = 1 \/ r < 0) /\
  cqs_grow st st' /\
  (r = 0 -> exists pre post,
      ready = pre ++ post /\ nothing_ready E post /\ (pre <> [] -> cq <> NULL)) /\
  (r = 0 -> cqs st' !! cq = cqs st !! cq) /\
  (r = 0 -> cq = NULL -> cqs st' = cqs st) /\
  (r = 1 -> cq <> NULL -> enqueued_on cq st st') /\
  (cq = NULL -> forall s rest,
      ready = MqDone s :: rest ->
      r <> 0 /\ mq_ready (psm_mq_of st') = rest).

(** A frame: a relation between the state before and the state after
    that holds whenever the CQs and the outcomes the MQ has in store are
    left alone, and whenever the CQ at an address allowed by [ok] is
    replaced by one with events appended. *)
Class Frame (R : state -> state -> Prop) (ok : Z -> Prop) : Prop := {
  frame_refl : forall st, R st st;
  frame_trans : forall a b c, R a b -> R b c -> R a c;
  frame_same : forall st st',
    cqs st' = cqs st ->
    mq_ready (psm_mq_of st') = mq_ready (psm_mq_of st) -> R st st';
  frame_update : forall st p c c',
    ok p -> cqs st !! p = Some c -> cq_grows c c' ->
    R st (set_cqs (<[p := c']> (cqs st)) st)
}.

(** The CQ at [cq] is the same in [st'] as in [st]. *)
Definition untouched (cq : Z) (st st' : state) : Prop :=
  cqs st' !! cq = cqs st !! cq.

(** [m] never falls through to the next statement. *)
Definition never_next {A} (m : prog A) : Prop :=
  forall st, wp m (fun _ _ => True) (fun _ _ => False) st.

(** *** Layouts of the entry structures *)

(** Two members of a structure, each given by its offset and its width
    in bytes, do not overlap. *)
Definition field_apart (f g : nat * nat) : Prop :=
  (f.1 + f.2 <= g.1 \/ g.1 + g.2 <= f.1)%nat.

Fixpoint fields_apart (fs : list (nat * nat)) : Prop :=
  match fs with
  | [] => True
  | f :: r => Forall (field_apart f) r /\ fields_apart r
  end.

(** The members [fs] lie inside [size] bytes and do not overlap one
    another. *)
Definition fields_ok (size : nat) (fs : list (nat * nat)) : Prop :=
  Forall (fun f => (f.1 + f.2 <= size)%nat) fs /\ fields_apart fs.

(** The members of the four entry structures the code writes. *)
Definition entry_fields (L : cqe_layout) (format : fi_cq_format) : list (nat * nat) :=
  match format with
  | FI_CQ_FORMAT_CONTEXT => [(context_op_context L, 8%nat)]
  | FI_CQ_FORMAT_MSG =>
      [(msg_op_context L, 8%nat); (msg_flags L, 8%nat); (msg_len L, 8%nat)]
  | FI_CQ_FORMAT_DATA =>
      [(data_op_context L, 8%nat); (data_buf L, 8%nat); (data_flags L, 8%nat);
       (data_len L, 8%nat); (data_data L, 8%nat)]
  | FI_CQ_FORMAT_TAGGED =>
      [(tagged_op_context L, 8%nat); (tagged_buf L, 8%nat); (tagged_flags L, 8%nat);
       (tagged_len L, 8%nat); (tagged_data L, 8%nat); (tagged_tag L, 8%nat)]
  | _ => []
  end.

(** The members of [struct fi_cq_err_entry] the code writes: [err] and
    [prov_errno] are of type [int], the others 64 bits wide. *)
Definition err_fields (L : cqe_layout) : list (nat * nat) :=
  [(err_op_context L, 8%nat); (err_err L, 4%nat); (err_prov_errno L, 4%nat);
   (err_data L, 8%nat); (err_tag L, 8%nat); (err_olen L, 8%nat)].

(** A 32-bit pattern read as an [int], and the range of [int]. *)
Definition as_int (x : Z) : Z := (x + 2 ^ 31) mod 2 ^ 32 - 2 ^ 31.

Definition int_range (x : Z) : Prop := - 2 ^ 31 <= x < 2 ^ 31.

(** [struct fi_cq_err_entry], decoded from the bytes of the union. *)
Record fi_cq_err_entry := ErrEntry {
  ee_op_context : Z;
  ee_err : Z;
  ee_prov_errno : Z;
  ee_data : Z;
  ee_tag : Z;
  ee_olen : Z
}.

Definition read_err_entry (L : cqe_layout) (m : list Z) : fi_cq_err_entry :=
  {| ee_op_context := Mem.load64 (err_op_context L) m;
     ee_err := as_int (Mem.load32 (err_err L) m);
     ee_prov_errno := as_int (Mem.load32 (err_prov_errno L) m);
     ee_data := Mem.load64 (err_data L) m;
     ee_tag := Mem.load64 (err_tag L) m;
     ee_olen := Mem.load64 (err_olen L) m |}.

(** The remaining fields of an entry of the given format. *)
Definition entry_op_context (L : cqe_layout) (format : fi_cq_format) (m : list Z)
  : option Z :=
  match format with
  | FI_CQ_FORMAT_CONTEXT => Some (Mem.load64 (context_op_context L) m)
  | FI_CQ_FORMAT_MSG => Some (Mem.load64 (msg_op_context L) m)
  | FI_CQ_FORMAT_DATA => Some (Mem.load64 (data_op_context L) m)
  | FI_CQ_FORMAT_TAGGED => Some (Mem.load64 (tagged_op_context L) m)
  | _ => None
  end.

Definition entry_buf (L : cqe_layout) (format : fi_cq_format) (m : list Z)
  : option Z :=
  match format with
  | FI_CQ_FORMAT_DATA => Some (Mem.load64 (data_buf L) m)
  | FI_CQ_FORMAT_TAGGED => Some (Mem.load64 (tagged_buf L) m)
  | _ => None
  end.

Definition entry_tag (L : cqe_layout) (format : fi_cq_format) (m : list Z)
  : option Z :=
  match format with
  | FI_CQ_FORMAT_TAGGED => Some (Mem.load64 (tagged_tag L) m)
  | _ => None
  end.

Definition has_tag (format : fi_cq_format) : bool :=
  match format with
  | FI_CQ_FORMAT_TAGGED => true
  | _ => false
  end.

(** *** Reads *)

(** The source of an event can be derived from its tag: the domain
    reserves the message bit and the event's source tag carries it. *)
Definition source_derivable (E : env) (tag_bits : Z) (event : psmx_cq_event) : Prop :=
  Z.land tag_bits (PSMX_MSG_BIT E) <> 0 /\
  Z.land (ev_source event) (PSMX_MSG_BIT E) <> 0.

(** *** Routing of completions *)

(** The kinds of context whose completion the common tail of the
    iteration handles with no continuation: every kind but multi-recv
    and the two one-sided ones. *)
Definition local_kind (ty : psmx_context_type) : bool :=
  match ty with
  | PSMX_MULTI_RECV_CONTEXT | PSMX_REMOTE_WRITE_CONTEXT
  | PSMX_REMOTE_READ_CONTEXT => false
  | _ => true
  end.

(** The endpoint after the in-flight counter of the kind has been
    decremented (receives have no in-flight counter). *)
Definition completes_pending (ty : psmx_context_type) (ep : psmx_fid_ep)
  : psmx_fid_ep :=
  match ty with
  | PSMX_NOCOMP_SEND_CONTEXT | PSMX_INJECT_CONTEXT | PSMX_SEND_CONTEXT =>
      set_pending_sends (ep_pending_sends ep - 1) ep
  | PSMX_NOCOMP_WRITE_CONTEXT | PSMX_INJECT_WRITE_CONTEXT | PSMX_WRITE_CONTEXT =>
      set_pending_writes (ep_pending_writes ep - 1) ep
  | PSMX_NOCOMP_READ_CONTEXT | PSMX_READ_CONTEXT =>
      set_pending_reads (ep_pending_reads ep - 1) ep
  | _ => ep
  end.

(** The CQ a completion of the kind is reported to: none for the
    no-completion and inject kinds. *)
Definition route_cq (ty : psmx_context_type) (ep : psmx_fid_ep) : Z :=
  match ty with
  | PSMX_SEND_CONTEXT | PSMX_READ_CONTEXT | PSMX_WRITE_CONTEXT => ep_send_cq ep
  | PSMX_RECV_CONTEXT | PSMX_MULTI_RECV_CONTEXT => ep_recv_cq ep
  | _ => NULL
  end.

(** The counter a completion of the kind increments.  The kinds that
    report to no CQ skip the counter when the endpoint's event flag for
    it is set. *)
Definition route_cntr (ty : psmx_context_type) (ep : psmx_fid_ep) : Z :=
  match ty with
  | PSMX_NOCOMP_SEND_CONTEXT | PSMX_INJECT_CONTEXT =>
      if ep_send_cntr_event_flag ep then NULL else ep_send_cntr ep
  | PSMX_NOCOMP_RECV_CONTEXT =>
      if ep_recv_cntr_event_flag ep then NULL else ep_recv_cntr ep
  | PSMX_NOCOMP_WRITE_CONTEXT | PSMX_INJECT_WRITE_CONTEXT =>
      if ep_write_cntr_event_flag ep then NULL else ep_write_cntr ep
  | PSMX_NOCOMP_READ_CONTEXT =>
      if ep_read_cntr_event_flag ep then NULL else ep_read_cntr ep
  | PSMX_SEND_CONTEXT => ep_send_cntr ep
  | PSMX_RECV_CONTEXT | PSMX_MULTI_RECV_CONTEXT => ep_recv_cntr ep
  | PSMX_READ_CONTEXT => ep_read_cntr ep
  | PSMX_WRITE_CONTEXT => ep_write_cntr ep
  | _ => NULL
  end.

(** The inject kinds own their context, which the driver frees. *)
Definition frees_context (ty : psmx_context_type) : bool :=
  match ty with
  | PSMX_INJECT_CONTEXT | PSMX_INJECT_WRITE_CONTEXT => true
  | _ => false
  end.

(** The counters after the counter at [n] (if any) went up by one. *)
Definition bumped (n : Z) (h : gmap Z Z) : gmap Z Z :=
  if bool_decide (n = NULL) then h
  else match h !! n with
       | Some v => <[n := v + 1]> h
       | None => h
       end.

(** What an entry built from the status of a completion reports as
    operation context and (for the kinds other than multi-recv) as
    buffer, and the kinds for which the source tag is recorded. *)
Definition reported_op_context (context : Z) (ctx : fi_context) : Z :=
  match ctxt_type ctx with
  | PSMX_SEND_CONTEXT | PSMX_RECV_CONTEXT | PSMX_MULTI_RECV_CONTEXT => context
  | _ => ctxt_user ctx
  end.

Definition reported_buf (ctx : fi_context) : Z :=
  match ctxt_type ctx with
  | PSMX_SEND_CONTEXT | PSMX_RECV_CONTEXT => ctxt_user ctx
  | _ => NULL
  end.

Definition is_recv_kind (ty : psmx_context_type) : bool :=
  match ty with
  | PSMX_RECV_CONTEXT | PSMX_MULTI_RECV_CONTEXT => true
  | _ => false
  end.

(** *** Open and close *)

(** The wait attributes [psmx_cq_open] refuses. *)
Definition wait_invalid (attr : fi_cq_attr) : Prop :=
  (exists n, attr_wait_obj attr = FI_WAIT_OTHER n) \/
  (attr_wait_obj attr = FI_WAIT_SET /\ attr_wait_set attr = NULL) \/
  (attr_wait_obj attr <> FI_WAIT_NONE /\
   exists n, attr_wait_cond attr = FI_CQ_COND_OTHER n).

(** [attr] as [psmx_cq_open] leaves it once the format has been
    accepted: an unspecified format has been replaced by the tagged
    one. *)
Definition attr_defaulted (attr : fi_cq_attr) : fi_cq_attr :=
  match attr_format attr with
  | FI_CQ_FORMAT_UNSPEC =>
      CqAttr FI_CQ_FORMAT_TAGGED (attr_wait_obj attr) (attr_wait_cond attr)
             (attr_wait_set attr)
  | _ => attr
  end.

(** The descriptors of the pipe a wait object of type FI_WAIT_FD holds. *)
Definition pipe_descriptors (attr : fi_cq_attr) (os : open_oracle) : list Z :=
  match attr_wait_obj attr, pipe_result os with
  | FI_WAIT_FD, inr (rd, wr) => [rd; wr]
  | _, _ => []
  end.

(** ** A concrete environment

    The LP64 layout of the entry structures and the values of the
    constants in the libfabric and PSM headers; the statements below
    hold for every environment and are exercised on this one. *)

Definition lp64_layout : cqe_layout := {|
  sizeof_cqe := 72;
  sizeof_fi_cq_entry := 8;
  sizeof_fi_cq_msg_entry := 24;
  sizeof_fi_cq_data_entry := 40;
  sizeof_fi_cq_tagged_entry := 48;
  sizeof_fi_cq_err_entry := 72;
  context_op_context := 0;
  msg_op_context := 0; msg_flags := 8; msg_len := 16;
  data_op_context := 0; data_flags := 8; data_len := 16; data_buf := 24;
  data_data := 32;
  tagged_op_context := 0; tagged_flags := 8; tagged_len := 16; tagged_buf := 24;
  tagged_data := 32; tagged_tag := 40;
  err_op_context := 0; err_data := 32; err_tag := 40; err_olen := 48;
  err_err := 56; err_prov_errno := 60
|}.

Definition sample_env : env := {|
  lay := lp64_layout;
  psmx_errno := fun err => if err =? 0 then 0 else - 256;
  psmx_epid_to_epaddr := fun epid => (0, epid);
  psmx_am_progress := fun st => st;
  PSM_OK := 0;
  PSM_MQ_NO_COMPLETIONS := 60;
  FI_MULTI_RECV := 2 ^ 16;
  PSMX_MSG_BIT := 2 ^ 63;
  FI_ADDR_UNSPEC := 2 ^ 64 - 1;
  FI_GETWAIT := 5;
  ENOMEM := 12;
  ENOSYS := 38;
  ENODATA := 61;
  FI_EINVAL := 22;
  FI_ENOMEM := 12;
  FI_ETOOSMALL := 257;
  FI_EAVAIL := 259
|}.

(** ** Sample states

    Concrete states on which the statements are exercised, all in
    [sample_env].  Addresses: CQ 100, endpoint 200, counter 300, memory
    region 400, operation contexts 500 and 510, multi-recv record 600. *)

Definition no_mq : psm_mq := Mq [] [] 0.

Definition sample_cq : psmx_fid_cq :=
  Cq FI_CQ_FORMAT_TAGGED 48 [] [] None None false 0.

Definition sample_ep : psmx_fid_ep :=
  Ep 1 0 0 0 100 0 0 0 0 false false false false.

(** A multi-recv buffer of 100 bytes at address 4096 with a minimum
    chunk of 40 bytes; the MQ has two completions for it ready, of 30
    and then 50 bytes. *)
Definition sample_req : psmx_multi_recv := MultiRecv 7 (-1) 0 4096 0 40 100 900.
Definition first_status : psm_mq_status := Status 7 30 30 0 500.
Definition second_status : psm_mq_status := Status 7 50 50 0 500.
Definition sample_ctxt : fi_context := Ctxt 0 PSMX_MULTI_RECV_CONTEXT 600 200.

Definition multi_recv_state : state :=
  State (Mq [MqDone first_status; MqDone second_status] [] 0) 0
        {[ 500 := sample_ctxt ]} {[ 200 := sample_ep ]} {[ 100 := sample_cq ]}
        ∅ ∅ {[ 600 := sample_req ]} ∅.

Definition state_of (r : option (Z * state)) : state :=
  match r with
  | Some (_, st) => st
  | None => State no_mq 0 ∅ ∅ ∅ ∅ ∅ ∅ ∅
  end.

(** The states after the first and after the second call of the driver. *)
Definition multi_recv_state1 : state :=
  state_of (psmx_cq_poll_mq sample_env 100 multi_recv_state).
Definition multi_recv_state2 : state :=
  state_of (psmx_cq_poll_mq sample_env 100 multi_recv_state1).

(** A completed send of a no-completion context on an endpoint without
    counters. *)
Definition nocomp_state : state :=
  State (Mq [MqDone (Status 0 8 8 0 510)] [] 0) 0
        {[ 510 := Ctxt 0 PSMX_NOCOMP_SEND_CONTEXT 0 200 ]}
        {[ 200 := sample_ep ]} {[ 100 := sample_cq ]} ∅ ∅ ∅ ∅.

(** A remote write completed against a memory region bound to the
    counter at 300 and to no CQ. *)
Definition remote_write_state : state :=
  State (Mq [MqDone (Status 0 8 8 0 510)] [] 0) 0
        {[ 510 := Ctxt 0 PSMX_REMOTE_WRITE_CONTEXT 400 0 ]}
        ∅ {[ 100 := sample_cq ]} {[ 300 := 0 ]} {[ 400 := Mr 0 300 ]} ∅
        {[ 510 := 0 ]}.

(** An idle MQ and a CQ whose pending-error slot is occupied. *)
Definition sample_error : psmx_cq_event := CqEvent (replicate 72 1) true 0.

Definition pending_state : state :=
  State no_mq 0 ∅ ∅
        {[ 100 := Cq FI_CQ_FORMAT_TAGGED 48 [] [] (Some sample_error) None false 0 ]}
        ∅ ∅ ∅ ∅.

(** An idle MQ and an empty CQ. *)
Definition idle_state : state :=
  State no_mq 0 ∅ ∅ {[ 100 := sample_cq ]} ∅ ∅ ∅ ∅.

(** The state a read leaves behind on [idle_state] when it dequeues
    nothing: the interleave flag has flipped. *)
Definition idle_state1 : state :=
  State no_mq 0 ∅ ∅
        {[ 100 := Cq FI_CQ_FORMAT_TAGGED 48 [] [] None None true 0 ]} ∅ ∅ ∅ ∅.

(** Some event produced for any CQ (no CQ of interest) or for the CQ of
    interest between [st] and [st']. *)
Definition event_produced (cq : Z) (st st' : state) : Prop :=
  exists p c c',
    (cq = NULL \/ p = cq) /\
    cqs st !! p = Some c /\ cqs st' !! p = Some c' /\
    cq_event_queue c' <> cq_event_queue c.

(** The CQ the sample open call creates, with a descriptor pair as its
    wait object. *)
Definition fd_attr : fi_cq_attr :=
  CqAttr FI_CQ_FORMAT_UNSPEC FI_WAIT_FD FI_CQ_COND_NONE 0.
Definition fd_oracle : open_oracle := OpenOracle true (inr (3, 4)) true.

(** The same buffer with 30 bytes already consumed and the completion
    of 50 bytes ready. *)
Definition final_req : psmx_multi_recv := MultiRecv 7 (-1) 0 4096 30 40 100 900.

Definition multi_recv_final_state : state :=
  State (Mq [MqDone second_status] [] 0) 0
        {[ 500 := sample_ctxt ]} {[ 200 := sample_ep ]} {[ 100 := sample_cq ]}
        ∅ ∅ {[ 600 := final_req ]} ∅.

(** 48 bytes to write. *)
Definition sample_bytes : list Z := Z.of_nat <$> seq 1 48.

Definition fd_cq : psmx_fid_cq :=
  match psmx_cq_open sample_env fd_attr 0 fd_oracle with
  | (_, _, Some c) => c
  | _ => sample_cq
  end.

(** An endpoint whose sends report to the CQ at 110, and the completion
    of one of its sends followed by the MQ's answer that nothing more is
    ready, as a caller interested in the CQ at 100 finds them. *)
Definition other_ep : psmx_fid_ep :=
  Ep 1 0 0 110 0 0 0 0 0 false false false false.

Definition other_send : psm_mq_status := Status 9 64 64 0 500.

Definition elsewhere_state : state :=
  State (Mq [MqDone other_send; MqFail 60; MqDone other_send] [] 0) 0
        {[ 500 := Ctxt 0 PSMX_SEND_CONTEXT 7000 200 ]}
        {[ 200 := other_ep ]} {[ 100 := sample_cq; 110 := sample_cq ]}
        ∅ ∅ ∅ ∅.

(** The state after the iteration for that completion. *)
Definition elsewhere_state1 : state :=
  match poll_one sample_env 100 other_send
          (set_mq (set_ready [MqFail 60; MqDone other_send]
                             (psm_mq_of elsewhere_state)) elsewhere_state) with
  | Next _ st => st
  | _ => elsewhere_state
  end.

(** An ordinary event, and a CQ that holds it while the MQ has the
    failed completion of a send ready that reports to the same CQ. *)
Definition data_event : psmx_cq_event := CqEvent (replicate 72 2) false 0.

Definition failed_send : psm_mq_status := Status 9 64 0 5 500.

Definition error_behind_state : state :=
  State (Mq [MqDone failed_send] [] 0) 0
        {[ 500 := Ctxt 0 PSMX_SEND_CONTEXT 7000 200 ]}
        {[ 200 := Ep 1 0 0 100 0 0 0 0 0 false false false false ]}
        {[ 100 := Cq FI_CQ_FORMAT_TAGGED 48 [data_event] [] None None false 0 ]}
        ∅ ∅ ∅ ∅.

Definition error_behind_state1 : state :=
  state_of (psmx_cq_poll_mq sample_env 100 error_behind_state).

(** An idle MQ and a CQ whose queue holds an error record followed by
    an ordinary event. *)
Definition error_first_state : state :=
  State no_mq 0 ∅ ∅
        {[ 100 := Cq FI_CQ_FORMAT_TAGGED 48 [sample_error; data_event] [] None None
                     false 0 ]}
        ∅ ∅ ∅ ∅.

(** *** Further sample states *)

(** A queue of the two records at 16 and 32. *)
Definition two_mem : EventList.mem := EventList.Mem 16 32 {[ 16 := 32; 32 := 0 ]}.

(** A completion that failed with PSM error 5 after 60 of 100 bytes. *)
Definition failed_status : psm_mq_status := Status 7 100 60 5 500.

Definition sample_status_event : psmx_cq_event :=
  default (fresh_event sample_env)
    (fill_event_from_status sample_env FI_CQ_FORMAT_TAGGED (fresh_event sample_env)
       first_status 500 4096 0 true).

(** An endpoint whose sends report to the CQ at 100 and the counter at
    300. *)
Definition send_ep : psmx_fid_ep :=
  Ep 1 0 0 100 0 300 0 0 0 false false false false.

Definition send_status : psm_mq_status := Status 9 64 64 0 500.

(** A completed send of that endpoint, with its completion reported. *)
Definition send_state : state :=
  State (Mq [MqDone send_status] [] 0) 0
        {[ 500 := Ctxt 0 PSMX_SEND_CONTEXT 7000 200 ]}
        {[ 200 := send_ep ]} {[ 100 := sample_cq ]} {[ 300 := 0 ]} ∅ ∅ ∅.

(** A completed send of that endpoint of the no-completion kind. *)
Definition nocomp_cntr_state : state :=
  State (Mq [MqDone send_status] [] 0) 0
        {[ 500 := Ctxt 0 PSMX_NOCOMP_SEND_CONTEXT 7000 200 ]}
        {[ 200 := send_ep ]} {[ 100 := sample_cq ]} {[ 300 := 0 ]} ∅ ∅ ∅.

(** The multi-recv state with an MQ that refuses new receives (code 7). *)
Definition rearm_refused_state : state :=
  State (Mq [MqDone first_status; MqDone second_status] [] 7) 0
        {[ 500 := sample_ctxt ]} {[ 200 := sample_ep ]} {[ 100 := sample_cq ]}
        ∅ ∅ {[ 600 := sample_req ]} ∅.

(** A remote write with immediate data 77, completed against a memory
    region bound to the CQ at 100 and to no counter. *)
Definition remote_cq_state : state :=
  State (Mq [MqDone (Status 0 8 8 0 510)] [] 0) 0
        {[ 510 := Ctxt 0 PSMX_REMOTE_WRITE_CONTEXT 400 0 ]}
        ∅ {[ 100 := sample_cq ]} ∅ {[ 400 := Mr 100 0 ]} ∅ {[ 510 := 77 ]}.

(** A domain that reserves the message bit, and a CQ that holds one
    event received from the endpoint with id 5. *)
Definition received_event : psmx_cq_event :=
  CqEvent (replicate 72 1) false (2 ^ 63 + 5).

Definition received_state : state :=
  State no_mq (2 ^ 63) ∅ ∅
        {[ 100 := Cq FI_CQ_FORMAT_TAGGED 48 [received_event] [] None None false 0 ]}
        ∅ ∅ ∅ ∅.

Definition received_state1 : state :=
  State no_mq (2 ^ 63) ∅ ∅
        {[ 100 := Cq FI_CQ_FORMAT_TAGGED 48 [received_event] [] None None true 0 ]}
        ∅ ∅ ∅ ∅.

(** The state with the CQ of the sample open call at 100. *)
Definition fd_state : state :=
  State no_mq 0 ∅ ∅ {[ 100 := fd_cq ]} ∅ ∅ ∅ ∅.

(** The idle state after the 48 sample bytes have been written to the
    CQ at 100. *)
Definition written_state : state :=
  set_cqs (<[100 := set_event_queue
                      (cq_event_queue sample_cq ++
                         [CqEvent (Mem.memcpy (Mem.zeros 72) sample_bytes (Z.to_nat 48))
                                  false 0]) sample_cq]>
             (cqs idle_state)) idle_state.

(** ** Facts about raw memory *)

Module MemFacts.
Import Mem.

Lemma length_le_bytes n v : length (le_bytes n v) = n.
Proof. revert v; induction n as [|n IH]; intros v; simpl; [done | by rewrite IH]. Qed.

Lemma le_value_le_bytes n v : le_value (le_bytes n v) = v mod 256 ^ Z.of_nat n.
Proof.
  revert v; induction n as [|n IH]; intros v.
  - simpl. by rewrite Z.mod_1_r.
  - cbn [le_bytes le_value]. rewrite IH.
    rewrite Nat2Z.inj_succ, Z.pow_succ_r by lia.
    rewrite Z.rem_mul_r by lia. reflexivity.
Qed.

Lemma length_mem_write off bs m :
  (off + length bs <= length m)%nat ->
  length (mem_write off bs m) = length m.
Proof.
  intros H. unfold mem_write.
  rewrite !length_app, length_take, length_drop. lia.
Qed.

Lemma mem_read_write_same off bs m :
  (off + length bs <= length m)%nat ->
  mem_read off (length bs) (mem_write off bs m) = bs.
Proof.
  intros H. unfold mem_read, mem_write.
  rewrite drop_app_length'; [| rewrite length_take; lia].
  by rewrite take_app_length.
Qed.

Lemma mem_read_write_other off bs m off' n :
  (off + length bs <= length m)%nat ->
  (off' + n <= off \/ off + length bs <= off')%nat ->
  mem_read off' n (mem_write off bs m) = mem_read off' n m.
Proof.
  intros Hin Hdis. unfold mem_read, mem_write.
  apply list_eq; intros i.
  destruct (decide (i < n)%nat) as [Hi|Hi].
  2:{ rewrite !lookup_take_ge by lia. done. }
  rewrite !lookup_take_lt, !lookup_drop by lia.
  destruct Hdis as [Hd|Hd].
  - rewrite lookup_app_l by (rewrite length_take; lia).
    rewrite lookup_take_lt by lia. done.
  - rewrite app_assoc, lookup_app_r by (rewrite length_app, length_take; lia).
    rewrite lookup_drop, length_app, length_take.
    f_equal. lia.
Qed.

Lemma load64_store64_same off v m :
  (off + 8 <= length m)%nat ->
  load64 off (store64 off v m) = u64 v.
Proof.
  intros H. unfold load64, store64.
  pose proof (mem_read_write_same off (le_bytes 8 (u64 v)) m) as E.
  rewrite length_le_bytes in E. rewrite E by done.
  rewrite le_value_le_bytes. unfold u64.
  change (256 ^ Z.of_nat 8) with (2 ^ 64). by rewrite Z.mod_mod.
Qed.

Lemma load64_store64_other off v m off' :
  (off + 8 <= length m)%nat ->
  (off' + 8 <= off \/ off + 8 <= off')%nat ->
  load64 off' (store64 off v m) = load64 off' m.
Proof.
  intros H Hd. unfold load64, store64.
  rewrite mem_read_write_other; rewrite ?length_le_bytes; done.
Qed.

Lemma length_store64 off v m :
  (off + 8 <= length m)%nat -> length (store64 off v m) = length m.
Proof.
  intros H. unfold store64. apply length_mem_write.
  by rewrite length_le_bytes.
Qed.

Lemma length_store32 off v m :
  (off + 4 <= length m)%nat -> length (store32 off v m) = length m.
Proof.
  intros H. unfold store32. apply length_mem_write.
  by rewrite length_le_bytes.
Qed.

Lemma take_memcpy dst src n :
  (n <= length src)%nat -> take n (memcpy dst src n) = take n src.
Proof.
  intros H. unfold memcpy.
  rewrite take_app_le by (rewrite length_take; lia).
  rewrite take_take. f_equal. lia.
Qed.

Lemma length_memcpy dst src n :
  (n <= length src)%nat -> (n <= length dst)%nat ->
  length (memcpy dst src n) = length dst.
Proof.
  intros H1 H2. unfold memcpy.
  rewrite length_app, length_take, length_drop. lia.
Qed.

End MemFacts.

(** ** The FIFO (pointer level) *)

Module EventListFacts.
Import EventList.

Lemma lseg_insert_notin nx from l p v :
  p ∉ l -> lseg nx from l -> lseg (<[p := v]> nx) from l.
Proof.
  revert from; induction l as [|q r IH]; intros from Hp; simpl; [done|].
  intros (-> & Hq & n & Hn & Hr).
  apply not_elem_of_cons in Hp as [Hne Hp].
  split; [done|]. split; [done|]. exists n. split.
  - by rewrite lookup_insert_ne.
  - by apply IH.
Qed.

Lemma lseg_snoc nx from l t e :
  NoDup (l ++ [t]) -> e ∉ l ++ [t] -> e <> NULL ->
  nx !! e = Some NULL ->
  lseg nx from (l ++ [t]) ->
  lseg (<[t := e]> nx) from ((l ++ [t]) ++ [e]).
Proof.
  revert from; induction l as [|q r IH]; intros from Hnd He Hen Hnx; simpl.
  - intros (-> & Ht & n & Hn & ->).
    split; [done|]. split; [done|]. exists e. split; [by rewrite lookup_insert_eq|].
    split; [done|]. split; [done|]. exists NULL. split; [|done].
    rewrite lookup_insert_ne; [done|]. intros ->. apply He. simpl. left.
  - intros (-> & Hq & n & Hn & Hr).
    simpl in Hnd. apply NoDup_cons in Hnd as [Hq' Hnd].
    split; [done|]. split; [done|]. exists n. split.
    + rewrite lookup_insert_ne; [done|]. intros ->. apply Hq'.
      apply elem_of_app. right. left.
    + apply IH; [done| |done|done|done].
      intros Hin. apply He. simpl. by right.
Qed.

Lemma last_snoc_default (l : list Z) t : default NULL (last (l ++ [t])) = t.
Proof. by rewrite last_snoc. Qed.

(** [psmx_cq_enqueue_event] appends: it implements [l ++ [event]]. *)
Lemma enqueue_rep m l e :
  queue_rep m l -> e <> NULL -> e ∉ l -> ev_next m !! e = Some NULL ->
  queue_rep (final (psmx_cq_enqueue_event e m)) (l ++ [e]).
Proof.
  intros (Hnd & Hseg & Htl) Hen Hel Hnx.
  destruct (decide (l = [])) as [->|Hl].
  - simpl in *. unfold psmx_cq_enqueue_event, final, mbind, M_bind; simpl.
    rewrite Htl; simpl.
    split; [apply NoDup_singleton|]. split; [|done].
    simpl. split; [done|]. split; [done|]. by exists NULL.
  - destruct (exists_last Hl) as (l0 & t & ->).
    rewrite last_snoc_default in Htl.
    assert (t <> NULL) as Htn.
    { clear -Hseg. revert Hseg. generalize (ceq_head m).
      induction l0 as [|q r IH]; simpl; intros from.
      - by intros (-> & ? & _).
      - intros (_ & _ & n & _ & Hr). by eapply IH. }
    subst t.
    unfold psmx_cq_enqueue_event, final, mbind, M_bind; simpl.
    rewrite bool_decide_true by done. simpl.
    split; [|split].
    + apply NoDup_app. split; [done|]. split; [|apply NoDup_singleton].
      intros x Hx Hx'. apply list_elem_of_singleton in Hx' as ->. done.
    + by apply lseg_snoc.
    + by rewrite last_snoc_default.
Qed.

Lemma enqueue_next_other m e p :
  p ∉ [ceq_tail m] ->
  ev_next (final (psmx_cq_enqueue_event e m)) !! p = ev_next m !! p.
Proof.
  intros Hp. unfold psmx_cq_enqueue_event, final, mbind, M_bind; simpl.
  case_bool_decide; simpl; [|done].
  rewrite lookup_insert_ne; [done|]. set_solver.
Qed.

(** [psmx_cq_dequeue_event] pops the head and unlinks it. *)
Lemma dequeue_rep m p l :
  queue_rep m (p :: l) ->
  result (psmx_cq_dequeue_event m) = p /\
  queue_rep (final (psmx_cq_dequeue_event m)) l /\
  ev_next (final (psmx_cq_dequeue_event m)) !! p = Some NULL.
Proof.
  destruct m as [h t nx]. intros (Hnd & Hseg & Htl). simpl in Hseg, Htl.
  destruct Hseg as (-> & Hp & n & Hn & Hr).
  apply NoDup_cons in Hnd as [Hpl Hnd].
  unfold psmx_cq_dequeue_event, result, final, mbind, M_bind,
    load_head, load_next, store_head, store_tail, store_next; simpl.
  rewrite bool_decide_false by done. simpl. rewrite Hn. simpl.
  destruct l as [|q r].
  - simpl in Hr. subst n. rewrite bool_decide_true by done. simpl.
    split; [done|]. split; [|by rewrite lookup_insert_eq].
    split; [done|]. by split.
  - simpl in Hr. destruct Hr as (-> & Hq & n' & Hn' & Hr').
    rewrite bool_decide_false by done. simpl.
    split; [done|]. split; [|by rewrite lookup_insert_eq].
    split; [done|]. split.
    + apply (lseg_insert_notin _ _ (q :: r)); [done|].
      simpl. split; [done|]. split; [done|]. by exists n'.
    + simpl. rewrite Htl. by rewrite last_cons_cons.
Qed.

Lemma dequeue_empty m :
  ceq_head m = NULL -> psmx_cq_dequeue_event m = (NULL, m, 1%nat).
Proof.
  intros H. unfold psmx_cq_dequeue_event, mbind, M_bind; simpl.
  by rewrite H.
Qed.

Lemma enqueue_cost m e : (cost (psmx_cq_enqueue_event e m) <= 4)%nat.
Proof.
  unfold psmx_cq_enqueue_event, cost, mbind, M_bind; simpl.
  case_bool_decide; simpl; lia.
Qed.

Lemma dequeue_cost m : (cost (psmx_cq_dequeue_event m) <= 7)%nat.
Proof.
  unfold psmx_cq_dequeue_event, cost, mbind, M_bind; simpl.
  repeat (case_bool_decide; simpl); lia.
Qed.

Lemma final_bind {A B} (c : M A) (f : A -> M B) m :
  final ((c ≫= f) m) = final (f (result (c m)) (final (c m))).
Proof.
  unfold mbind, M_bind, final, result.
  destruct (c m) as [[a m1] n1]; simpl.
  by destruct (f a m1) as [[b m2] n2].
Qed.

Lemma result_bind {A B} (c : M A) (f : A -> M B) m :
  result ((c ≫= f) m) = result (f (result (c m)) (final (c m))).
Proof.
  unfold mbind, M_bind, final, result.
  destruct (c m) as [[a m1] n1]; simpl.
  by destruct (f a m1) as [[b m2] n2].
Qed.

Lemma rep_tail_in m l :
  queue_rep m l -> ceq_tail m <> NULL -> ceq_tail m ∈ l.
Proof.
  intros (_ & _ & Ht) Hn. rewrite Ht in *.
  destruct (last l) as [t|] eqn:El; simpl in *; [|done].
  apply last_Some in El as [l' ->]. apply elem_of_app. right. left.
Qed.

Lemma enqueue_keeps_next m l e p :
  queue_rep m l -> p ∉ l ->
  ev_next (final (psmx_cq_enqueue_event e m)) !! p = ev_next m !! p.
Proof.
  intros Hrep Hp.
  unfold psmx_cq_enqueue_event, final, mbind, M_bind; simpl.
  case_bool_decide as Ht; simpl; [|done].
  rewrite lookup_insert_ne; [done|].
  intros <-. apply Hp. by eapply rep_tail_in.
Qed.

Lemma enqueue_all_rep evs : forall m l,
  queue_rep m l -> NoDup (l ++ evs) ->
  Forall (fun e => e <> NULL /\ ev_next m !! e = Some NULL) evs ->
  queue_rep (final (enqueue_all evs m)) (l ++ evs).
Proof.
  induction evs as [|e r IH]; intros m l Hrep Hnd Hall.
  - simpl. by rewrite app_nil_r.
  - cbn [enqueue_all]. rewrite final_bind.
    apply Forall_cons in Hall as [[He Hnx] Hall].
    assert (e ∉ l) as Hel.
    { apply NoDup_app in Hnd as (_ & Hd & _). intros Hin.
      apply (Hd e Hin). left. }
    rewrite (assoc_L (++) l [e] r : l ++ e :: r = (l ++ [e]) ++ r) in *.
    apply IH.
    + by apply enqueue_rep.
    + done.
    + apply Forall_forall. intros x Hx.
      destruct (proj1 (Forall_forall _ _) Hall x Hx) as [Hxn Hxx].
      split; [done|]. erewrite enqueue_keeps_next; [done|exact Hrep|].
      intros Hin. apply NoDup_app in Hnd as (_ & Hd & _).
      apply (Hd x); [apply elem_of_app; by left | done].
Qed.

Lemma dequeue_n_rep n : forall m l1 l2,
  queue_rep m (l1 ++ l2) -> length l1 = n ->
  result (dequeue_n n m) = l1 /\ queue_rep (final (dequeue_n n m)) l2.
Proof.
  induction n as [|n IH]; intros m l1 l2 Hrep Hlen.
  - destruct l1; [|done]. by split.
  - destruct l1 as [|p l1]; [done|]. simpl in Hlen, Hrep.
    destruct (dequeue_rep m p (l1 ++ l2) Hrep) as (Hres & Hrep' & _).
    cbn [dequeue_n]. rewrite result_bind, final_bind, Hres.
    destruct (IH _ l1 l2 Hrep' ltac:(lia)) as [Hr Hf].
    rewrite result_bind, final_bind, Hr. by split.
Qed.

Lemma rep_nil_inv m : queue_rep m [] -> ceq_head m = NULL /\ ceq_tail m = NULL.
Proof. by intros (_ & Hs & Ht). Qed.

(** The sequence-level functions used in the CQ are what the pointer-level
    functions do to the sequence the links represent ([payload] gives
    the record stored at an address). *)
Lemma enqueue_event_refines m l e (payload : Z -> psmx_cq_event) :
  queue_rep m l -> e <> NULL -> e ∉ l -> ev_next m !! e = Some NULL ->
  queue_rep (final (psmx_cq_enqueue_event e m)) (l ++ [e]) /\
  payload <$> (l ++ [e]) = enqueue_event (payload <$> l) (payload e).
Proof.
  intros Hrep He Hel Hnx. split; [by apply enqueue_rep|].
  unfold enqueue_event. by rewrite fmap_app.
Qed.

Lemma dequeue_event_refines m l (payload : Z -> psmx_cq_event) :
  queue_rep m l ->
  match dequeue_event (payload <$> l) with
  | (None, q) =>
      psmx_cq_dequeue_event m = (NULL, m, 1%nat) /\ q = []
  | (Some event, q) =>
      event = payload (result (psmx_cq_dequeue_event m)) /\
      exists l', queue_rep (final (psmx_cq_dequeue_event m)) l' /\
                 q = payload <$> l'
  end.
Proof.
  intros Hrep. destruct l as [|p l]; simpl.
  - split; [|done]. apply dequeue_empty. by apply rep_nil_inv in Hrep as [? _].
  - destruct (dequeue_rep m p l Hrep) as (Hres & Hrep' & _).
    rewrite Hres. split; [done|]. by exists l.
Qed.

(** C8: whatever the queue holds ([l], possibly nothing), after the
    records [evs] have been enqueued (distinct, unlinked records that
    are not yet queued), as many dequeues as there are records yield
    them in enqueue order and leave head and tail both null; an
    enqueue costs at most 4 and a dequeue at most 7 pointer loads and
    stores, whatever the length of the queue; and a dequeue that
    leaves the head null has set the tail null as well. *)
Theorem fifo_order_and_constant_cost (m : mem) (l evs : list Z) :
  queue_rep m l ->
  NoDup (l ++ evs) ->
  Forall (fun e => e <> NULL /\ ev_next m !! e = Some NULL) evs ->
  let run := (enqueue_all evs;; dequeue_n (length (l ++ evs))) m in
  result run = l ++ evs /\
  ceq_head (final run) = NULL /\ ceq_tail (final run) = NULL /\
  (forall m' e, (cost (psmx_cq_enqueue_event e m') <= 4)%nat) /\
  (forall m', (cost (psmx_cq_dequeue_event m') <= 7)%nat) /\
  (forall m', ceq_head m' <> NULL ->
              ceq_head (final (psmx_cq_dequeue_event m')) = NULL ->
              ceq_tail (final (psmx_cq_dequeue_event m')) = NULL).
Proof.
  intros Hrep Hnd Hall run. subst run.
  rewrite result_bind, final_bind.
  pose proof (enqueue_all_rep evs m l Hrep Hnd Hall) as Hq.
  rewrite <- (app_nil_r (l ++ evs)) in Hq.
  destruct (dequeue_n_rep (length (l ++ evs)) _ (l ++ evs) [] Hq eq_refl)
    as [Hres Hfin].
  apply rep_nil_inv in Hfin as [Hh Ht].
  split; [done|]. split; [done|]. split; [done|].
  split; [apply enqueue_cost|]. split; [apply dequeue_cost|].
  intros m' Hne. unfold psmx_cq_dequeue_event, final, mbind, M_bind; simpl.
  rewrite bool_decide_false by done. simpl.
  case_bool_decide; simpl; done.
Qed.

Definition fifo_mem : mem := Mem NULL NULL {[ 16 := 0; 32 := 0; 48 := 0 ]}.

Lemma fifo_order_and_constant_cost_witness :
  result ((enqueue_all [16; 32; 48];; dequeue_n 3) fifo_mem) = [16; 32; 48].
Proof.
  assert (queue_rep fifo_mem []) as Hrep.
  { split; [constructor|]. by split. }
  assert (NoDup ([] ++ [16; 32; 48])) as Hnd.
  { simpl. compute_done. }
  assert (Forall (fun e => e <> NULL /\ ev_next fifo_mem !! e = Some NULL)
                 [16; 32; 48]) as Hall.
  { repeat (apply List.Forall_cons; [by split|]). apply List.Forall_nil. }
  exact (proj1 (fifo_order_and_constant_cost fifo_mem [] [16; 32; 48] Hrep Hnd Hall)).
Defined.

End EventListFacts.

(** ** Reasoning about statement sequences *)

Section ProgFacts.

Context {A B : Type}.

Lemma wp_ret (a : A) QR QN st : QN a st -> wp (mret a) QR QN st.
Proof. done. Qed.

Lemma wp_return (r : Z) QR (QN : A -> state -> Prop) st :
  QR r st -> wp (return_ r) QR QN st.
Proof. done. Qed.

Lemma wp_bind (m : prog A) (f : A -> prog B) QR QN st :
  wp m QR (fun a st' => wp (f a) QR QN st') st -> wp (m ≫= f) QR QN st.
Proof.
  unfold wp, mbind, prog_bind. by destruct (m st).
Qed.

Lemma wp_mono (m : prog A) (QR QR' : Z -> state -> Prop)
    (QN QN' : A -> state -> Prop) st :
  wp m QR QN st ->
  (forall r st', QR r st' -> QR' r st') ->
  (forall a st', QN a st' -> QN' a st') ->
  wp m QR' QN' st.
Proof.
  unfold wp. destruct (m st); auto.
Qed.

Lemma wp_load {T} (heap : state -> gmap Z T) p QR (QN : T -> state -> Prop) st :
  (forall a, p <> NULL -> heap st !! p = Some a -> QN a st) ->
  wp (load heap p) QR QN st.
Proof.
  intros H. unfold wp, load, deref.
  case_bool_decide; [done|].
  destruct (heap st !! p) eqn:El; [by apply H | done].
Qed.

Lemma wp_modify f QR (QN : unit -> state -> Prop) st :
  QN tt (f st) -> wp (modify f) QR QN st.
Proof. done. Qed.

End ProgFacts.

(** ** Frames of the driver's statements *)

Lemma cq_grows_refl c : cq_grows c c.
Proof. repeat split. exists []. by rewrite app_nil_r. Qed.

Lemma cq_grows_trans a b c : cq_grows a b -> cq_grows b c -> cq_grows a c.
Proof.
  intros (F1 & S1 & P1 & e1 & Q1) (F2 & S2 & P2 & e2 & Q2).
  split; [congruence|]. split; [congruence|]. split; [congruence|].
  exists (e1 ++ e2). by rewrite Q2, Q1, app_assoc.
Qed.

Lemma cqs_grow_refl st : cqs_grow st st.
Proof. intros p c Hc. exists c. split; [done | apply cq_grows_refl]. Qed.

Lemma cqs_grow_trans a b c : cqs_grow a b -> cqs_grow b c -> cqs_grow a c.
Proof.
  intros H1 H2 p x Hx.
  destruct (H1 p x Hx) as (y & Hy & Gy).
  destruct (H2 p y Hy) as (z & Hz & Gz).
  exists z. split; [done | by eapply cq_grows_trans].
Qed.

Lemma cqs_grow_same st st' : cqs st' = cqs st -> cqs_grow st st'.
Proof.
  intros Hc p c Hp. exists c. rewrite Hc. split; [done | apply cq_grows_refl].
Qed.

Lemma cqs_grow_insert st p c c' :
  cqs st !! p = Some c -> cq_grows c c' ->
  cqs_grow st (set_cqs (<[p := c']> (cqs st)) st).
Proof.
  intros Hc G q x Hx. simpl.
  destruct (decide (p = q)) as [->|Hne].
  - rewrite lookup_insert_eq. exists c'. split; [done|]. congruence.
  - rewrite lookup_insert_ne by done. exists x. split; [done | apply cq_grows_refl].
Qed.

Lemma poll_frame_refl st : poll_frame st st.
Proof. split; [apply cqs_grow_refl | done]. Qed.

Lemma poll_frame_trans a b c : poll_frame a b -> poll_frame b c -> poll_frame a c.
Proof.
  intros [G1 M1] [G2 M2]. split; [by eapply cqs_grow_trans | congruence].
Qed.

Lemma poll_frame_same st st' :
  cqs st' = cqs st -> mq_ready (psm_mq_of st') = mq_ready (psm_mq_of st) ->
  poll_frame st st'.
Proof. intros Hc Hm. split; [by apply cqs_grow_same | done]. Qed.

Lemma poll_frame_insert st p c c' :
  cqs st !! p = Some c -> cq_grows c c' ->
  poll_frame st (set_cqs (<[p := c']> (cqs st)) st).
Proof. intros Hc G. split; [by eapply cqs_grow_insert | done]. Qed.

(** The driver's frame: CQs only grow, whichever CQ is updated. *)
#[export] Instance poll_frame_is_frame : Frame poll_frame (fun _ => True).
Proof.
  split.
  - apply poll_frame_refl.
  - apply poll_frame_trans.
  - apply poll_frame_same.
  - intros st p c c' _. apply poll_frame_insert.
Qed.

(** The CQ at [cq] stays as it is when only other CQs are updated. *)
#[export] Instance untouched_is_frame cq : Frame (untouched cq) (fun p => p <> cq).
Proof.
  unfold untouched. split.
  - done.
  - intros a b c H1 H2. congruence.
  - intros st st' H _. by rewrite H.
  - intros st p c c' Hp _ _. simpl. by rewrite lookup_insert_ne.
Qed.

Lemma cq_grows_free_list fl c : cq_grows c (set_free_list fl c).
Proof. repeat split. exists []. simpl. by rewrite app_nil_r. Qed.

Lemma cq_grows_enqueue ev c :
  cq_grows c (set_event_queue (enqueue_event (cq_event_queue c) ev) c).
Proof. repeat split. by exists [ev]. Qed.

Section FramePrimitives.

Context `{!Frame R ok}.
Variable P : Z -> Prop.

Lemma fr_ret {A} (a : A) : preserves R P (mret a).
Proof. intros st. exact (frame_refl st). Qed.

Lemma fr_return {A} (r : Z) : P r -> preserves R P (return_ r : prog A).
Proof. intros H st. exact (conj H (frame_refl st)). Qed.

Lemma fr_load {T} (heap : state -> gmap Z T) p : preserves R P (load heap p).
Proof. intros st. apply wp_load. intros. exact (frame_refl st). Qed.

Lemma fr_bind {A B} (m : prog A) (f : A -> prog B) :
  preserves R P m -> (forall a, preserves R P (f a)) -> preserves R P (m ≫= f).
Proof.
  intros Hm Hf st. apply wp_bind.
  eapply wp_mono; [apply Hm | |]; simpl.
  - auto.
  - intros a st' HR. eapply wp_mono; [apply Hf | |]; simpl.
    + intros r st'' [HP HR']. split; [done|]. by eapply frame_trans.
    + intros b st'' HR'. by eapply frame_trans.
Qed.

(** A statement sequence that keeps the frame, run from a state
    already related to [st0]. *)
Lemma fr_wp {A} (m : prog A) st0 st :
  preserves R P m -> R st0 st ->
  wp m (fun r st' => P r /\ R st0 st') (fun _ st' => R st0 st') st.
Proof.
  intros Hm H0. eapply wp_mono; [apply Hm | |]; simpl.
  - intros r st' [HP HR]. split; [done|]. by eapply frame_trans.
  - intros a st' HR. by eapply frame_trans.
Qed.

Lemma fr_modify f :
  (forall st, cqs (f st) = cqs st) ->
  (forall st, mq_ready (psm_mq_of (f st)) = mq_ready (psm_mq_of st)) ->
  preserves R P (modify f).
Proof. intros H1 H2 st. apply wp_modify. by apply frame_same. Qed.

Lemma fr_store_ep p e : preserves R P (store_ep p e).
Proof. by apply fr_modify. Qed.
Lemma fr_store_multi_recv p r : preserves R P (store_multi_recv p r).
Proof. by apply fr_modify. Qed.
Lemma fr_store_ctxt p c : preserves R P (store_ctxt p c).
Proof. by apply fr_modify. Qed.
Lemma fr_free_ctxt p : preserves R P (free_ctxt p).
Proof. by apply fr_modify. Qed.
Lemma fr_free_multi_recv p : preserves R P (free_multi_recv p).
Proof. by apply fr_modify. Qed.

Lemma fr_cntr_add p v : preserves R P (cntr_add p v).
Proof.
  unfold cntr_add. apply fr_bind; [apply fr_load|]. intros a.
  by apply fr_modify.
Qed.

Lemma fr_irecv code p : preserves R P (psm_mq_irecv code p).
Proof.
  intros st. unfold wp, psm_mq_irecv.
  case_bool_decide; [by apply frame_same | exact (frame_refl st)].
Qed.

Lemma fr_enqueue_on cq ev : ok cq -> preserves R P (enqueue_on cq ev).
Proof.
  intros Hok st. unfold enqueue_on. apply wp_bind, wp_load. intros c _ Hc.
  apply wp_modify. eapply frame_update; [done | done | apply cq_grows_enqueue].
Qed.

End FramePrimitives.

(** Proves that a statement sequence built from the primitives keeps a
    frame, by the shape of the sequence. *)
Ltac frame_prim :=
  match goal with
  | |- preserves _ _ (mret _) => apply fr_ret
  | |- preserves _ _ (return_ _) => apply fr_return; solve [auto]
  | |- preserves _ _ (load _ _) => apply fr_load
  | |- preserves _ _ (store_ep _ _) => apply fr_store_ep
  | |- preserves _ _ (store_multi_recv _ _) => apply fr_store_multi_recv
  | |- preserves _ _ (store_ctxt _ _) => apply fr_store_ctxt
  | |- preserves _ _ (free_ctxt _) => apply fr_free_ctxt
  | |- preserves _ _ (free_multi_recv _) => apply fr_free_multi_recv
  | |- preserves _ _ (cntr_add _ _) => apply fr_cntr_add
  | |- preserves _ _ (psm_mq_irecv _ _) => apply fr_irecv
  | |- preserves _ _ (enqueue_on _ _) => apply fr_enqueue_on; solve [auto]
  | |- preserves _ _ (_ ≫= _) => apply fr_bind; [| intros ?]
  | |- preserves _ _ (if bool_decide _ then _ else _) => case_bool_decide
  | |- preserves _ _ (if ?b then _ else _) => destruct b
  | |- preserves _ _ (match ?x with _ => _ end) => destruct x
  end.

Section FrameDriver.

Context `{!Frame R ok}.
Variable E : env.
Variable P : Z -> Prop.
Hypothesis P_one : P 1.
Hypothesis P_nomem : P (- ENOMEM E).
Hypothesis P_errno : forall err, err <> PSM_OK E -> P (psmx_errno E err).

Lemma fr_create_event cq a b c d e f g h :
  ok cq -> preserves R P (psmx_cq_create_event E cq a b c d e f g h).
Proof.
  intros Hok st. unfold psmx_cq_create_event.
  apply wp_bind, wp_load. intros c0 _ Hc.
  destruct (PSMX_FREE_LIST_GET E (cq_free_list c0)) as [event fl].
  apply wp_bind, wp_modify, wp_ret.
  eapply frame_update; [done | done | apply cq_grows_free_list].
Qed.

Lemma fr_create_event_from_status cq s data :
  ok cq -> preserves R P (psmx_cq_create_event_from_status E cq s data).
Proof.
  intros Hok st. unfold psmx_cq_create_event_from_status.
  apply wp_bind, wp_load. intros c0 _ Hc.
  destruct (PSMX_FREE_LIST_GET E (cq_free_list c0)) as [event fl].
  apply wp_bind, wp_modify.
  apply fr_wp;
    [| eapply frame_update; [done | done | apply cq_grows_free_list]].
  repeat frame_prim.
Qed.

Lemma fr_create_and_enqueue cq mk :
  ok cq -> preserves R P mk -> preserves R P (create_and_enqueue E cq mk).
Proof. intros Hok H. unfold create_and_enqueue. repeat frame_prim. done. Qed.

Lemma fr_status_event cq s data :
  ok cq ->
  preserves R P (create_and_enqueue E cq
                   (psmx_cq_create_event_from_status E cq s data)).
Proof.
  intros Hok. by apply fr_create_and_enqueue, fr_create_event_from_status.
Qed.

Lemma fr_multi_recv_continuation s r :
  ok (tmp_cq r) -> preserves R P (multi_recv_continuation E s r).
Proof.
  intros Hok. unfold multi_recv_continuation.
  repeat frame_prim; by apply fr_create_and_enqueue, fr_create_event.
Qed.

Lemma fr_remote_completion cq s ctx cntr w :
  (forall p, ok p) -> preserves R P (remote_completion E cq s ctx cntr w).
Proof.
  intros Hok. unfold remote_completion.
  repeat frame_prim; by apply fr_status_event.
Qed.

Lemma fr_route cq s : (forall p, ok p) -> preserves R P (route E cq s).
Proof.
  intros Hok. unfold route. repeat frame_prim; by apply fr_remote_completion.
Qed.

Lemma fr_poll_one cq s : (forall p, ok p) -> preserves R P (poll_one E cq s).
Proof.
  intros Hok. unfold poll_one.
  apply fr_bind; [by apply fr_route|]. intros [r|]; [|apply fr_ret].
  apply fr_bind.
  { case_bool_decide; [by apply fr_status_event | apply fr_ret]. }
  intros _. apply fr_bind; [repeat frame_prim|]. intros _.
  apply fr_bind.
  { destruct (multi_recv r); [by apply fr_multi_recv_continuation | apply fr_ret]. }
  intros _. repeat frame_prim.
Qed.

End FrameDriver.

(** The driver's frame, [poll_frame], under the names used below. *)
Lemma wp_pf P {A} (m : prog A) st0 st :
  preserves poll_frame P m -> poll_frame st0 st ->
  wp m (fun r st' => P r /\ poll_frame st0 st')
       (fun _ st' => poll_frame st0 st') st.
Proof. apply fr_wp. Qed.

Lemma pf_multi_recv_continuation E (P : Z -> Prop) :
  P (- ENOMEM E) -> (forall err, err <> PSM_OK E -> P (psmx_errno E err)) ->
  forall s r, preserves poll_frame P (multi_recv_continuation E s r).
Proof. intros H1 H2 s r. by apply fr_multi_recv_continuation. Qed.

Lemma pf_poll_one E (P : Z -> Prop) :
  P 1 -> P (- ENOMEM E) -> (forall err, err <> PSM_OK E -> P (psmx_errno E err)) ->
  forall cq s, preserves poll_frame P (poll_one E cq s).
Proof. intros H1 H2 H3 cq s. by apply fr_poll_one. Qed.

Ltac pf := repeat frame_prim.

Section ReadFacts.

Variable E : env.

Lemma poll_loop_grow cq ready : forall st,
  match poll_loop E cq ready st with
  | Return _ st' => cqs_grow st st'
  | _ => True
  end.
Proof.
  induction ready as [|item rest IH]; intros st; simpl.
  - apply cqs_grow_refl.
  - destruct item as [s|err].
    + pose proof (pf_poll_one E (fun _ => True) I I (fun _ _ => I) cq s
                    (set_mq (set_ready rest (psm_mq_of st)) st)) as H.
      unfold wp in H.
      assert (cqs_grow st (set_mq (set_ready rest (psm_mq_of st)) st)) as G0
        by by apply cqs_grow_same.
      destruct (poll_one E cq s _) as [|r st'|[] st']; [done| |].
      { eapply cqs_grow_trans; [exact G0 | apply H]. }
      specialize (IH st').
      destruct (poll_loop E cq rest st'); [done| |done].
      eapply cqs_grow_trans; [exact G0|].
      eapply cqs_grow_trans; [apply H | exact IH].
    + repeat case_bool_decide; try done; by apply cqs_grow_same.
Qed.

Lemma poll_mq_grow cq st r st' :
  psmx_cq_poll_mq E cq st = Some (r, st') -> cqs_grow st st'.
Proof.
  unfold psmx_cq_poll_mq. intros H.
  pose proof (poll_loop_grow cq (mq_ready (psm_mq_of st)) st) as G.
  destruct (poll_loop E cq _ st); [done| |done]. by simplify_eq.
Qed.

Lemma deref_Some {T} (h : gmap Z T) p a :
  deref h p = Some a <-> p <> NULL /\ h !! p = Some a.
Proof.
  unfold deref. case_bool_decide; [|tauto].
  split; [done | tauto].
Qed.

Lemma deref_lookup {T} (h : gmap Z T) p : p <> NULL -> deref h p = h !! p.
Proof. intros H. unfold deref. by rewrite bool_decide_false. Qed.

Lemma cq_grows_flip b c : cq_grows c (set_poll_am_before_mq b c).
Proof. repeat split. exists []. simpl. by rewrite app_nil_r. Qed.

(** The progress calls a read starts with leave every CQ in place,
    with events appended at most. *)
Lemma read_progress_grow cq st st1 :
  am_progress_appends E -> read_progress E cq st = Some st1 -> cqs_grow st st1.
Proof.
  intros Ham H. unfold read_progress in H.
  destruct (deref (cqs st) cq) as [c|] eqn:Hc; [|done]. simpl in H.
  apply deref_Some in Hc as [Hn Hc].
  rewrite deref_lookup, lookup_insert_eq in H by done. simpl in H.
  set (st0 := set_cqs _ st) in H.
  assert (cqs_grow st st0) as G0.
  { eapply cqs_grow_insert; [done | apply cq_grows_flip]. }
  set (sta := if negb (cq_poll_am_before_mq c) then psmx_am_progress E st0 else st0) in H.
  assert (cqs_grow st0 sta) as Ga.
  { subst sta. destruct (negb _); [apply Ham | apply cqs_grow_refl]. }
  destruct (psmx_cq_poll_mq E cq sta) as [[r stb]|] eqn:Hp; [|done]. simpl in H.
  apply poll_mq_grow in Hp.
  destruct (deref (cqs stb) cq) as [cb|]; [|done]. simpl in H.
  simplify_eq.
  eapply cqs_grow_trans; [exact G0|].
  eapply cqs_grow_trans; [exact Ga|].
  eapply cqs_grow_trans; [exact Hp|].
  destruct (negb (cq_poll_am_before_mq cb)); [apply Ham | apply cqs_grow_refl].
Qed.

(** With nothing in store on the MQ the progress calls of a read
    return, and leave nothing in store. *)
Lemma read_progress_idle cq st c :
  am_progress_appends E -> am_progress_keeps_mq E -> cq <> NULL ->
  cqs st !! cq = Some c -> mq_ready (psm_mq_of st) = [] ->
  exists st1, read_progress E cq st = Some st1 /\ mq_ready (psm_mq_of st1) = [].
Proof.
  intros Ham Hmq Hn Hc Hidle. unfold read_progress.
  rewrite deref_lookup, Hc by done. simpl.
  rewrite deref_lookup, lookup_insert_eq by done. simpl.
  set (st0 := set_cqs _ st).
  assert (cqs st0 !! cq
          = Some (set_poll_am_before_mq (negb (cq_poll_am_before_mq c)) c)) as Hc0
    by apply lookup_insert_eq.
  set (sta := if negb (cq_poll_am_before_mq c) then psmx_am_progress E st0 else st0).
  assert (mq_ready (psm_mq_of sta) = []) as Hma.
  { subst sta. destruct (negb _); [by rewrite Hmq|done]. }
  assert (exists ca, cqs sta !! cq = Some ca) as [ca Hca].
  { subst sta. destruct (negb _); [|by eexists].
    destruct (Ham st0 cq _ Hc0) as (ca & Hca & _). by exists ca. }
  unfold psmx_cq_poll_mq. rewrite Hma. simpl.
  rewrite deref_lookup, Hca by done. simpl.
  eexists. split; [reflexivity|].
  destruct (negb (cq_poll_am_before_mq ca)); [by rewrite Hmq | exact Hma].
Qed.


(** C6: when no error is pending, a read whose capacity is below the
    entry size returns -FI_ETOOSMALL; it dequeues no record, copies no
    data and leaves the pending-error slot empty: the state it leaves is
    the one its progress calls produced, in which the CQ holds what it
    held, with the events progress appended. *)
Theorem read_too_small_without_pending_error cq st st1 c buf len src :
  am_progress_appends E -> cq <> NULL ->
  cqs st !! cq = Some c -> cq_pending_error c = None ->
  len < cq_entry_size c ->
  read_progress E cq st = Some st1 ->
  psmx_cq_readfrom E cq buf len src st
    = Some (ReadResult (- FI_ETOOSMALL E) buf src st1) /\
  exists c1, cqs st1 !! cq = Some c1 /\ cq_pending_error c1 = None /\
    exists evs, cq_event_queue c1 = cq_event_queue c ++ evs.
Proof.
  intros Ham Hn Hc Hpe Hlen Hp.
  destruct (read_progress_grow cq st st1 Ham Hp cq c Hc)
    as (c1 & Hc1 & Hf & Hs & Hpe1 & evs & Hq).
  split.
  - unfold psmx_cq_readfrom. rewrite Hp. simpl.
    rewrite deref_lookup, Hc1 by done. simpl.
    rewrite Hpe1, Hpe.
    rewrite bool_decide_false by (by intros [? ?]).
    rewrite Hs. by rewrite (proj2 (Z.ltb_lt _ _) Hlen).
  - exists c1. split; [done|]. split; [congruence|]. by exists evs.
Qed.


(** What [psmx_cq_readfrom] does once its progress calls are over,
    case by case. *)
Lemma readfrom_pending cq st st1 c1 e buf len src :
  cq <> NULL -> read_progress E cq st = Some st1 ->
  cqs st1 !! cq = Some c1 -> cq_pending_error c1 = Some e ->
  psmx_cq_readfrom E cq buf len src st
    = Some (ReadResult (- FI_EAVAIL E) buf src st1).
Proof.
  intros Hn Hp Hc1 Hpe. unfold psmx_cq_readfrom. rewrite Hp. simpl.
  rewrite deref_lookup, Hc1 by done. simpl. rewrite Hpe.
  by rewrite bool_decide_true by by eexists.
Qed.

Lemma readfrom_head cq st st1 c1 ev q bytes len src :
  cq <> NULL -> read_progress E cq st = Some st1 ->
  cqs st1 !! cq = Some c1 -> cq_pending_error c1 = None ->
  cq_event_queue c1 = ev :: q -> cq_entry_size c1 <= len ->
  psmx_cq_readfrom E cq (Some bytes) len src st =
    if ev_error ev then
      Some (ReadResult (- FI_EAVAIL E) (Some bytes) src
              (set_cqs (<[cq := set_pending_error (Some ev) (set_event_queue q c1)]>
                          (cqs st1)) st1))
    else
      Some (ReadResult (cq_entry_size c1)
              (Some (Mem.memcpy bytes (ev_cqe ev) (Z.to_nat (cq_entry_size c1))))
              (let '(err, a) :=
                 psmx_cq_get_event_src_addr E (reserved_tag_bits st1) ev src in
               if negb (err =? 0) then (fun _ => FI_ADDR_UNSPEC E) <$> a else a)
              (set_cqs (<[cq := set_free_list (ev :: cq_free_list c1)
                                  (set_event_queue q c1)]> (cqs st1)) st1)).
Proof.
  intros Hn Hp Hc1 Hpe Hq Hlen. unfold psmx_cq_readfrom. rewrite Hp. simpl.
  rewrite deref_lookup, Hc1 by done. simpl. rewrite Hpe.
  rewrite bool_decide_false by (by intros [? ?]).
  rewrite (proj2 (Z.ltb_ge _ _) Hlen). rewrite Hq. simpl.
  destruct (ev_error ev); simpl; [done|].
  by destruct (psmx_cq_get_event_src_addr E (reserved_tag_bits st1) ev src).
Qed.



(** A CQ that [psmx_cq_open] hands out has one of the four formats and
    that format's entry size, an empty queue and an empty pending-error
    slot. *)
Lemma open_entry_size attr context os attr' c0 :
  psmx_cq_open E attr context os = (0, attr', Some c0) ->
  exists n, entry_size_of (lay E) (cq_format c0) = Some n /\
    cq_entry_size c0 = Z.of_nat n /\
    cq_event_queue c0 = [] /\ cq_pending_error c0 = None.
Proof.
  unfold psmx_cq_open, psmx_cq_init_wait. intros H.
  destruct attr as [f w wc ws]; simpl in H.
  destruct f, w, wc; simpl in H;
    repeat (first [ discriminate H
                  | match type of H with
                    | context [if ?b then _ else _] => destruct b eqn:?; simpl in H
                    | context [match pipe_result os with _ => _ end] =>
                        destruct (pipe_result os); simpl in H
                    end ]);
    inversion H; subst; simpl; eexists; done.
Qed.

(** C7: on a CQ of any of the four formats, with that format's entry
    size, an empty queue and no pending error, a write of at least
    entry-size bytes returns the entry size, and the read that follows
    returns the entry size and a buffer whose first entry-size bytes are
    those that were written: for whatever the progress calls of the read
    find, provided they return; and with nothing in store on the MQ the
    read does return, with these bytes. *)
Theorem write_read_roundtrip cq st c n bytes len :
  am_progress_appends E -> cq <> NULL ->
  cqs st !! cq = Some c ->
  entry_size_of (lay E) (cq_format c) = Some n ->
  cq_entry_size c = Z.of_nat n ->
  cq_event_queue c = [] -> cq_pending_error c = None ->
  Z.of_nat n <= len -> (n <= length bytes)%nat ->
  exists st1,
    psmx_cq_write E cq (Some bytes) len true st = Some (Z.of_nat n, st1) /\
    (forall out cap st2,
      read_progress E cq st1 = Some st2 -> Z.of_nat n <= cap ->
      exists r got,
        psmx_cq_read E cq (Some out) cap st1 = Some r /\
        rd_ret r = Z.of_nat n /\
        rd_buf r = Some got /\ take n got = take n bytes) /\
    (am_progress_keeps_mq E -> mq_ready (psm_mq_of st) = [] ->
     forall out cap, Z.of_nat n <= cap ->
      exists r got,
        psmx_cq_read E cq (Some out) cap st1 = Some r /\
        rd_ret r = Z.of_nat n /\
        rd_buf r = Some got /\ take n got = take n bytes).
Proof.
  intros Ham Hn Hc Hfmt Hsz Hq Hpe Hlen Hbytes.
  eexists. split.
  { unfold psmx_cq_write. rewrite deref_lookup, Hc by done. simpl.
    rewrite Hsz, (proj2 (Z.ltb_ge _ _) Hlen). simpl. rewrite Hq. reflexivity. }
  set (ev := set_cqe _ (fresh_event E)).
  set (c' := set_event_queue _ c).
  set (st1 := set_cqs _ st).
  assert (cqs st1 !! cq = Some c') as Hc' by apply lookup_insert_eq.
  assert (forall out cap st2,
            read_progress E cq st1 = Some st2 -> Z.of_nat n <= cap ->
            exists r got,
              psmx_cq_read E cq (Some out) cap st1 = Some r /\
              rd_ret r = Z.of_nat n /\
              rd_buf r = Some got /\ take n got = take n bytes) as Hread.
  { intros out cap st2 Hp Hcap.
    destruct (read_progress_grow cq _ st2 Ham Hp cq c' Hc')
      as (c2 & Hc2 & _ & Hs2 & Hpe2 & evs & Hq2).
    simpl in Hs2, Hpe2, Hq2. rewrite Hsz in Hs2. rewrite Hpe in Hpe2.
    unfold psmx_cq_read.
    rewrite (readfrom_head cq _ st2 c2 ev evs) by (done || lia).
    simpl. eexists _, _. split; [reflexivity|]. simpl.
    split; [done|]. split; [reflexivity|].
    rewrite Hs2, Nat2Z.id.
    rewrite MemFacts.take_memcpy.
    - subst ev. simpl. rewrite ?Nat2Z.id. by apply MemFacts.take_memcpy.
    - subst ev. simpl. rewrite ?Nat2Z.id. unfold Mem.memcpy.
      rewrite length_app, length_take. lia. }
  split; [exact Hread|].
  intros Hmq Hidle out cap Hcap.
  destruct (read_progress_idle cq st1 c' Ham Hmq Hn Hc' Hidle) as (st2 & Hp & _).
  by apply (Hread out cap st2).
Qed.

(** C10: the record a write enqueues has its error flag unset; whenever
    that record is at the head of the queue, a read leaves the
    pending-error slot as it was, and (no error pending, capacity
    sufficient) hands the record over as ordinary data, for whatever the
    progress calls of the read find, provided they return; and with
    nothing in store on the MQ the read does return, with the record's
    bytes and an empty pending-error slot. *)
Theorem write_record_is_ordinary_data cq :
  am_progress_appends E -> cq <> NULL ->
  forall st c bytes len,
    cqs st !! cq = Some c -> cq_entry_size c <= len ->
    exists ev,
      psmx_cq_write E cq (Some bytes) len true st
        = Some (cq_entry_size c,
                set_cqs (<[cq := set_event_queue (cq_event_queue c ++ [ev]) c]>
                           (cqs st)) st) /\
      ev_error ev = false /\
      (forall st2 st3 c3 q buf cap src,
        read_progress E cq st2 = Some st3 -> cqs st3 !! cq = Some c3 ->
        cq_event_queue c3 = ev :: q ->
        exists r c4,
          psmx_cq_readfrom E cq buf cap src st2 = Some r /\
          cqs (rd_state r) !! cq = Some c4 /\
          cq_pending_error c4 = cq_pending_error c3 /\
          (cq_pending_error c3 = None -> cq_entry_size c3 <= cap ->
           forall out, buf = Some out ->
             rd_ret r = cq_entry_size c3 /\
             rd_buf r = Some (Mem.memcpy out (ev_cqe ev)
                                (Z.to_nat (cq_entry_size c3))))) /\
      (am_progress_keeps_mq E ->
       forall st2 c2 q out cap src,
         cqs st2 !! cq = Some c2 -> cq_event_queue c2 = ev :: q ->
         cq_pending_error c2 = None -> cq_entry_size c2 <= cap ->
         mq_ready (psm_mq_of st2) = [] ->
         exists r c4,
           psmx_cq_readfrom E cq (Some out) cap src st2 = Some r /\
           rd_ret r = cq_entry_size c2 /\
           rd_buf r = Some (Mem.memcpy out (ev_cqe ev)
                              (Z.to_nat (cq_entry_size c2))) /\
           cqs (rd_state r) !! cq = Some c4 /\
           cq_pending_error c4 = None).
Proof.
  intros Ham Hn st c bytes len Hc Hlen.
  eexists. split; [|split; [|split]].
  - unfold psmx_cq_write. rewrite deref_lookup, Hc by done. simpl.
    rewrite (proj2 (Z.ltb_ge _ _) Hlen). simpl. reflexivity.
  - reflexivity.
  - intros st2 st3 c3 q buf cap src Hp Hc3 Hq.
    set (ev := set_cqe _ (fresh_event E)) in *.
    destruct (cq_pending_error c3) as [e|] eqn:Hpe.
    { exists (ReadResult (- FI_EAVAIL E) buf src st3), c3.
      split; [by eapply readfrom_pending|]. simpl.
      split; [done|]. split; [done|]. done. }
    unfold psmx_cq_readfrom. rewrite Hp. simpl.
    rewrite deref_lookup, Hc3 by done. simpl. rewrite Hpe.
    rewrite bool_decide_false by (by intros [? ?]).
    destruct (cap <? cq_entry_size c3) eqn:Hcap.
    { eexists _, c3. split; [reflexivity|]. simpl.
      split; [done|]. split; [done|]. intros _ Hle. apply Z.ltb_lt in Hcap. lia. }
    destruct buf as [out|].
    2:{ eexists _, c3. split; [reflexivity|]. simpl.
        split; [done|]. split; [done|]. by intros _ _ out. }
    rewrite Hq. simpl.
    destruct (psmx_cq_get_event_src_addr E (reserved_tag_bits st3) ev src)
      as [err a].
    eexists _, _. split; [reflexivity|]. simpl.
    rewrite lookup_insert_eq. split; [reflexivity|]. simpl.
    split; [done|]. intros _ _ o [= <-]. done.
  - intros Hmq st2 c2 q out cap src Hc2 Hq Hpe Hcap Hidle.
    set (ev := set_cqe _ (fresh_event E)) in *.
    destruct (read_progress_idle cq st2 c2 Ham Hmq Hn Hc2 Hidle) as (st3 & Hp & _).
    destruct (read_progress_grow cq st2 st3 Ham Hp cq c2 Hc2)
      as (c3 & Hc3 & _ & Hs3 & Hpe3 & evs & Hq3).
    rewrite Hq in Hq3. simpl in Hq3.
    rewrite (readfrom_head cq st2 st3 c3 ev (q ++ evs))
      by (done || congruence || lia).
    change (ev_error ev) with false. cbn [negb].
    eexists _, _. split; [reflexivity|]. simpl.
    rewrite lookup_insert_eq, Hs3.
    split; [done|]. split; [done|]. split; [reflexivity|]. simpl. congruence.
Qed.

End ReadFacts.

(** ** Total correctness of statement sequences *)

Section TwpFacts.

Context {A B : Type}.

Lemma twp_ret (a : A) QR QN st : QN a st -> twp (mret a) QR QN st.
Proof. done. Qed.

Lemma twp_return (r : Z) QR (QN : A -> state -> Prop) st :
  QR r st -> twp (return_ r) QR QN st.
Proof. done. Qed.

Lemma twp_bind (m : prog A) (f : A -> prog B) QR QN st :
  twp m QR (fun a st' => twp (f a) QR QN st') st -> twp (m ≫= f) QR QN st.
Proof.
  unfold twp, mbind, prog_bind. by destruct (m st).
Qed.

Lemma twp_load {T} (heap : state -> gmap Z T) p a QR (QN : T -> state -> Prop) st :
  p <> NULL -> heap st !! p = Some a -> QN a st ->
  twp (load heap p) QR QN st.
Proof.
  intros Hn Hl H. unfold twp, load, deref.
  by rewrite bool_decide_false, Hl by done.
Qed.

Lemma twp_modify f QR (QN : unit -> state -> Prop) st :
  QN tt (f st) -> twp (modify f) QR QN st.
Proof. done. Qed.

Lemma twp_outcome (m : prog A) QR QN st :
  twp m QR QN st ->
  (exists r st', m st = Return r st' /\ QR r st') \/
  (exists a st', m st = Next a st' /\ QN a st').
Proof.
  unfold twp. destruct (m st) as [|r st'|a st']; [done|left|right]; eauto.
Qed.

End TwpFacts.

(** ** Entry fields read back from a filled record *)

Ltac len_tac :=
  first [ lia | rewrite MemFacts.length_store64 by len_tac; len_tac ].

Ltac field_tac :=
  repeat first
    [ rewrite MemFacts.load64_store64_same by len_tac
    | rewrite MemFacts.load64_store64_other by len_tac ].

Section FillFacts.

Variable E : env.

Lemma get_pool_ok c :
  pool_ok (lay E) c ->
  length (ev_cqe (PSMX_FREE_LIST_GET E (cq_free_list c)).1) = sizeof_cqe (lay E) /\
  Forall (fun e => length (ev_cqe e) = sizeof_cqe (lay E))
         (PSMX_FREE_LIST_GET E (cq_free_list c)).2.
Proof.
  unfold pool_ok. destruct (cq_free_list c) as [|e r]; simpl.
  - intros _. split; [|constructor]. unfold Mem.zeros. apply length_replicate.
  - intros H. by apply Forall_cons in H.
Qed.

(** The entry [psmx_cq_create_event] fills for a successful completion
    carries the flags, length and data it was given. *)
Lemma fill_event_fields format rec op_context buf flags len data tag olen fin :
  layout_ok (lay E) -> length (ev_cqe rec) = sizeof_cqe (lay E) ->
  fill_event E format rec op_context buf flags len data tag olen 0 = Some fin ->
  ev_error fin = false /\
  entry_flags (lay E) format (ev_cqe fin)
    = (if has_len format then Some (Mem.u64 flags) else None) /\
  entry_len (lay E) format (ev_cqe fin)
    = (if has_len format then Some (Mem.u64 len) else None) /\
  entry_data (lay E) format (ev_cqe fin)
    = (if has_data format then Some (Mem.u64 data) else None).
Proof.
  intros (HM & HD & HT) Hlen. unfold fill_event. simpl.
  unfold apart in *.
  destruct format; try discriminate; intros [= <-]; simpl;
    (split; [done|]); repeat split; f_equal; field_tac; done.
Qed.

(** The entry [psmx_cq_create_event_from_status] fills for a successful
    completion carries the number of bytes of that completion. *)
Lemma fill_event_from_status_len format rec s op_context buf is_recv ev :
  layout_ok (lay E) -> length (ev_cqe rec) = sizeof_cqe (lay E) ->
  sts_error_code s = 0 ->
  fill_event_from_status E format rec s op_context buf 0 is_recv = Some ev ->
  ev_error ev = false /\
  entry_len (lay E) format (ev_cqe ev)
    = (if has_len format then Some (Mem.u64 (sts_nbytes s)) else None).
Proof.
  intros (HM & HD & HT) Hlen Herr. unfold fill_event_from_status.
  rewrite Herr. simpl. unfold apart in *.
  destruct format; try discriminate; intros [= <-]; destruct is_recv; simpl;
    (split; [done|]); f_equal; field_tac; done.
Qed.

End FillFacts.

(** ** Forward evaluation of the driver's operations *)

Ltac solve_lookup :=
  simpl;
  first [ eassumption
        | rewrite lookup_insert_eq; reflexivity
        | rewrite lookup_insert_ne by done; eassumption ].

Ltac tstep :=
  lazymatch goal with
  | |- twp (_ ≫= _) _ _ _ => apply twp_bind
  | |- twp (mret _) _ _ _ => apply twp_ret
  | |- twp (return_ _) _ _ _ => apply twp_return
  | |- twp (load _ _) _ _ _ => eapply twp_load; [done | solve_lookup |]
  | |- twp (modify _) _ _ _ => apply twp_modify
  | |- twp (store_cq _ _) _ _ _ => apply twp_modify
  | |- twp (store_ep _ _) _ _ _ => apply twp_modify
  | |- twp (store_ctxt _ _) _ _ _ => apply twp_modify
  | |- twp (store_multi_recv _ _) _ _ _ => apply twp_modify
  | |- twp (free_ctxt _) _ _ _ => apply twp_modify
  | |- twp (free_multi_recv _) _ _ _ => apply twp_modify
  end.

Section StepFacts.

Variable E : env.

Lemma twp_enqueue_on cq ev c QR (QN : unit -> state -> Prop) st :
  cq <> NULL -> cqs st !! cq = Some c ->
  QN tt (set_cqs (<[cq := set_event_queue (cq_event_queue c ++ [ev]) c]> (cqs st)) st) ->
  twp (enqueue_on cq ev) QR QN st.
Proof.
  intros Hn Hc H. unfold enqueue_on. repeat tstep. exact H.
Qed.

(** The event of a multi-recv completion is built from the record the
    pool hands out and appended to the receive CQ. *)
Lemma twp_status_event_multi rcq s st c ctx req ev QR (QN : unit -> state -> Prop) :
  rcq <> NULL -> cqs st !! rcq = Some c ->
  sts_context s <> NULL -> ctxts st !! sts_context s = Some ctx ->
  ctxt_type ctx = PSMX_MULTI_RECV_CONTEXT ->
  ctxt_user ctx <> NULL -> multi_recvs st !! ctxt_user ctx = Some req ->
  fill_event_from_status E (cq_format c)
    (PSMX_FREE_LIST_GET E (cq_free_list c)).1 s (sts_context s)
    (Mem.u64 (req_buf req + req_offset req)) 0 true = Some ev ->
  QN tt (set_cqs (<[rcq := set_event_queue (cq_event_queue c ++ [ev])
                            (set_free_list (PSMX_FREE_LIST_GET E (cq_free_list c)).2 c)]>
                    (cqs st)) st) ->
  twp (create_and_enqueue E rcq (psmx_cq_create_event_from_status E rcq s 0))
      QR QN st.
Proof.
  intros Hn Hc Hsn Hctx Hty Hun Hreq Hfill H.
  unfold create_and_enqueue, psmx_cq_create_event_from_status.
  destruct (PSMX_FREE_LIST_GET E (cq_free_list c)) as [rec fl] eqn:Hget.
  simpl in Hfill, H.
  tstep. tstep. tstep. rewrite Hget. tstep. tstep. tstep. tstep.
  rewrite Hty. tstep. tstep. tstep. tstep. tstep. simpl. rewrite Hfill.
  eapply twp_enqueue_on; [done | solve_lookup |]. simpl.
  by rewrite insert_insert_eq.
Qed.

(** The final event of a multi-recv buffer is built from the next
    record of the pool and appended to the receive CQ. *)
Lemma twp_final_event rcq st c a b f l d fin QR (QN : unit -> state -> Prop) :
  rcq <> NULL -> cqs st !! rcq = Some c ->
  fill_event E (cq_format c) (PSMX_FREE_LIST_GET E (cq_free_list c)).1
    a b f l d 0 0 0 = Some fin ->
  QN tt (set_cqs (<[rcq := set_event_queue (cq_event_queue c ++ [fin])
                            (set_free_list (PSMX_FREE_LIST_GET E (cq_free_list c)).2 c)]>
                    (cqs st)) st) ->
  twp (create_and_enqueue E rcq (psmx_cq_create_event E rcq a b f l d 0 0 0))
      QR QN st.
Proof.
  intros Hn Hc Hfill H.
  unfold create_and_enqueue, psmx_cq_create_event.
  destruct (PSMX_FREE_LIST_GET E (cq_free_list c)) as [rec fl] eqn:Hget.
  simpl in Hfill, H.
  tstep. tstep. tstep. rewrite Hget. tstep. tstep. tstep. rewrite Hfill.
  eapply twp_enqueue_on; [done | solve_lookup |]. simpl.
  by rewrite insert_insert_eq.
Qed.

Lemma twp_cntr_add cntr v QR (QN : unit -> state -> Prop) st :
  cntr <> NULL -> cntrs st !! cntr = Some v ->
  QN tt (set_cntrs (<[cntr := v + 1]> (cntrs st)) st) ->
  twp (cntr_add cntr 1) QR QN st.
Proof.
  intros Hn Hc H. unfold cntr_add. repeat tstep. exact H.
Qed.

End StepFacts.

Section MultiRecvFacts.

Variable E : env.

Lemma twp_opt_cntr cntr QR (QN : unit -> state -> Prop) st :
  cntr = NULL \/ is_Some (cntrs st !! cntr) ->
  (forall h, QN tt (set_cntrs h st)) ->
  twp (if bool_decide (cntr <> NULL) then cntr_add cntr 1 else mret tt) QR QN st.
Proof.
  intros Hc H. case_bool_decide as Hn.
  - destruct Hc as [?|[v Hv]]; [done|].
    eapply twp_cntr_add; [done..|]. apply H.
  - apply twp_ret. specialize (H (cntrs st)). by destruct st.
Qed.

(** The continuation re-arms the buffer when another minimum-size chunk
    still fits. *)
Lemma twp_rearm s r st ctx req QR (QN : unit -> state -> Prop) :
  sts_context s <> NULL -> ctxts st !! sts_context s = Some ctx ->
  ctxt_user ctx <> NULL -> multi_recvs st !! ctxt_user ctx = Some req ->
  tmp_ep r <> NULL -> is_Some (eps st !! tmp_ep r) ->
  mq_irecv_err (psm_mq_of st) = PSM_OK E ->
  Mem.u64 (consumed req s + req_min_buf_size req) <= req_len req ->
  QN tt (set_ctxts
           (<[sts_context s :=
                set_ctxt_req (Z.of_nat (S (length (mq_posted (psm_mq_of st))))) ctx]>
              (ctxts st))
           (set_mq (set_posted (mq_posted (psm_mq_of st) ++ [rearm_post req s])
                               (psm_mq_of st))
              (set_multi_recvs
                 (<[ctxt_user ctx := set_offset (consumed req s) req]>
                    (multi_recvs st)) st))) ->
  twp (multi_recv_continuation E s r) QR QN st.
Proof.
  intros Hsn Hctx Hun Hreq Hen [ep Hep] Hok Hfit H.
  unfold multi_recv_continuation. repeat tstep. simpl.
  fold (consumed req s).
  rewrite (proj2 (Z.leb_le _ _) Hfit).
  tstep. tstep. tstep.
  unfold twp, psm_mq_irecv, mbind, prog_bind. simpl.
  rewrite Hok, bool_decide_true by done. simpl.
  rewrite bool_decide_false by (by intros []).
  unfold load, deref. simpl. rewrite bool_decide_false, Hctx by done.
  exact H.
Qed.

(** The continuation emits the final event and releases the tracking
    record when no further minimum-size chunk fits. *)
Lemma twp_finalize s r st ctx req c fin QR (QN : unit -> state -> Prop) :
  sts_context s <> NULL -> ctxts st !! sts_context s = Some ctx ->
  ctxt_user ctx <> NULL -> multi_recvs st !! ctxt_user ctx = Some req ->
  req_len req < Mem.u64 (consumed req s + req_min_buf_size req) ->
  tmp_cq r <> NULL -> cqs st !! tmp_cq r = Some c ->
  fill_event E (cq_format c) (PSMX_FREE_LIST_GET E (cq_free_list c)).1
    (req_context req) (req_buf req) (FI_MULTI_RECV E) (req_len req)
    (Mem.u64 (req_len req - consumed req s)) 0 0 0 = Some fin ->
  QN tt (set_multi_recvs
           (delete (ctxt_user ctx)
              (<[ctxt_user ctx := set_offset (consumed req s) req]> (multi_recvs st)))
           (set_cqs
              (<[tmp_cq r :=
                   set_event_queue (cq_event_queue c ++ [fin])
                     (set_free_list (PSMX_FREE_LIST_GET E (cq_free_list c)).2 c)]>
                 (cqs st)) st)) ->
  twp (multi_recv_continuation E s r) QR QN st.
Proof.
  intros Hsn Hctx Hun Hreq Hfit Hcn Hc Hfill H.
  unfold multi_recv_continuation. repeat tstep. simpl.
  fold (consumed req s).
  rewrite (proj2 (Z.leb_gt _ _) Hfit).
  tstep. rewrite bool_decide_true by done.
  eapply twp_final_event; [done | solve_lookup | exact Hfill |].
  tstep. exact H.
Qed.

Lemma twp_finalize_no_cq s r st ctx req QR (QN : unit -> state -> Prop) :
  sts_context s <> NULL -> ctxts st !! sts_context s = Some ctx ->
  ctxt_user ctx <> NULL -> multi_recvs st !! ctxt_user ctx = Some req ->
  req_len req < Mem.u64 (consumed req s + req_min_buf_size req) ->
  tmp_cq r = NULL ->
  QN tt (set_multi_recvs
           (delete (ctxt_user ctx)
              (<[ctxt_user ctx := set_offset (consumed req s) req]> (multi_recvs st)))
           st) ->
  twp (multi_recv_continuation E s r) QR QN st.
Proof.
  intros Hsn Hctx Hun Hreq Hfit Hcn H.
  unfold multi_recv_continuation. repeat tstep. simpl.
  fold (consumed req s).
  rewrite (proj2 (Z.leb_gt _ _) Hfit).
  tstep. rewrite bool_decide_false by (by intros []).
  tstep. tstep. exact H.
Qed.

End MultiRecvFacts.

Section MultiRecvTheorems.

Variable E : env.

Lemma twp_poll_result (m : prog unit) st (P : Prop) `{!Decision P}
    (Post : state -> Prop) :
  twp m (fun r st' => P /\ r = 1 /\ Post st') (fun _ st' => ~ P /\ Post st') st ->
  exists st', m st = (if bool_decide P then Return 1 st' else Next tt st') /\ Post st'.
Proof.
  intros H. apply twp_outcome in H as [(r & st' & Hm & HP & -> & HPost)
                                       |([] & st' & Hm & HP & HPost)];
    exists st'; (split; [|done]); rewrite Hm.
  - by rewrite bool_decide_true.
  - by rewrite bool_decide_false.
Qed.

(** The last statement of an iteration. *)
Lemma twp_poll_exit cq tcq (Post : state -> Prop) st :
  Post st ->
  twp (if bool_decide (cq = NULL) || bool_decide (tcq = cq)
       then return_ 1 else mret tt)
      (fun r st' => (cq = NULL \/ tcq = cq) /\ r = 1 /\ Post st')
      (fun _ st' => ~ (cq = NULL \/ tcq = cq) /\ Post st') st.
Proof.
  intros H. repeat case_bool_decide; simpl; unfold twp; simpl; tauto.
Qed.

(** One iteration on a multi-recv completion: the switch leaves the
    endpoint's receive CQ and counter in [tmp_cq], [tmp_cntr]. *)
Lemma twp_poll_one_multi cq s st ctx ep QR QN :
  sts_context s <> NULL -> ctxts st !! sts_context s = Some ctx ->
  ctxt_type ctx = PSMX_MULTI_RECV_CONTEXT ->
  ctxt_ep ctx <> NULL -> eps st !! ctxt_ep ctx = Some ep ->
  (let r := Routing (ctxt_ep ctx) (ep_recv_cq ep) (ep_recv_cntr ep) true in
   twp ((if bool_decide (tmp_cq r <> NULL) then
           create_and_enqueue E (tmp_cq r)
             (psmx_cq_create_event_from_status E (tmp_cq r) s 0)
         else mret tt);;
        (if bool_decide (tmp_cntr r <> NULL) then cntr_add (tmp_cntr r) 1
         else mret tt);;
        multi_recv_continuation E s r;;
        if bool_decide (cq = NULL) || bool_decide (tmp_cq r = cq)
        then return_ 1 else mret tt) QR QN st) ->
  twp (poll_one E cq s) QR QN st.
Proof.
  intros Hsn Hctx Hty Hen Hep H.
  unfold poll_one, route. tstep. tstep. tstep. rewrite Hty.
  tstep. tstep. tstep. exact H.
Qed.

(** A call of the driver whose first iteration returns, returns what
    that iteration returns. *)
Lemma poll_mq_first_completion cq st s rest r st' :
  mq_ready (psm_mq_of st) = MqDone s :: rest ->
  poll_one E cq s (set_mq (set_ready rest (psm_mq_of st)) st) = Return r st' ->
  psmx_cq_poll_mq E cq st = Some (r, st').
Proof.
  intros Hready Hone. unfold psmx_cq_poll_mq. rewrite Hready. simpl.
  by rewrite Hone.
Qed.

Lemma fill_event_from_status_is_Some format rec s a b d r :
  is_Some (entry_size_of (lay E) format) ->
  is_Some (fill_event_from_status E format rec s a b d r).
Proof.
  intros [n Hn]. unfold fill_event_from_status.
  destruct (ev_error _); [by eexists|].
  destruct format; try discriminate; by eexists.
Qed.

Lemma fill_event_is_Some format rec a b f l d t o e :
  is_Some (entry_size_of (lay E) format) ->
  is_Some (fill_event E format rec a b f l d t o e).
Proof.
  intros [n Hn]. unfold fill_event.
  destruct (ev_error _); [by eexists|].
  destruct format; try discriminate; by eexists.
Qed.

Lemma u64_idem x : Mem.u64 (Mem.u64 x) = Mem.u64 x.
Proof. unfold Mem.u64. by rewrite Z.mod_mod. Qed.

(** C2: a partial multi-recv completion after which another
    minimum-size chunk still fits makes the driver post a new receive at
    the advanced offset with the record's tag, mask and flags, and keep
    the tracking record with the advanced cursor.  When the endpoint has
    a receive CQ (of one of the four formats), the event of that
    completion is appended to it, where a reader sees it; for a
    successful completion its length field is the byte count of that
    completion.  No event is produced when the endpoint has no receive
    CQ. *)
Theorem multi_recv_partial_completion cq st s ctx ep req :
  multi_recv_completion st s ctx ep req ->
  mq_irecv_err (psm_mq_of st) = PSM_OK E ->
  Mem.u64 (consumed req s + req_min_buf_size req) <= req_len req ->
  (forall c,
      ep_recv_cq ep <> NULL -> cqs st !! ep_recv_cq ep = Some c ->
      is_Some (entry_size_of (lay E) (cq_format c)) ->
      exists ev st',
        fill_event_from_status E (cq_format c)
          (PSMX_FREE_LIST_GET E (cq_free_list c)).1 s (sts_context s)
          (Mem.u64 (req_buf req + req_offset req)) 0 true = Some ev /\
        poll_one E cq s st
          = (if bool_decide (cq = NULL \/ ep_recv_cq ep = cq)
             then Return 1 st' else Next tt st') /\
        mq_posted (psm_mq_of st')
          = mq_posted (psm_mq_of st) ++ [rearm_post req s] /\
        multi_recvs st' !! ctxt_user ctx
          = Some (set_offset (consumed req s) req) /\
        (exists c', cqs st' !! ep_recv_cq ep = Some c' /\
           cq_event_queue c' = cq_event_queue c ++ [ev]) /\
        (layout_ok (lay E) -> pool_ok (lay E) c -> sts_error_code s = 0 ->
         ev_error ev = false /\
         entry_len (lay E) (cq_format c) (ev_cqe ev)
           = if has_len (cq_format c) then Some (Mem.u64 (sts_nbytes s))
             else None)) /\
  (ep_recv_cq ep = NULL ->
      exists st',
        poll_one E cq s st
          = (if bool_decide (cq = NULL \/ ep_recv_cq ep = cq)
             then Return 1 st' else Next tt st') /\
        mq_posted (psm_mq_of st')
          = mq_posted (psm_mq_of st) ++ [rearm_post req s] /\
        multi_recvs st' !! ctxt_user ctx
          = Some (set_offset (consumed req s) req) /\
        cqs st' = cqs st).
Proof.
  intros (Hsn & Hctx & Hty & Hen & Hep & Hun & Hreq & Hcntr) Hok Hfit.
  split.
  - intros c Hcn Hc Hfmt.
    destruct (fill_event_from_status_is_Some (cq_format c)
                (PSMX_FREE_LIST_GET E (cq_free_list c)).1 s (sts_context s)
                (Mem.u64 (req_buf req + req_offset req)) 0 true Hfmt)
      as [ev Hfill].
    exists ev.
    cut (exists st',
      poll_one E cq s st
        = (if bool_decide (cq = NULL \/ ep_recv_cq ep = cq)
           then Return 1 st' else Next tt st') /\
      mq_posted (psm_mq_of st')
        = mq_posted (psm_mq_of st) ++ [rearm_post req s] /\
      multi_recvs st' !! ctxt_user ctx
        = Some (set_offset (consumed req s) req) /\
      exists c', cqs st' !! ep_recv_cq ep = Some c' /\
        cq_event_queue c' = cq_event_queue c ++ [ev]).
    { intros (st' & H1 & H2 & H3 & H4). exists st'.
      split; [done|]. split; [done|]. split; [done|]. split; [done|].
      split; [done|]. intros Hlay Hpool Herr.
      eapply fill_event_from_status_len; [done | | done | exact Hfill].
      by apply get_pool_ok. }
    apply twp_poll_result.
    eapply twp_poll_one_multi; [done..|]. simpl.
    tstep. rewrite bool_decide_true by done.
    eapply twp_status_event_multi; [done..|].
    tstep. apply twp_opt_cntr; [exact Hcntr|]. intros h.
    tstep. eapply twp_rearm; [done.. | by eexists | done | done |].
    simpl. apply twp_poll_exit.
    simpl. split; [done|]. split; [by rewrite lookup_insert_eq|].
    eexists. by rewrite lookup_insert_eq.
  - intros Hcn.
    apply twp_poll_result.
    eapply twp_poll_one_multi; [done..|]. simpl.
    tstep. rewrite bool_decide_false by (by intros []).
    tstep. tstep. apply twp_opt_cntr; [exact Hcntr|]. intros h.
    tstep. eapply twp_rearm; [done.. | by eexists | done | done |].
    simpl. apply twp_poll_exit.
    simpl. split; [done|]. split; [by rewrite lookup_insert_eq|]. done.
Qed.

(** C1: a multi-recv completion after which no further minimum-size
    chunk fits makes the driver release the tracking record and post no
    new receive.  When the endpoint has a receive CQ (of one of the four
    formats), two events are appended to it: the event of that
    completion, then one final event flagged FI_MULTI_RECV whose length
    field is the total length of the buffer and whose data field is the
    part of the buffer left unused (total length minus bytes consumed).
    No event is produced when the endpoint has no receive CQ. *)
Theorem multi_recv_final_completion cq st s ctx ep req :
  multi_recv_completion st s ctx ep req ->
  req_len req < Mem.u64 (consumed req s + req_min_buf_size req) ->
  (forall c,
      ep_recv_cq ep <> NULL -> cqs st !! ep_recv_cq ep = Some c ->
      is_Some (entry_size_of (lay E) (cq_format c)) ->
      exists ev fin st',
        fill_event_from_status E (cq_format c)
          (PSMX_FREE_LIST_GET E (cq_free_list c)).1 s (sts_context s)
          (Mem.u64 (req_buf req + req_offset req)) 0 true = Some ev /\
        poll_one E cq s st
          = (if bool_decide (cq = NULL \/ ep_recv_cq ep = cq)
             then Return 1 st' else Next tt st') /\
        mq_posted (psm_mq_of st') = mq_posted (psm_mq_of st) /\
        multi_recvs st' !! ctxt_user ctx = None /\
        (exists c', cqs st' !! ep_recv_cq ep = Some c' /\
           cq_event_queue c' = cq_event_queue c ++ [ev; fin]) /\
        (layout_ok (lay E) -> pool_ok (lay E) c ->
         ev_error fin = false /\
         entry_flags (lay E) (cq_format c) (ev_cqe fin)
           = (if has_len (cq_format c) then Some (Mem.u64 (FI_MULTI_RECV E))
              else None) /\
         entry_len (lay E) (cq_format c) (ev_cqe fin)
           = (if has_len (cq_format c) then Some (Mem.u64 (req_len req))
              else None) /\
         entry_data (lay E) (cq_format c) (ev_cqe fin)
           = (if has_data (cq_format c)
              then Some (Mem.u64 (req_len req - consumed req s)) else None))) /\
  (ep_recv_cq ep = NULL ->
      exists st',
        poll_one E cq s st
          = (if bool_decide (cq = NULL \/ ep_recv_cq ep = cq)
             then Return 1 st' else Next tt st') /\
        mq_posted (psm_mq_of st') = mq_posted (psm_mq_of st) /\
        multi_recvs st' !! ctxt_user ctx = None /\
        cqs st' = cqs st).
Proof.
  intros (Hsn & Hctx & Hty & Hen & Hep & Hun & Hreq & Hcntr) Hfit.
  split.
  - intros c Hcn Hc Hfmt.
    destruct (fill_event_from_status_is_Some (cq_format c)
                (PSMX_FREE_LIST_GET E (cq_free_list c)).1 s (sts_context s)
                (Mem.u64 (req_buf req + req_offset req)) 0 true Hfmt)
      as [ev Hfill].
    set (fl := (PSMX_FREE_LIST_GET E (cq_free_list c)).2).
    destruct (fill_event_is_Some (cq_format c)
                (PSMX_FREE_LIST_GET E fl).1
                (req_context req) (req_buf req) (FI_MULTI_RECV E) (req_len req)
                (Mem.u64 (req_len req - consumed req s)) 0 0 0 Hfmt)
      as [fin Hfin].
    exists ev, fin.
    cut (exists st',
      poll_one E cq s st
        = (if bool_decide (cq = NULL \/ ep_recv_cq ep = cq)
           then Return 1 st' else Next tt st') /\
      mq_posted (psm_mq_of st') = mq_posted (psm_mq_of st) /\
      multi_recvs st' !! ctxt_user ctx = None /\
      exists c', cqs st' !! ep_recv_cq ep = Some c' /\
        cq_event_queue c' = cq_event_queue c ++ [ev; fin]).
    { intros (st' & H1 & H2 & H3 & H4). exists st'.
      split; [done|]. split; [done|]. split; [done|]. split; [done|].
      split; [done|]. intros Hlay Hpool.
      destruct (get_pool_ok E c Hpool) as [_ Hfl].
      pose proof (get_pool_ok E (set_free_list fl c) Hfl) as [Hrec _].
      simpl in Hrec.
      destruct (fill_event_fields E _ _ _ _ _ _ _ _ _ _ Hlay Hrec Hfin)
        as (F1 & F2 & F3 & F4).
      rewrite u64_idem in F4. done. }
    apply twp_poll_result.
    eapply twp_poll_one_multi; [done..|]. simpl.
    tstep. rewrite bool_decide_true by done.
    eapply twp_status_event_multi; [done..|].
    tstep. apply twp_opt_cntr; [exact Hcntr|]. intros h.
    tstep.
    eapply (twp_finalize E s _ _ ctx req _ fin); [done..| | |].
    + simpl. by rewrite lookup_insert_eq.
    + simpl. exact Hfin.
    + simpl. apply twp_poll_exit.
      simpl. split; [done|]. split; [by rewrite lookup_delete_eq|].
      eexists. rewrite lookup_insert_eq. split; [done|]. simpl.
      by rewrite <- app_assoc.
  - intros Hcn.
    apply twp_poll_result.
    eapply twp_poll_one_multi; [done..|]. simpl.
    tstep. rewrite bool_decide_false by (by intros []).
    tstep. tstep. apply twp_opt_cntr; [exact Hcntr|]. intros h.
    tstep. eapply twp_finalize_no_cq; [done..|].
    simpl. apply twp_poll_exit.
    simpl. split; [done|]. split; [by rewrite lookup_delete_eq|]. done.
Qed.

End MultiRecvTheorems.

(** ** The codes the progress driver returns *)

Lemma enqueued_then_grow cq a b c :
  enqueued_on cq a b -> cqs_grow b c -> enqueued_on cq a c.
Proof.
  intros H G x Hx. destruct (H x Hx) as (y & ev & evs & Hy & Hq).
  destruct (G cq y Hy) as (z & Hz & _ & _ & _ & evs' & Hq').
  exists z, ev, (evs ++ evs'). split; [done|].
  by rewrite Hq', Hq, <- app_assoc.
Qed.

Lemma grow_then_enqueued cq a b c :
  cqs_grow a b -> enqueued_on cq b c -> enqueued_on cq a c.
Proof.
  intros G H x Hx. destruct (G cq x Hx) as (y & Hy & _ & _ & _ & evs' & Hq').
  destruct (H y Hy) as (z & ev & evs & Hz & Hq).
  destruct evs' as [|e' evs'].
  - exists z, ev, evs. split; [done|]. by rewrite Hq, Hq', app_nil_r.
  - exists z, e', (evs' ++ ev :: evs). split; [done|].
    by rewrite Hq, Hq', <- app_assoc.
Qed.

Lemma poll_frame_update st st' p c c' :
  cqs st !! p = Some c -> cq_grows c c' ->
  cqs st' = <[p := c']> (cqs st) ->
  mq_ready (psm_mq_of st') = mq_ready (psm_mq_of st) ->
  poll_frame st st'.
Proof.
  intros Hc G Hs Hm. split; [|done]. intros q x Hx. rewrite Hs.
  destruct (decide (p = q)) as [->|Hne].
  - rewrite lookup_insert_eq. exists c'. split; [done|]. congruence.
  - rewrite lookup_insert_ne by done. exists x. split; [done | apply cq_grows_refl].
Qed.

(** Statement sequences that only read: they leave the state as it is
    and execute no [return]. *)
Lemma pure_ret {A} (a : A) : preserves eq (fun _ => False) (mret a).
Proof. by intros st. Qed.

Lemma pure_load {T} (heap : state -> gmap Z T) p :
  preserves eq (fun _ => False) (load heap p).
Proof. intros st. by apply wp_load. Qed.

Lemma pure_bind {A B} (m : prog A) (f : A -> prog B) :
  preserves eq (fun _ => False) m ->
  (forall a, preserves eq (fun _ => False) (f a)) ->
  preserves eq (fun _ => False) (m ≫= f).
Proof.
  intros Hm Hf st. apply wp_bind.
  eapply wp_mono; [apply Hm | |]; simpl; [done|].
  intros a st' <-. apply Hf.
Qed.

Ltac pure_prog :=
  repeat match goal with
    | |- preserves eq _ (mret _) => apply pure_ret
    | |- preserves eq _ (load _ _) => apply pure_load
    | |- preserves eq _ (_ ≫= _) => apply pure_bind; [| intros ?]
    | |- preserves eq _ (match ?x with _ => _ end) => destruct x
    end.

Lemma wp_pure {A} (m : prog A) QR (QN : A -> state -> Prop) st :
  preserves eq (fun _ => False) m -> (forall a, QN a st) -> wp m QR QN st.
Proof.
  intros Hm H. specialize (Hm st). unfold wp in *.
  destruct (m st) as [|r st'|a st']; [done|by destruct Hm|]. by subst.
Qed.

Section ReturnCodes.

Variable E : env.
Hypothesis ENOMEM_pos : 0 < ENOMEM E.
Hypothesis errno_neg : psmx_errno_negative E.

(** Building an event from a status and enqueueing it either returns
    -ENOMEM or appends one event to the CQ. *)
Lemma wp_status_event q s d st :
  wp (create_and_enqueue E q (psmx_cq_create_event_from_status E q s d))
     (fun r st' => r < 0 /\ poll_frame st st')
     (fun _ st' => poll_frame st st' /\ enqueued_on q st st') st.
Proof.
  unfold create_and_enqueue, psmx_cq_create_event_from_status.
  apply wp_bind, wp_bind, wp_load. intros c Hn Hc.
  destruct (PSMX_FREE_LIST_GET E (cq_free_list c)) as [rec fl].
  apply wp_bind, wp_modify.
  apply wp_pure; [pure_prog|].
  intros [ev|].
  - unfold enqueue_on. apply wp_bind, wp_load. intros c1 _ Hc1.
    simpl in Hc1. rewrite lookup_insert_eq in Hc1. injection Hc1 as <-.
    apply wp_modify. split.
    + eapply (poll_frame_update _ _ q c); [done | | simpl; apply insert_insert_eq | done].
      repeat split. by exists [ev].
    + intros c0 Hc0. rewrite Hc in Hc0. injection Hc0 as <-.
      eexists _, ev, []. simpl. by rewrite lookup_insert_eq.
  - apply wp_return. split; [lia|].
    eapply poll_frame_insert; [done | apply cq_grows_free_list].
Qed.

Ltac wstep :=
  lazymatch goal with
  | |- wp (_ ≫= _) _ _ _ => apply wp_bind
  | |- wp (mret _) _ _ _ => apply wp_ret
  | |- wp (return_ _) _ _ _ => apply wp_return
  | |- wp (load _ _) _ _ _ => apply wp_load; intros ? ? ?
  | |- wp (modify _) _ _ _ => apply wp_modify
  | |- wp (store_ep _ _) _ _ _ => apply wp_modify
  | |- wp (free_ctxt _) _ _ _ => apply wp_modify
  end.

(** The end of a one-sided case: the counter, then return or continue. *)
Lemma wp_remote_rest cq (mr : psmx_fid_mr) st st1 :
  poll_frame st st1 ->
  (cq <> NULL -> mr_cq mr = cq -> enqueued_on cq st st1) ->
  wp ((if bool_decide (mr_cntr mr <> NULL)
       then load cntrs (mr_cntr mr);; cntr_add NULL 1 else mret tt);;
      (if bool_decide (cq = NULL) || bool_decide (mr_cq mr = cq)
       then return_ 1 else mret None))
     (iteration_returns cq st)
     (fun (_ : option routing) st' => poll_frame st st' /\ cq <> NULL) st1.
Proof.
  intros F1 Henq. apply wp_bind.
  eapply wp_mono;
    [apply (wp_pf (fun _ => False) _ st1 st1); [pf | apply poll_frame_refl] | |];
    simpl.
  { by intros ? ? [[] _]. }
  intros _ st2 F12.
  assert (poll_frame st st2) as F2 by by eapply poll_frame_trans.
  destruct (bool_decide (cq = NULL) || bool_decide (mr_cq mr = cq)) eqn:Hb.
  - apply wp_return. split; [by left|]. split; [done|].
    intros _ Hcq. apply orb_true_iff in Hb as [Hb|Hb].
    + by apply bool_decide_eq_true in Hb.
    + apply bool_decide_eq_true in Hb.
      eapply enqueued_then_grow; [by apply Henq | apply F12].
  - apply wp_ret. split; [done|].
    apply orb_false_iff in Hb as [Hb _].
    by apply bool_decide_eq_false in Hb.
Qed.

Lemma wp_remote_completion cq s ctx w st :
  wp (remote_completion E cq s ctx NULL w)
     (iteration_returns cq st)
     (fun _ st' => poll_frame st st' /\ cq <> NULL) st.
Proof.
  unfold remote_completion.
  apply wp_bind, wp_load. intros mr _ Hmr.
  apply wp_bind.
  destruct (decide (mr_cq mr = NULL)) as [Hq|Hq].
  { rewrite (bool_decide_false (mr_cq mr <> NULL)) by (by intros []).
    apply wp_ret. apply wp_remote_rest; [apply poll_frame_refl|].
    intros Hcq Heq. congruence. }
  rewrite (bool_decide_true (mr_cq mr <> NULL)) by done.
  apply wp_bind.
  destruct w; [apply wp_load; intros data _ _ | apply wp_ret];
    (eapply wp_mono; [apply wp_status_event | |]; simpl;
     [ intros r st1 [Hr F1]; split; [by right|]; split; [done|]; lia
     | intros _ st1 [F1 Henq]; apply wp_remote_rest; [done|]; by intros _ <- ]).
Qed.

Lemma wp_route cq s st :
  wp (route E cq s)
     (iteration_returns cq st)
     (fun r st' => poll_frame st st' /\ (r = None -> cq <> NULL)) st.
Proof.
  unfold route. apply wp_bind, wp_load. intros ctx _ Hctx.
  destruct (ctxt_type ctx);
    try (eapply wp_mono; [apply wp_remote_completion | done |];
         simpl; by intros ? ? [? ?]);
    repeat wstep; (split; [by apply poll_frame_same | done]).
Qed.

(** The statements of an iteration after the event of the completion:
    the counter, the multi-recv continuation, and the exit test. *)
Lemma wp_poll_rest cq s r st st1 :
  poll_frame st st1 ->
  (cq <> NULL -> tmp_cq r = cq -> enqueued_on cq st st1) ->
  wp ((if bool_decide (tmp_cntr r <> NULL) then cntr_add (tmp_cntr r) 1
       else mret tt);;
      (if multi_recv r then multi_recv_continuation E s r else mret tt);;
      if bool_decide (cq = NULL) || bool_decide (tmp_cq r = cq)
      then return_ 1 else mret tt)
     (iteration_returns cq st)
     (fun _ st' => poll_frame st st' /\ cq <> NULL) st1.
Proof.
  intros F1 Henq. apply wp_bind.
  eapply wp_mono;
    [apply (wp_pf (fun _ => False) _ st1 st1); [pf | apply poll_frame_refl] | |];
    simpl.
  { by intros ? ? [[] _]. }
  intros _ st2 F12. apply wp_bind.
  eapply wp_mono;
    [apply (wp_pf (fun r => r < 0) _ st2 st2); [| apply poll_frame_refl] | |];
    simpl.
  { destruct (multi_recv r); [|pf].
    apply pf_multi_recv_continuation; [lia | apply errno_neg]. }
  { intros r0 st3 [Hr F23]. split; [by right|]. split; [|lia].
    eapply poll_frame_trans; [exact F1|]. by eapply poll_frame_trans. }
  intros _ st3 F23.
  assert (poll_frame st st3) as F3.
  { eapply poll_frame_trans; [exact F1|]. by eapply poll_frame_trans. }
  destruct (bool_decide (cq = NULL) || bool_decide (tmp_cq r = cq)) eqn:Hb.
  - apply wp_return. split; [by left|]. split; [done|].
    intros _ Hcq. apply orb_true_iff in Hb as [Hb|Hb].
    + by apply bool_decide_eq_true in Hb.
    + apply bool_decide_eq_true in Hb.
      eapply enqueued_then_grow; [by apply Henq|].
      eapply cqs_grow_trans; [apply F12 | apply F23].
  - apply wp_ret. split; [done|].
    apply orb_false_iff in Hb as [Hb _].
    by apply bool_decide_eq_false in Hb.
Qed.

Lemma wp_poll_one cq s st :
  wp (poll_one E cq s)
     (iteration_returns cq st)
     (fun _ st' => poll_frame st st' /\ cq <> NULL) st.
Proof.
  unfold poll_one. apply wp_bind.
  eapply wp_mono; [apply wp_route | done |]; simpl.
  intros [r|] st1 [F1 Hnone]; [|apply wp_ret; by split; [|apply Hnone]].
  apply wp_bind.
  destruct (decide (tmp_cq r = NULL)) as [Hq|Hq].
  { rewrite (bool_decide_false (tmp_cq r <> NULL)) by (by intros []).
    apply wp_ret. apply wp_poll_rest; [done|]. intros Hcq Heq. congruence. }
  rewrite (bool_decide_true (tmp_cq r <> NULL)) by done.
  eapply wp_mono; [apply wp_status_event | |]; simpl.
  - intros r0 st2 [Hr F12]. split; [by right|]. split; [|lia].
    by eapply poll_frame_trans.
  - intros _ st2 [F12 Henq]. apply wp_poll_rest.
    + by eapply poll_frame_trans.
    + intros _ <-. eapply grow_then_enqueued; [apply F1 | exact Henq].
Qed.

Lemma never_next_return {A} r : never_next (return_ r : prog A).
Proof. by intros st. Qed.

Lemma never_next_seq {A B} (m : prog A) (k : prog B) :
  never_next k -> never_next (m ≫= fun _ => k).
Proof.
  intros Hk st. apply wp_bind. unfold wp at 1.
  destruct (m st) as [|r st'|a st']; [done..|]. apply Hk.
Qed.

Lemma wp_never_next {A} (m : prog A) (QN : A -> state -> Prop) st :
  never_next m -> wp m (fun _ _ => True) QN st.
Proof. intros H. eapply wp_mono; [apply H | done | done]. Qed.

(** An iteration that goes on to the next one has left the CQ of
    interest as it was: the events it produced went to other CQs. *)
Lemma wp_remote_untouched cq s ctx w st :
  wp (remote_completion E cq s ctx NULL w)
     (fun _ _ => True) (fun _ st' => untouched cq st st') st.
Proof.
  unfold remote_completion. apply wp_bind, wp_load. intros mr _ Hmr.
  destruct (bool_decide (cq = NULL) || bool_decide (mr_cq mr = cq)) eqn:Hb.
  - apply wp_never_next. repeat apply never_next_seq. apply never_next_return.
  - apply orb_false_iff in Hb as [_ Hb]. apply bool_decide_eq_false in Hb.
    eapply wp_mono;
      [apply (fr_wp (R := untouched cq) (fun _ => True) _ st st);
       [| exact (frame_refl st)] | done | done].
    repeat frame_prim; by apply fr_status_event.
Qed.

Lemma wp_route_untouched cq s st :
  wp (route E cq s) (fun _ _ => True) (fun _ st' => untouched cq st st') st.
Proof.
  unfold route. apply wp_bind, wp_load. intros ctx _ Hctx.
  destruct (ctxt_type ctx); try apply wp_remote_untouched;
    (eapply wp_mono;
       [apply (fr_wp (R := untouched cq) (fun _ => True) _ st st);
        [repeat frame_prim | exact (frame_refl st)] | done | done]).
Qed.

Lemma wp_poll_one_untouched cq s st :
  wp (poll_one E cq s) (fun _ _ => True) (fun _ st' => untouched cq st st') st.
Proof.
  unfold poll_one. apply wp_bind.
  eapply wp_mono; [apply wp_route_untouched | done |]; simpl.
  intros [r|] st1 U1; [|by apply wp_ret].
  destruct (bool_decide (cq = NULL) || bool_decide (tmp_cq r = cq)) eqn:Hb.
  - apply wp_never_next. repeat apply never_next_seq. apply never_next_return.
  - apply orb_false_iff in Hb as [_ Hb]. apply bool_decide_eq_false in Hb.
    eapply wp_mono;
      [apply (fr_wp (R := untouched cq) (fun _ => True) _ st st1);
       [| exact U1] | done | done].
    repeat frame_prim;
      first [ by apply fr_status_event
            | apply fr_multi_recv_continuation; done ].
Qed.

Lemma poll_loop_returns cq ready : forall st,
  match poll_loop E cq ready st with
  | Fault => True
  | Return r st' => call_returns E cq ready st r st'
  | Next _ _ => False
  end.
Proof.
  induction ready as [|item rest IH]; intros st; simpl.
  - split; [by left|]. split; [apply cqs_grow_refl|].
    split; [|split; [done|split; [done|split; [lia | by intros _ s rest]]]].
    intros _. exists [], []. split; [done|]. split; [by left | done].
  - set (st0 := set_mq (set_ready rest (psm_mq_of st)) st).
    assert (cqs_grow st st0) as G0 by by apply cqs_grow_same.
    destruct item as [s|err].
    + pose proof (wp_poll_one cq s st0) as H.
      pose proof (wp_poll_one_untouched cq s st0) as HU. unfold wp in H, HU.
      destruct (poll_one E cq s st0) as [|r st'|[] st']; [done| |].
      * destruct H as (Hr & [G M] & Henq).
        split; [tauto|]. split; [eapply cqs_grow_trans; [exact G0 | exact G]|].
        split; [lia|]. split; [lia|]. split; [lia|]. split.
        { intros H1 Hcq. eapply grow_then_enqueued; [exact G0 | by apply Henq]. }
        intros _ s' rest' [= <- <-]. split; [lia | exact M].
      * destruct H as [[G M] Hcq]. specialize (IH st').
        destruct (poll_loop E cq rest st') as [|r st''|]; [done| |done].
        destruct IH as (Hr & G' & H0 & HU' & HN0 & H1 & HN).
        split; [done|]. split.
        { eapply cqs_grow_trans; [exact G0|].
          eapply cqs_grow_trans; [exact G | exact G']. }
        split; [|split; [|split; [done|split; [|done]]]].
        { intros Hz. destruct (H0 Hz) as (pre & post & -> & Hpost & _).
          exists (MqDone s :: pre), post. done. }
        { intros Hz. rewrite (HU' Hz). exact HU. }
        intros H1' _. eapply grow_then_enqueued; [exact G0|].
        eapply grow_then_enqueued; [exact G | by apply H1].
    + case_bool_decide as Hok; [done|].
      case_bool_decide as Hnc.
      * split; [by left|]. split; [done|].
        split; [|split; [done|split; [done|split; [lia | by intros _ s rest']]]].
        intros _. exists [], (MqFail err :: rest). split; [done|].
        split; [right; subst; by eexists | done].
      * pose proof (errno_neg err Hok).
        split; [by right; right|]. split; [done|].
        split; [lia|]. split; [lia|]. split; [lia|].
        split; [lia | by intros _ s rest'].
Qed.

(** A call that returns 0 drained a run of completions, none of whose
    iterations returned, and then found nothing ready. *)
Lemma poll_loop_zero cq ready : forall st st',
  poll_loop E cq ready st = Return 0 st' ->
  exists pre post st1,
    ready = pre ++ post /\ nothing_ready E post /\
    drained_past E cq pre post st st1 /\ st' = after_report post st1 /\
    (pre <> [] -> cq <> NULL).
Proof.
  induction ready as [|item rest IH]; intros st st' H; simpl in H.
  - injection H as <-. exists [], [], st.
    split; [done|]. split; [by left|]. done.
  - destruct item as [s|err].
    + pose proof (wp_poll_one cq s
                    (set_mq (set_ready rest (psm_mq_of st)) st)) as Hw.
      unfold wp in Hw.
      destruct (poll_one E cq s _) as [|r st1|[] st1] eqn:Hp; [done| |].
      * injection H as -> <-. destruct Hw as ([?|?] & _); lia.
      * destruct Hw as [_ Hcq].
        destruct (IH st1 st' H) as (pre & post & st2 & -> & Hpost & Hd & -> & _).
        exists (MqDone s :: pre), post, st2.
        split; [done|]. split; [done|]. split; [|done].
        simpl. by exists st1.
    + case_bool_decide as Hok; [done|]. case_bool_decide as Hnc.
      * injection H as <-. exists [], (MqFail err :: rest), st. subst err.
        split; [done|]. split; [right; by eexists|]. done.
      * injection H as H0 _. pose proof (errno_neg err Hok). lia.
Qed.

Lemma poll_loop_drained cq pre post : forall st st1,
  PSM_OK E <> PSM_MQ_NO_COMPLETIONS E -> nothing_ready E post ->
  drained_past E cq pre post st st1 ->
  poll_loop E cq (pre ++ post) st = Return 0 (after_report post st1).
Proof.
  induction pre as [|item pre IH]; intros st st1 Hne Hpost Hd; simpl in *.
  - subst st1. destruct Hpost as [->|[rest ->]]; [done|]. simpl.
    rewrite bool_decide_false by done. by rewrite bool_decide_true.
  - destruct item as [s|err]; [|done]. destruct Hd as (st2 & Hp & Hd).
    rewrite Hp. by apply IH.
Qed.


End ReturnCodes.

(** ** One-sided completions and the memory region's counter *)

Section RemoteFacts.

Variable E : env.

Lemma cntr_add_null v st : cntr_add NULL v st = Fault.
Proof. done. Qed.

(** Building and enqueueing an event returns nothing but -ENOMEM. *)
Lemma wp_status_event_returns q s d st :
  wp (create_and_enqueue E q (psmx_cq_create_event_from_status E q s d))
     (fun r _ => r = - ENOMEM E) (fun _ _ => True) st.
Proof.
  unfold create_and_enqueue, psmx_cq_create_event_from_status.
  apply wp_bind, wp_bind, wp_load. intros c Hn Hc.
  destruct (PSMX_FREE_LIST_GET E (cq_free_list c)) as [rec fl].
  apply wp_bind, wp_modify.
  apply wp_pure; [pure_prog|].
  intros [ev|]; [|by apply wp_return].
  unfold enqueue_on. apply wp_bind, wp_load. intros c1 _ Hc1. by apply wp_modify.
Qed.

(** A one-sided completion on a memory region with a bound counter
    never gets past the counter update: the update is applied to the
    null [tmp_cntr]. *)
Lemma wp_remote_completion_cntr cq s ctx w st mr :
  ctxt_user ctx <> NULL -> mrs st !! ctxt_user ctx = Some mr ->
  mr_cntr mr <> NULL ->
  wp (remote_completion E cq s ctx NULL w)
     (fun r _ => r = - ENOMEM E /\ mr_cq mr <> NULL) (fun _ _ => False) st.
Proof.
  intros Hu Hmr Hc. unfold remote_completion.
  apply wp_bind, wp_load. intros mr' _ Hmr'.
  rewrite Hmr in Hmr'. injection Hmr' as <-.
  assert (forall st1,
            wp ((if bool_decide (mr_cntr mr <> NULL)
                 then load cntrs (mr_cntr mr);; cntr_add NULL 1 else mret tt);;
                (if bool_decide (cq = NULL) || bool_decide (mr_cq mr = cq)
                 then return_ 1 else mret None))
               (fun r _ => r = - ENOMEM E /\ mr_cq mr <> NULL)
               (fun (_ : option routing) _ => False) st1) as Hrest.
  { intros st1. rewrite (bool_decide_true (mr_cntr mr <> NULL)) by done.
    apply wp_bind, wp_bind, wp_load. intros v _ _.
    exact I. }
  apply wp_bind.
  destruct (decide (mr_cq mr = NULL)) as [Hq|Hq].
  { rewrite (bool_decide_false (mr_cq mr <> NULL)) by (by intros []).
    apply wp_ret, Hrest. }
  rewrite (bool_decide_true (mr_cq mr <> NULL)) by done.
  apply wp_bind.
  destruct w; [apply wp_load; intros data _ _ | apply wp_ret];
    (eapply wp_mono; [apply wp_status_event_returns | |]; simpl;
     [ by intros r st1 -> | intros _ st1 _; apply Hrest ]).
Qed.

(** C4 (what the code does): when the MQ hands out a remote-write or
    remote-read completion whose memory region has a counter bound, the
    call dereferences the null [tmp_cntr] instead of incrementing the
    region's counter: it faults, unless the region's CQ had an
    unsupported format and the call already returned -ENOMEM. *)
Theorem remote_completion_counter_not_incremented cq st s rest ctx mr :
  mq_ready (psm_mq_of st) = MqDone s :: rest ->
  sts_context s <> NULL -> ctxts st !! sts_context s = Some ctx ->
  ctxt_type ctx = PSMX_REMOTE_WRITE_CONTEXT \/
    ctxt_type ctx = PSMX_REMOTE_READ_CONTEXT ->
  ctxt_user ctx <> NULL -> mrs st !! ctxt_user ctx = Some mr ->
  mr_cntr mr <> NULL ->
  psmx_cq_poll_mq E cq st = None \/
  (mr_cq mr <> NULL /\
   exists st', psmx_cq_poll_mq E cq st = Some (- ENOMEM E, st')).
Proof.
  intros Hready Hsn Hctx Hty Hun Hmr Hcn.
  unfold psmx_cq_poll_mq. rewrite Hready. simpl.
  set (st0 := set_mq _ st).
  assert (wp (poll_one E cq s)
             (fun r _ => r = - ENOMEM E /\ mr_cq mr <> NULL)
             (fun _ _ => False) st0) as H.
  { unfold poll_one, route. apply wp_bind, wp_bind, wp_load.
    intros ctx' _ Hctx'. simpl in Hctx'. rewrite Hctx in Hctx'.
    injection Hctx' as <-.
    destruct Hty as [-> | ->];
      (eapply wp_mono;
       [by apply (wp_remote_completion_cntr cq s ctx _ st0 mr) | done | done]). }
  unfold wp in H.
  destruct (poll_one E cq s st0) as [|r st'|[] st']; [by left| |done].
  destruct H as [-> H]. right. split; [done|]. by exists st'.
Qed.

End RemoteFacts.

(** ** Control *)

(** C9 (what the code does): on a CQ that has a wait descriptor the
    FI_GETWAIT command returns 0 and stores nothing through [arg],
    because the descriptor is only looked at when [cq->wait] is null; any
    other command returns -ENOSYS. *)
Theorem control_getwait_stores_nothing E c w :
  cq_wait c = Some w ->
  psmx_cq_control E c (FI_GETWAIT E) = Some (0, None) /\
  forall command, command <> FI_GETWAIT E ->
    psmx_cq_control E c command = Some (- ENOSYS E, None).
Proof.
  intros Hw. unfold psmx_cq_control. split.
  - rewrite bool_decide_true by done. rewrite Hw. by rewrite bool_decide_false.
  - intros command Hne. by rewrite bool_decide_false.
Qed.

(** ** The statements on the sample states *)

Lemma sample_am_progress_appends : am_progress_appends sample_env.
Proof. intros st. apply cqs_grow_refl. Qed.

Lemma sample_am_progress_keeps_mq : am_progress_keeps_mq sample_env.
Proof. by intros st. Qed.

Lemma sample_errno_negative : psmx_errno_negative sample_env.
Proof.
  intros err Hne. simpl in *. destruct (err =? 0) eqn:He; [|lia].
  apply Z.eqb_eq in He. done.
Qed.

Lemma lp64_layout_ok : layout_ok lp64_layout.
Proof. unfold layout_ok, apart. simpl. lia. Qed.

Example first_poll :
  psmx_cq_poll_mq sample_env 100 multi_recv_state = Some (1, multi_recv_state1).
Proof. by vm_compute. Qed.

Example second_poll :
  psmx_cq_poll_mq sample_env 100 multi_recv_state1 = Some (1, multi_recv_state2).
Proof. by vm_compute. Qed.

(** C2 as stated fails: after a partial completion (30 of 100 bytes, 40
    still fit) the receive is re-armed, and the receive CQ holds an
    event for that completion, which a read hands to the consumer with
    length 30. *)
Lemma multi_recv_partial_counterexample :
  psmx_cq_poll_mq sample_env 100 multi_recv_state = Some (1, multi_recv_state1) /\
  consumed sample_req first_status + req_min_buf_size sample_req
    <= req_len sample_req /\
  mq_posted (psm_mq_of multi_recv_state1) = [Post 7 (-1) 0 4126 70 500] /\
  (length ∘ cq_event_queue) <$> cqs multi_recv_state1 !! 100 = Some 1%nat /\
  (fun r => (rd_ret r,
             entry_len lp64_layout FI_CQ_FORMAT_TAGGED <$> rd_buf r))
    <$> psmx_cq_read sample_env 100 (Some (replicate 48 0)) 48 multi_recv_state1
  = Some (48, Some (Some 30)).
Proof. repeat split; by vm_compute. Qed.

(** C1 as stated fails: the completion that exhausts the buffer (80 of
    100 bytes consumed, 40 no longer fit) appends two events, and the
    final one carries the length 100 of the whole buffer, not the 80
    bytes consumed; the three events a reader sees have lengths 30, 50
    and 100. *)
Lemma multi_recv_final_counterexample :
  psmx_cq_poll_mq sample_env 100 multi_recv_state1 = Some (1, multi_recv_state2) /\
  (fun req => consumed req second_status) <$> multi_recvs multi_recv_state1 !! 600
    = Some 80 /\
  req_len sample_req < 80 + req_min_buf_size sample_req /\
  multi_recvs multi_recv_state2 !! 600 = None /\
  (fun c => (fun e => (entry_flags lp64_layout FI_CQ_FORMAT_TAGGED (ev_cqe e),
                       entry_len lp64_layout FI_CQ_FORMAT_TAGGED (ev_cqe e)))
              <$> cq_event_queue c)
    <$> cqs multi_recv_state2 !! 100
  = Some [(Some 0, Some 30); (Some 0, Some 50); (Some (2 ^ 16), Some 100)].
Proof. repeat split; by vm_compute. Qed.


(** C6 as stated fails: with an error pending, a read with capacity 0
    returns -FI_EAVAIL, not -FI_ETOOSMALL. *)
Lemma read_too_small_counterexample :
  0 < 48 /\
  (cq_entry_size <$> cqs pending_state !! 100) = Some 48 /\
  rd_ret <$> psmx_cq_read sample_env 100 (Some []) 0 pending_state
    = Some (- FI_EAVAIL sample_env) /\
  - FI_EAVAIL sample_env <> - FI_ETOOSMALL sample_env.
Proof. repeat split; by vm_compute. Qed.

Lemma multi_recv_sample_completion :
  multi_recv_completion multi_recv_state first_status sample_ctxt sample_ep sample_req.
Proof. repeat split; try done. by left. Qed.

Lemma multi_recv_partial_completion_witness :
  exists ev st',
    fill_event_from_status sample_env FI_CQ_FORMAT_TAGGED
      (PSMX_FREE_LIST_GET sample_env []).1 first_status 500
      (Mem.u64 (4096 + 0)) 0 true = Some ev /\
    poll_one sample_env 100 first_status multi_recv_state
      = (if bool_decide (100 = NULL \/ 100 = 100)
         then Return 1 st' else Next tt st') /\
    mq_posted (psm_mq_of st')
      = mq_posted (psm_mq_of multi_recv_state)
        ++ [rearm_post sample_req first_status] /\
    multi_recvs st' !! 600
      = Some (set_offset (consumed sample_req first_status) sample_req) /\
    (exists c', cqs st' !! 100 = Some c' /\
       cq_event_queue c' = cq_event_queue sample_cq ++ [ev]) /\
    (layout_ok lp64_layout -> pool_ok lp64_layout sample_cq ->
     sts_error_code first_status = 0 ->
     ev_error ev = false /\
     entry_len lp64_layout FI_CQ_FORMAT_TAGGED (ev_cqe ev)
       = Some (Mem.u64 (sts_nbytes first_status))).
Proof.
  assert (mq_irecv_err (psm_mq_of multi_recv_state) = PSM_OK sample_env) as Hok
    by reflexivity.
  assert (Mem.u64 (consumed sample_req first_status + req_min_buf_size sample_req)
          <= req_len sample_req) as Hfit by by vm_compute.
  assert (100 <> NULL) as Hn by done.
  assert (cqs multi_recv_state !! 100 = Some sample_cq) as Hc by reflexivity.
  assert (is_Some (entry_size_of lp64_layout FI_CQ_FORMAT_TAGGED)) as Hf
    by by eexists.
  exact (proj1 (multi_recv_partial_completion sample_env 100 multi_recv_state
                  first_status sample_ctxt sample_ep sample_req
                  multi_recv_sample_completion Hok Hfit)
               sample_cq Hn Hc Hf).
Defined.

Lemma multi_recv_final_sample_completion :
  multi_recv_completion multi_recv_final_state second_status sample_ctxt
    sample_ep final_req.
Proof. repeat split; try done. by left. Qed.

Lemma multi_recv_final_completion_witness :
  exists ev fin st',
    fill_event_from_status sample_env FI_CQ_FORMAT_TAGGED
      (PSMX_FREE_LIST_GET sample_env []).1 second_status 500
      (Mem.u64 (4096 + 30)) 0 true = Some ev /\
    poll_one sample_env 100 second_status multi_recv_final_state
      = (if bool_decide (100 = NULL \/ 100 = 100)
         then Return 1 st' else Next tt st') /\
    mq_posted (psm_mq_of st') = mq_posted (psm_mq_of multi_recv_final_state) /\
    multi_recvs st' !! 600 = None /\
    (exists c', cqs st' !! 100 = Some c' /\
       cq_event_queue c' = cq_event_queue sample_cq ++ [ev; fin]) /\
    (layout_ok lp64_layout -> pool_ok lp64_layout sample_cq ->
     ev_error fin = false /\
     entry_flags lp64_layout FI_CQ_FORMAT_TAGGED (ev_cqe fin)
       = Some (Mem.u64 (FI_MULTI_RECV sample_env)) /\
     entry_len lp64_layout FI_CQ_FORMAT_TAGGED (ev_cqe fin)
       = Some (Mem.u64 (req_len final_req)) /\
     entry_data lp64_layout FI_CQ_FORMAT_TAGGED (ev_cqe fin)
       = Some (Mem.u64 (req_len final_req - consumed final_req second_status))).
Proof.
  assert (req_len final_req
          < Mem.u64 (consumed final_req second_status + req_min_buf_size final_req))
    as Hfit by by vm_compute.
  assert (100 <> NULL) as Hn by done.
  assert (cqs multi_recv_final_state !! 100 = Some sample_cq) as Hc by reflexivity.
  assert (is_Some (entry_size_of lp64_layout FI_CQ_FORMAT_TAGGED)) as Hf
    by by eexists.
  exact (proj1 (multi_recv_final_completion sample_env 100 multi_recv_final_state
                  second_status sample_ctxt sample_ep final_req
                  multi_recv_final_sample_completion Hfit)
               sample_cq Hn Hc Hf).
Defined.


Lemma remote_completion_counter_not_incremented_witness :
  psmx_cq_poll_mq sample_env 100 remote_write_state = None \/
  (mr_cq (Mr 0 300) <> NULL /\
   exists st', psmx_cq_poll_mq sample_env 100 remote_write_state
               = Some (- ENOMEM sample_env, st')).
Proof.
  assert (510 <> NULL) as H1 by done.
  assert (400 <> NULL) as H2 by done.
  assert (300 <> NULL) as H3 by done.
  exact (remote_completion_counter_not_incremented sample_env 100
           remote_write_state (Status 0 8 8 0 510) []
           (Ctxt 0 PSMX_REMOTE_WRITE_CONTEXT 400 0) (Mr 0 300)
           eq_refl H1 eq_refl (or_introl eq_refl) H2 eq_refl H3).
Defined.

(** On the failing input of C4 the call faults and the region's counter
    is not incremented. *)
Example remote_write_faults :
  psmx_cq_poll_mq sample_env 100 remote_write_state = None /\
  cntrs remote_write_state !! 300 = Some 0.
Proof. split; by vm_compute. Qed.



Lemma read_too_small_without_pending_error_witness :
  psmx_cq_readfrom sample_env 100 (Some []) 0 None idle_state
  = Some (ReadResult (- FI_ETOOSMALL sample_env) (Some []) None idle_state1).
Proof.
  assert (100 <> NULL) as Hn by done.
  assert (0 < cq_entry_size sample_cq) as Hlen by by vm_compute.
  assert (read_progress sample_env 100 idle_state = Some idle_state1) as Hp
    by by vm_compute.
  exact (proj1 (read_too_small_without_pending_error sample_env 100 idle_state
                  idle_state1 sample_cq (Some []) 0 None
                  sample_am_progress_appends Hn eq_refl eq_refl Hlen Hp)).
Defined.

Lemma write_read_roundtrip_witness :
  exists st1,
    psmx_cq_write sample_env 100 (Some sample_bytes) 48 true idle_state
      = Some (48, st1) /\
    exists r got,
      psmx_cq_read sample_env 100 (Some (replicate 48 0)) 48 st1 = Some r /\
      rd_ret r = 48 /\
      rd_buf r = Some got /\ take 48 got = take 48 sample_bytes.
Proof.
  assert (100 <> NULL) as Hn by done.
  assert (Z.of_nat 48 <= 48) as Hlen by done.
  assert (48 <= length sample_bytes)%nat as Hb by (vm_compute; lia).
  destruct (write_read_roundtrip sample_env 100 idle_state sample_cq 48
              sample_bytes 48 sample_am_progress_appends Hn eq_refl eq_refl
              eq_refl eq_refl eq_refl Hlen Hb) as (st1 & Hw & _ & Hr).
  exists st1. split; [exact Hw|].
  exact (Hr sample_am_progress_keeps_mq eq_refl (replicate 48 0) 48 Hlen).
Defined.

(** The round trip of C7 run on the sample state: write, then read. *)
Example write_then_read :
  (fun r => (rd_ret r, rd_buf r))
    <$> psmx_cq_read sample_env 100 (Some (replicate 48 0)) 48
          (state_of (psmx_cq_write sample_env 100 (Some sample_bytes) 48 true
                       idle_state))
  = Some (48, Some sample_bytes).
Proof. by vm_compute. Qed.

Lemma write_record_is_ordinary_data_witness :
  exists ev,
    psmx_cq_write sample_env 100 (Some sample_bytes) 48 true idle_state
      = Some (cq_entry_size sample_cq,
              set_cqs (<[100 := set_event_queue
                                  (cq_event_queue sample_cq ++ [ev]) sample_cq]>
                         (cqs idle_state)) idle_state) /\
    ev_error ev = false /\
    exists r c4,
      psmx_cq_readfrom sample_env 100 (Some (replicate 48 0)) 48 None
        (set_cqs (<[100 := set_event_queue
                            (cq_event_queue sample_cq ++ [ev]) sample_cq]>
                   (cqs idle_state)) idle_state) = Some r /\
      rd_ret r = 48 /\
      rd_buf r = Some (Mem.memcpy (replicate 48 0) (ev_cqe ev) (Z.to_nat 48)) /\
      cqs (rd_state r) !! 100 = Some c4 /\
      cq_pending_error c4 = None.
Proof.
  assert (100 <> NULL) as Hn by done.
  assert (cq_entry_size sample_cq <= 48) as Hlen by by vm_compute.
  destruct (write_record_is_ordinary_data sample_env 100
              sample_am_progress_appends Hn idle_state sample_cq sample_bytes 48
              eq_refl Hlen) as (ev & Hw & He & _ & Hr).
  exists ev. split; [exact Hw|]. split; [exact He|].
  exact (Hr sample_am_progress_keeps_mq
            (set_cqs (<[100 := set_event_queue
                                 (cq_event_queue sample_cq ++ [ev]) sample_cq]>
                        (cqs idle_state)) idle_state)
            (set_event_queue (cq_event_queue sample_cq ++ [ev]) sample_cq) []
            (replicate 48 0) 48 None
            (lookup_insert_eq _ _ _) eq_refl eq_refl Hlen eq_refl).
Defined.

Lemma control_getwait_stores_nothing_witness :
  psmx_cq_open sample_env fd_attr 0 fd_oracle
    = (0, CqAttr FI_CQ_FORMAT_TAGGED FI_WAIT_FD FI_CQ_COND_NONE 0, Some fd_cq) /\
  cq_wait fd_cq = Some (Wait FI_WAIT_FD FI_CQ_COND_NONE 0 (3, 4) false) /\
  psmx_cq_control sample_env fd_cq (FI_GETWAIT sample_env) = Some (0, None).
Proof.
  split; [reflexivity|]. split; [reflexivity|].
  exact (proj1 (control_getwait_stores_nothing sample_env fd_cq
                  (Wait FI_WAIT_FD FI_CQ_COND_NONE 0 (3, 4) false) eq_refl)).
Defined.

(** ** The FIFO past its end *)

Module EventListMore.
Import EventList EventListFacts.

Lemma dequeue_n_empty k m :
  queue_rep m [] ->
  result (dequeue_n k m) = replicate k NULL /\ final (dequeue_n k m) = m.
Proof.
  intros Hrep. apply rep_nil_inv in Hrep as [Hh _].
  pose proof (dequeue_empty m Hh) as Hd.
  induction k as [|k [IHr IHf]]; [done|].
  cbn [dequeue_n]. split.
  - rewrite result_bind, Hd.
    change (result (NULL, m, 1%nat)) with NULL.
    change (final (NULL, m, 1%nat)) with m.
    rewrite result_bind, IHr. done.
  - rewrite (final_bind psmx_cq_dequeue_event), Hd.
    change (final (NULL, m, 1%nat)) with m.
    rewrite (final_bind (dequeue_n k)), IHf. done.
Qed.

Lemma dequeue_n_add a : forall b m,
  result (dequeue_n (a + b) m)
    = result (dequeue_n a m) ++ result (dequeue_n b (final (dequeue_n a m))) /\
  final (dequeue_n (a + b) m) = final (dequeue_n b (final (dequeue_n a m))).
Proof.
  induction a as [|a IH]; intros b m; [done|].
  cbn [Nat.add dequeue_n].
  destruct (IH b (final (psmx_cq_dequeue_event m))) as [Hr Hf].
  split.
  - rewrite (result_bind psmx_cq_dequeue_event).
    rewrite (result_bind (dequeue_n (a + b))), Hr.
    rewrite (result_bind psmx_cq_dequeue_event _ m).
    rewrite (result_bind (dequeue_n a)).
    rewrite (final_bind psmx_cq_dequeue_event _ m).
    rewrite (final_bind (dequeue_n a)). done.
  - rewrite (final_bind psmx_cq_dequeue_event).
    rewrite (final_bind (dequeue_n (a + b))), Hf.
    rewrite (final_bind psmx_cq_dequeue_event _ m).
    rewrite (final_bind (dequeue_n a)). done.
Qed.

(** X1 (psmx_cq_dequeue_event): dequeuing more often than the queue has
    records returns the records in order and then NULL for every further
    call; the further calls leave the emptied queue as it is. *)
Theorem dequeue_past_the_end (m : mem) (l : list Z) (k : nat) :
  queue_rep m l ->
  let run := dequeue_n (length l + k) m in
  result run = l ++ replicate k NULL /\
  queue_rep (final run) [] /\
  final run = final (dequeue_n (length l) m).
Proof.
  intros Hrep run. subst run.
  destruct (dequeue_n_add (length l) k m) as [Hr Hf].
  rewrite <- (app_nil_r l) in Hrep.
  destruct (dequeue_n_rep (length l) m l [] Hrep eq_refl) as [Hres Hfin].
  destruct (dequeue_n_empty k _ Hfin) as [Hk Hkf].
  rewrite Hr, Hf, Hres, Hk, Hkf. done.
Qed.

(** X2 (psmx_cq_dequeue_event, psmx_cq_enqueue_event): dequeuing the
    head of a non-empty queue and enqueuing it again puts it behind the
    other records, which keep their order. *)
Theorem dequeue_then_enqueue_rotates (m : mem) (p : Z) (l : list Z) :
  queue_rep m (p :: l) ->
  let run := (event ← psmx_cq_dequeue_event; psmx_cq_enqueue_event event) m in
  queue_rep (final run) (l ++ [p]).
Proof.
  intros Hrep run. subst run.
  destruct (dequeue_rep m p l Hrep) as (Hres & Hrep' & Hnx).
  destruct Hrep as (Hnd & Hseg & _).
  apply NoDup_cons in Hnd as [Hpl _].
  destruct Hseg as (_ & Hp & _).
  rewrite final_bind, Hres. by apply enqueue_rep.
Qed.

End EventListMore.

(** ** The entries a record holds after it has been filled *)

Module MemMore.
Import Mem MemFacts.

Lemma load32_store32_same off v m :
  (off + 4 <= length m)%nat -> load32 off (store32 off v m) = u32 v.
Proof.
  intros H. unfold load32, store32.
  pose proof (mem_read_write_same off (le_bytes 4 (u32 v)) m) as E.
  rewrite length_le_bytes in E. rewrite E by done.
  rewrite le_value_le_bytes. unfold u32.
  change (256 ^ Z.of_nat 4) with (2 ^ 32). by rewrite Z.mod_mod.
Qed.

Lemma load32_store32_other off v m off' :
  (off + 4 <= length m)%nat -> (off' + 4 <= off \/ off + 4 <= off')%nat ->
  load32 off' (store32 off v m) = load32 off' m.
Proof.
  intros H Hd. unfold load32, store32.
  rewrite mem_read_write_other; rewrite ?length_le_bytes; done.
Qed.

Lemma load32_store64_other off v m off' :
  (off + 8 <= length m)%nat -> (off' + 4 <= off \/ off + 8 <= off')%nat ->
  load32 off' (store64 off v m) = load32 off' m.
Proof.
  intros H Hd. unfold load32, store64.
  rewrite mem_read_write_other; rewrite ?length_le_bytes; done.
Qed.

Lemma load64_store32_other off v m off' :
  (off + 4 <= length m)%nat -> (off' + 8 <= off \/ off + 4 <= off')%nat ->
  load64 off' (store32 off v m) = load64 off' m.
Proof.
  intros H Hd. unfold load64, store32.
  rewrite mem_read_write_other; rewrite ?length_le_bytes; done.
Qed.

Lemma as_int_u32 x : int_range x -> as_int (u32 x) = x.
Proof.
  unfold int_range, as_int, u32. intros H.
  rewrite Zplus_mod_idemp_l. rewrite Z.mod_small; lia.
Qed.

Lemma u64_u32 x : u64 (u32 x) = u32 x.
Proof.
  unfold u64, u32. apply Z.mod_small.
  pose proof (Z.mod_pos_bound x (2 ^ 32)). lia.
Qed.

Lemma lookup_mem_write_other off bs m i :
  (off + length bs <= length m)%nat ->
  ~ (off <= i < off + length bs)%nat ->
  mem_write off bs m !! i = m !! i.
Proof.
  intros Hlen Hi. unfold mem_write.
  destruct (decide (i < off)%nat) as [Hlt|Hge].
  - rewrite lookup_app_l by (rewrite length_take; lia).
    by rewrite lookup_take_lt.
  - rewrite lookup_app_r by (rewrite length_take; lia).
    rewrite length_take, Nat.min_l by lia.
    rewrite lookup_app_r by lia.
    rewrite lookup_drop. f_equal. lia.
Qed.

Lemma lookup_store64_other off v m i :
  (off + 8 <= length m)%nat -> ~ (off <= i < off + 8)%nat ->
  store64 off v m !! i = m !! i.
Proof.
  intros. unfold store64. apply lookup_mem_write_other;
    rewrite length_le_bytes; done.
Qed.

Lemma lookup_store32_other off v m i :
  (off + 4 <= length m)%nat -> ~ (off <= i < off + 4)%nat ->
  store32 off v m !! i = m !! i.
Proof.
  intros. unfold store32. apply lookup_mem_write_other;
    rewrite length_le_bytes; done.
Qed.

End MemMore.

Lemma field_apart_swap f g :
  field_apart f g -> (g.1 + g.2 <= f.1 \/ f.1 + f.2 <= g.1)%nat.
Proof. unfold field_apart. tauto. Qed.

Ltac mem_len :=
  repeat match goal with
    | |- context [length (Mem.store64 ?o ?v ?m)] =>
        rewrite (MemFacts.length_store64 o v m) by mem_len
    | |- context [length (Mem.store32 ?o ?v ?m)] =>
        rewrite (MemFacts.length_store32 o v m) by mem_len
    end;
  lia.

Ltac mem_apart :=
  match goal with
  | H : field_apart ?f ?g |- _ => exact H
  | H : field_apart ?f ?g |- _ => exact (field_apart_swap f g H)
  end.

Ltac mem_fields :=
  repeat match goal with
    | |- context [Mem.load64 ?a (Mem.store64 ?a ?v ?m)] =>
        rewrite (MemFacts.load64_store64_same a v m) by mem_len
    | |- context [Mem.load32 ?a (Mem.store32 ?a ?v ?m)] =>
        rewrite (MemMore.load32_store32_same a v m) by mem_len
    | |- context [Mem.load64 ?a (Mem.store64 ?b ?v ?m)] =>
        rewrite (MemFacts.load64_store64_other b v m a) by first [mem_apart | mem_len]
    | |- context [Mem.load32 ?a (Mem.store32 ?b ?v ?m)] =>
        rewrite (MemMore.load32_store32_other b v m a) by first [mem_apart | mem_len]
    | |- context [Mem.load32 ?a (Mem.store64 ?b ?v ?m)] =>
        rewrite (MemMore.load32_store64_other b v m a) by first [mem_apart | mem_len]
    | |- context [Mem.load64 ?a (Mem.store32 ?b ?v ?m)] =>
        rewrite (MemMore.load64_store32_other b v m a) by first [mem_apart | mem_len]
    end.

(** Turns a [fields_ok] hypothesis over a concrete list of members into
    its bounds and its disjointness facts. *)
Ltac fields_facts H :=
  unfold fields_ok, err_fields in H; cbn [entry_fields fields_apart] in H;
  rewrite ?Forall_cons, ?Forall_nil in H;
  cbn [fst snd] in H; destruct_and? H.

Section EntryFacts.

Variable E : env.
Let L := lay E.

(** X4 (psmx_cq_create_event_from_status): a status with a non-zero
    error code gives, whatever the format of the CQ, an error entry with
    the operation context, the negated errno of the PSM code, the PSM
    code itself as provider errno, the message tag, and as [olen] the
    32-bit difference of message length and received bytes.  The [data]
    member is written only when [data] is not 0, and otherwise keeps what
    the recycled record held. *)
Theorem status_error_entry format rec s op_context buf data is_recv :
  fields_ok (sizeof_cqe L) (err_fields L) ->
  length (ev_cqe rec) = sizeof_cqe L ->
  sts_error_code s <> 0 ->
  int_range (sts_error_code s) ->
  int_range (- psmx_errno E (sts_error_code s)) ->
  exists ev,
    fill_event_from_status E format rec s op_context buf data is_recv = Some ev /\
    ev_error ev = true /\
    ev_source ev = (if is_recv then sts_msg_tag s else ev_source rec) /\
    read_err_entry L (ev_cqe ev) =
      {| ee_op_context := Mem.u64 op_context;
         ee_err := - psmx_errno E (sts_error_code s);
         ee_prov_errno := sts_error_code s;
         ee_data := (if data =? 0 then ee_data (read_err_entry L (ev_cqe rec))
                     else Mem.u64 data);
         ee_tag := Mem.u64 (sts_msg_tag s);
         ee_olen := Mem.u32 (sts_msg_length s - sts_nbytes s) |}.
Proof.
  intros HL Hlen Herr Hcode Herrno. subst L. fields_facts HL.
  unfold fill_event_from_status.
  cbn [ev_error set_error ev_cqe].
  rewrite (proj2 (Z.eqb_neq _ _) Herr). cbn [negb].
  eexists. split; [reflexivity|].
  split; [by destruct is_recv|]. split; [by destruct is_recv|].
  assert (forall e, ev_cqe (if is_recv then set_source (sts_msg_tag s) e else e)
                    = ev_cqe e) as Hsrc by (by destruct is_recv).
  rewrite Hsrc. unfold read_err_entry. cbn [ev_cqe set_cqe].
  destruct (data =? 0); mem_fields;
    rewrite ?MemMore.as_int_u32, ?MemMore.u64_u32 by assumption; reflexivity.
Qed.

(** X3 (psmx_cq_create_event): with a non-zero [err] the record is
    marked as an error and, whatever the format of the CQ, holds an error
    entry with the operation context, the negated [err], a provider errno
    of 0 and [data], [tag] and [olen] as given.  Nothing else is written:
    the union keeps its length, every byte outside these six members is
    what the record held, the result is the same whatever [buf], [flags]
    and [len] are, and the source of the record is left alone. *)
Theorem create_event_error_entry format rec op_context buf flags len data tag olen err :
  fields_ok (sizeof_cqe L) (err_fields L) ->
  length (ev_cqe rec) = sizeof_cqe L ->
  err <> 0 -> int_range (- err) ->
  exists ev,
    fill_event E format rec op_context buf flags len data tag olen err = Some ev /\
    ev_error ev = true /\
    ev_source ev = ev_source rec /\
    read_err_entry L (ev_cqe ev) =
      {| ee_op_context := Mem.u64 op_context;
         ee_err := - err;
         ee_prov_errno := 0;
         ee_data := Mem.u64 data;
         ee_tag := Mem.u64 tag;
         ee_olen := Mem.u64 olen |} /\
    length (ev_cqe ev) = length (ev_cqe rec) /\
    (forall i,
        Forall (fun f => ~ (f.1 <= i < f.1 + f.2)%nat) (err_fields L) ->
        ev_cqe ev !! i = ev_cqe rec !! i) /\
    (forall buf' flags' len',
        fill_event E format rec op_context buf' flags' len' data tag olen err
          = Some ev).
Proof.
  intros HL Hlen Herr Hrange. subst L. fields_facts HL.
  unfold fill_event.
  cbn [ev_error set_error ev_cqe].
  rewrite (proj2 (Z.eqb_neq _ _) Herr). cbn [negb].
  eexists. split; [reflexivity|]. split; [reflexivity|]. split; [reflexivity|].
  cbn [ev_cqe set_cqe]. split; [|split; [|split]].
  - unfold read_err_entry.
    assert (int_range 0) as Hzero by (unfold int_range; lia).
    mem_fields. rewrite !MemMore.as_int_u32 by assumption. reflexivity.
  - mem_len.
  - intros i Hi. unfold err_fields in Hi.
    rewrite ?Forall_cons, ?Forall_nil in Hi. cbn [fst snd] in Hi.
    destruct Hi as (Hi1 & Hi2 & Hi3 & Hi4 & Hi5 & Hi6 & _).
    rewrite MemMore.lookup_store32_other by (done || mem_len).
    rewrite MemMore.lookup_store64_other by (done || mem_len).
    rewrite MemMore.lookup_store64_other by (done || mem_len).
    rewrite MemMore.lookup_store64_other by (done || mem_len).
    rewrite MemMore.lookup_store32_other by (done || mem_len).
    by rewrite MemMore.lookup_store64_other by (done || mem_len).
  - reflexivity.
Qed.

(** X5 (psmx_cq_create_event_from_status): a status without error gives
    an entry of the format of the CQ with the operation context, the
    buffer, the received bytes as length and the message tag, as far as
    the format has these members.  The [flags] member is never written,
    and [data] only when it is not 0: both otherwise keep what the
    recycled record held.  The source tag is recorded for receives
    only. *)
Theorem status_success_entry format rec s op_context buf data is_recv ev :
  fields_ok (sizeof_cqe L) (entry_fields L format) ->
  length (ev_cqe rec) = sizeof_cqe L ->
  sts_error_code s = 0 ->
  fill_event_from_status E format rec s op_context buf data is_recv = Some ev ->
  ev_error ev = false /\
  ev_source ev = (if is_recv then sts_msg_tag s else ev_source rec) /\
  entry_op_context L format (ev_cqe ev) = Some (Mem.u64 op_context) /\
  entry_buf L format (ev_cqe ev)
    = (if has_data format then Some (Mem.u64 buf) else None) /\
  entry_len L format (ev_cqe ev)
    = (if has_len format then Some (Mem.u64 (sts_nbytes s)) else None) /\
  entry_tag L format (ev_cqe ev)
    = (if has_tag format then Some (Mem.u64 (sts_msg_tag s)) else None) /\
  entry_flags L format (ev_cqe ev) = entry_flags L format (ev_cqe rec) /\
  entry_data L format (ev_cqe ev)
    = (if data =? 0 then entry_data L format (ev_cqe rec)
       else if has_data format then Some (Mem.u64 data) else None).
Proof.
  intros HL Hlen Herr. subst L. unfold fill_event_from_status.
  cbn [ev_error set_error ev_cqe]. rewrite Herr. cbn [Z.eqb negb].
  assert (forall e, ev_cqe (if is_recv then set_source (sts_msg_tag s) e else e)
                    = ev_cqe e) as Hsrc by (by destruct is_recv).
  assert (forall e, ev_error (if is_recv then set_source (sts_msg_tag s) e else e)
                    = ev_error e) as Herr' by (by destruct is_recv).
  assert (forall e, ev_source (if is_recv then set_source (sts_msg_tag s) e else e)
                    = if is_recv then sts_msg_tag s else ev_source e) as Hsrc'
    by (by destruct is_recv).
  destruct format; try discriminate; intros [= <-];
    rewrite Hsrc, Herr', Hsrc'; fields_facts HL;
    cbn [ev_cqe set_cqe ev_error ev_source set_error entry_op_context entry_buf
         entry_len entry_tag entry_flags entry_data has_data has_len has_tag];
    destruct (data =? 0); split_and!; try reflexivity; f_equal; mem_fields;
    reflexivity.
Qed.

(** The fields of the entry built from a status without error. *)
Lemma success_entry_fields format rec s op_context buf data is_recv ev :
  fields_ok (sizeof_cqe L) (entry_fields L format) ->
  length (ev_cqe rec) = sizeof_cqe L ->
  sts_error_code s = 0 ->
  fill_event_from_status E format rec s op_context buf data is_recv = Some ev ->
  ev_error ev = false /\
  entry_op_context L format (ev_cqe ev) = Some (Mem.u64 op_context) /\
  entry_buf L format (ev_cqe ev)
    = (if has_data format then Some (Mem.u64 buf) else None) /\
  entry_len L format (ev_cqe ev)
    = (if has_len format then Some (Mem.u64 (sts_nbytes s)) else None) /\
  entry_data L format (ev_cqe ev)
    = (if data =? 0 then entry_data L format (ev_cqe rec)
       else if has_data format then Some (Mem.u64 data) else None).
Proof.
  intros HL Hlen Herr. subst L. unfold fill_event_from_status.
  cbn [ev_error set_error ev_cqe]. rewrite Herr. cbn [Z.eqb negb].
  assert (forall e, ev_cqe (if is_recv then set_source (sts_msg_tag s) e else e)
                    = ev_cqe e) as Hsrc by (by destruct is_recv).
  assert (forall e, ev_error (if is_recv then set_source (sts_msg_tag s) e else e)
                    = ev_error e) as Herr' by (by destruct is_recv).
  destruct format; try discriminate; intros [= <-];
    rewrite Hsrc, Herr'; fields_facts HL;
    cbn [ev_cqe set_cqe ev_error set_error entry_op_context entry_buf
         entry_len entry_data has_data has_len];
    destruct (data =? 0); split_and!; try reflexivity; f_equal; mem_fields;
    reflexivity.
Qed.

End EntryFacts.

(** ** The consumer calls *)

Section ReadMore.

Variable E : env.

Lemma set_event_queue_same c : set_event_queue (cq_event_queue c) c = c.
Proof. by destruct c. Qed.

Lemma set_cqs_same st : set_cqs (cqs st) st = st.
Proof. by destruct st. Qed.

(** X6 (psmx_cq_get_event_src_addr, psmx_cq_readfrom): a read that
    returns an entry always overwrites [*src_addr]: with the address the
    source tag translates to when the domain reserves the message bit,
    the tag carries it and the translation succeeds, and with
    FI_ADDR_UNSPEC in every other case. *)
Theorem read_source_address cq st st1 c1 ev q bytes len old :
  ENODATA E <> 0 -> cq <> NULL ->
  read_progress E cq st = Some st1 -> cqs st1 !! cq = Some c1 ->
  cq_pending_error c1 = None -> cq_event_queue c1 = ev :: q ->
  ev_error ev = false -> cq_entry_size c1 <= len ->
  exists r a,
    psmx_cq_readfrom E cq (Some bytes) len (Some old) st = Some r /\
    rd_ret r = cq_entry_size c1 /\
    rd_src_addr r = Some a /\
    (forall a', source_derivable E (reserved_tag_bits st1) ev ->
       psmx_epid_to_epaddr E (Z.ldiff (ev_source ev) (PSMX_MSG_BIT E)) = (0, a') ->
       a = a') /\
    (~ source_derivable E (reserved_tag_bits st1) ev \/
     (psmx_epid_to_epaddr E (Z.ldiff (ev_source ev) (PSMX_MSG_BIT E))).1 <> 0 ->
     a = FI_ADDR_UNSPEC E).
Proof.
  intros Hnd Hn Hp Hc1 Hpe Hq Herr Hlen.
  rewrite (readfrom_head E cq st st1 c1 ev q bytes len (Some old)) by done.
  rewrite Herr. unfold psmx_cq_get_event_src_addr, source_derivable.
  destruct (Z.land (reserved_tag_bits st1) (PSMX_MSG_BIT E) =? 0) eqn:Hb1;
    [apply Z.eqb_eq in Hb1 | apply Z.eqb_neq in Hb1]; simpl.
  { rewrite (proj2 (Z.eqb_neq _ _)) by lia. simpl.
    eexists _, _. split; [reflexivity|]. simpl. split; [done|]. split; [done|].
    split; [|done]. by intros a' [? _]. }
  destruct (Z.land (ev_source ev) (PSMX_MSG_BIT E) =? 0) eqn:Hb2;
    [apply Z.eqb_eq in Hb2 | apply Z.eqb_neq in Hb2]; simpl.
  { rewrite (proj2 (Z.eqb_neq _ _)) by lia. simpl.
    eexists _, _. split; [reflexivity|]. simpl. split; [done|]. split; [done|].
    split; [|done]. by intros a' [_ ?]. }
  destruct (psmx_epid_to_epaddr E _) as [err epaddr] eqn:Ht.
  destruct (err =? 0) eqn:He; [apply Z.eqb_eq in He | apply Z.eqb_neq in He]; simpl.
  - subst err. simpl.
    eexists _, _. split; [reflexivity|]. simpl. split; [done|]. split; [done|].
    split; [by intros a' _ [= ->]|]. intros [Hx|Hx]; [|done]. by destruct Hx.
  - rewrite (proj2 (Z.eqb_neq _ _) He). simpl.
    eexists _, _. split; [reflexivity|]. simpl. split; [done|]. split; [done|].
    split; [|done]. intros a' _ [= -> _]. done.
Qed.

(** X7 (psmx_cq_readfrom): with no error pending and [len] large
    enough, a null [buf] is answered with -FI_EINVAL after progress has
    been made, and nothing is dequeued. *)
Theorem read_null_buffer cq st st1 c1 len src :
  cq <> NULL -> read_progress E cq st = Some st1 ->
  cqs st1 !! cq = Some c1 -> cq_pending_error c1 = None ->
  cq_entry_size c1 <= len ->
  psmx_cq_readfrom E cq None len src st
    = Some (ReadResult (- FI_EINVAL E) None src st1).
Proof.
  intros Hn Hp Hc1 Hpe Hlen. unfold psmx_cq_readfrom. rewrite Hp. simpl.
  rewrite deref_lookup, Hc1 by done. simpl. rewrite Hpe.
  rewrite bool_decide_false by (by intros [? ?]).
  by rewrite (proj2 (Z.ltb_ge _ _) Hlen).
Qed.

(** X8 (psmx_cq_readfrom): a read from a CQ that progress leaves empty
    and without pending error returns 0 and leaves the buffer, the source
    address and the CQ as they are. *)
Theorem read_empty_queue cq st st1 c1 bytes len src :
  cq <> NULL -> read_progress E cq st = Some st1 ->
  cqs st1 !! cq = Some c1 -> cq_pending_error c1 = None ->
  cq_event_queue c1 = [] -> cq_entry_size c1 <= len ->
  psmx_cq_readfrom E cq (Some bytes) len src st
    = Some (ReadResult 0 (Some bytes) src st1).
Proof.
  intros Hn Hp Hc1 Hpe Hq Hlen. unfold psmx_cq_readfrom. rewrite Hp. simpl.
  rewrite deref_lookup, Hc1 by done. simpl. rewrite Hpe.
  rewrite bool_decide_false by (by intros [? ?]).
  rewrite (proj2 (Z.ltb_ge _ _) Hlen). rewrite Hq. simpl.
  rewrite <- Hq, set_event_queue_same, insert_id by done.
  by rewrite set_cqs_same.
Qed.

(** X9 (psmx_cq_readfrom): a successful read copies exactly
    [entry_size] bytes of the head record, whatever [len] is: the first
    [entry_size] bytes of the buffer are those of the record, the rest
    of the buffer is as the caller passed it, and the record goes to the
    head of the free list. *)
Theorem read_copies_entry_size cq st st1 c1 ev q bytes len src :
  cq <> NULL -> read_progress E cq st = Some st1 ->
  cqs st1 !! cq = Some c1 -> cq_pending_error c1 = None ->
  cq_event_queue c1 = ev :: q -> ev_error ev = false ->
  0 <= cq_entry_size c1 <= len ->
  (Z.to_nat (cq_entry_size c1) <= length (ev_cqe ev))%nat ->
  (Z.to_nat (cq_entry_size c1) <= length bytes)%nat ->
  exists r got,
    psmx_cq_readfrom E cq (Some bytes) len src st = Some r /\
    rd_ret r = cq_entry_size c1 /\ rd_buf r = Some got /\
    length got = length bytes /\
    take (Z.to_nat (cq_entry_size c1)) got
      = take (Z.to_nat (cq_entry_size c1)) (ev_cqe ev) /\
    drop (Z.to_nat (cq_entry_size c1)) got
      = drop (Z.to_nat (cq_entry_size c1)) bytes /\
    cqs (rd_state r) !! cq
      = Some (set_free_list (ev :: cq_free_list c1) (set_event_queue q c1)).
Proof.
  intros Hn Hp Hc1 Hpe Hq Herr Hlen Hev Hb.
  rewrite (readfrom_head E cq st st1 c1 ev q bytes len src) by (done || lia).
  rewrite Herr. eexists _, _. split; [reflexivity|]. simpl.
  split; [done|]. split; [done|].
  split; [by apply MemFacts.length_memcpy|].
  split; [by apply MemFacts.take_memcpy|].
  split; [|by rewrite lookup_insert_eq].
  unfold Mem.memcpy. rewrite drop_app_length'; [done|].
  rewrite length_take. lia.
Qed.

(** X10 (psmx_cq_readerr): the call changes no other CQ, and of its own
    CQ neither the event queue nor the free list; the pending-error slot
    is either left or cleared, the latter with the size of the error
    entry as result.  A [len] below that size is answered with
    -FI_ETOOSMALL and changes nothing at all. *)
Theorem readerr_touches_only_the_error_slot cq st buf len flags r :
  psmx_cq_readerr E cq buf len flags st = Some r ->
  (forall p, p <> cq -> cqs (rd_state r) !! p = cqs st !! p) /\
  (forall c, cq <> NULL -> cqs st !! cq = Some c ->
     exists c', cqs (rd_state r) !! cq = Some c' /\
       cq_event_queue c' = cq_event_queue c /\
       cq_free_list c' = cq_free_list c /\
       (cq_pending_error c' = cq_pending_error c \/
        cq_pending_error c' = None /\
        rd_ret r = Z.of_nat (sizeof_fi_cq_err_entry (lay E)))) /\
  (len < Z.of_nat (sizeof_fi_cq_err_entry (lay E)) ->
     r = ReadResult (- FI_ETOOSMALL E) buf None st).
Proof.
  unfold psmx_cq_readerr.
  destruct (len <? _) eqn:Hlen; [apply Z.ltb_lt in Hlen | apply Z.ltb_ge in Hlen].
  { intros [= <-]. simpl. split; [done|]. split; [|done].
    intros c _ Hc. exists c. by repeat split; try left. }
  destruct (deref (cqs st) cq) as [c0|] eqn:Hd; [|done]. simpl.
  apply deref_Some in Hd as [Hn Hc0].
  destruct (cq_pending_error c0) as [e|] eqn:Hpe.
  - destruct buf as [bytes|]; [|done]. simpl. intros [= <-]. simpl.
    split; [intros p Hp; by rewrite lookup_insert_ne|].
    split; [|lia].
    intros c _ Hc. simplify_eq. rewrite lookup_insert_eq.
    eexists. split; [done|]. simpl. split; [done|]. split; [done|]. by right.
  - intros [= <-]. simpl. split; [done|]. split; [|lia].
    intros c _ Hc. exists c. by repeat split; try left.
Qed.

(** X11 (psmx_cq_write): a call that returns either appends one
    non-error record holding the first [entry_size] bytes of [buf] on a
    zeroed union to the queue and returns [entry_size], or changes
    nothing and returns -FI_ETOOSMALL (short [len]) or -ENOMEM (failed
    allocation); the length is checked before the allocation. *)
Theorem write_appends_or_changes_nothing cq st c buf len calloc_ok r st' :
  cq <> NULL -> cqs st !! cq = Some c ->
  psmx_cq_write E cq buf len calloc_ok st = Some (r, st') ->
  (r = cq_entry_size c /\ cq_entry_size c <= len /\ calloc_ok = true /\
   exists bytes,
     buf = Some bytes /\
     st' = set_cqs (<[cq := set_event_queue
                       (cq_event_queue c ++
                          [CqEvent (Mem.memcpy (Mem.zeros (sizeof_cqe (lay E))) bytes
                                      (Z.to_nat (cq_entry_size c))) false 0]) c]>
                      (cqs st)) st) \/
  (st' = st /\
   (r = - FI_ETOOSMALL E /\ len < cq_entry_size c \/
    r = - ENOMEM E /\ cq_entry_size c <= len /\ calloc_ok = false)).
Proof.
  intros Hn Hc. unfold psmx_cq_write. rewrite deref_lookup, Hc by done. simpl.
  destruct (len <? cq_entry_size c) eqn:Hlen;
    [apply Z.ltb_lt in Hlen | apply Z.ltb_ge in Hlen].
  { intros [= <- <-]. right. split; [done|]. by left. }
  destruct calloc_ok; simpl.
  2:{ intros [= <- <-]. right. split; [done|]. by right. }
  destruct buf as [bytes|]; [|done]. simpl. intros [= <- <-].
  left. split; [done|]. split; [done|]. split; [done|]. by exists bytes.
Qed.

(** X12 (psmx_cq_write, psmx_cq_read): two entries written to an empty
    CQ are returned by the next two reads in the order they were
    written, with nothing in store on the MQ and progress that only
    appends to queues: both writes and both reads return. *)
Theorem writes_are_read_in_order cq st c n b1 b2 len out1 out2 :
  am_progress_appends E -> am_progress_keeps_mq E ->
  cq <> NULL -> cqs st !! cq = Some c ->
  cq_entry_size c = Z.of_nat n ->
  cq_event_queue c = [] -> cq_pending_error c = None ->
  mq_ready (psm_mq_of st) = [] ->
  Z.of_nat n <= len -> (n <= length b1)%nat -> (n <= length b2)%nat ->
  exists st1 st2,
    psmx_cq_write E cq (Some b1) len true st = Some (Z.of_nat n, st1) /\
    psmx_cq_write E cq (Some b2) len true st1 = Some (Z.of_nat n, st2) /\
    exists r1 got1,
      psmx_cq_read E cq (Some out1) len st2 = Some r1 /\
      rd_ret r1 = Z.of_nat n /\ rd_buf r1 = Some got1 /\
      take n got1 = take n b1 /\
      exists r2 got2,
        psmx_cq_read E cq (Some out2) len (rd_state r1) = Some r2 /\
        rd_ret r2 = Z.of_nat n /\ rd_buf r2 = Some got2 /\
        take n got2 = take n b2.
Proof.
  intros Ham Hmq Hn Hc Hsz Hq Hpe Hidle Hlen Hb1 Hb2.
  assert (forall (b out : list Z), (n <= length b)%nat ->
            take n (Mem.memcpy out
                      (Mem.memcpy (Mem.zeros (sizeof_cqe (lay E))) b n) n)
            = take n b) as Hcopy.
  { intros b out Hb. rewrite MemFacts.take_memcpy.
    - by apply MemFacts.take_memcpy.
    - unfold Mem.memcpy. rewrite length_app, length_take. lia. }
  set (e1 := CqEvent (Mem.memcpy (Mem.zeros (sizeof_cqe (lay E))) b1 n) false 0).
  set (e2 := CqEvent (Mem.memcpy (Mem.zeros (sizeof_cqe (lay E))) b2 n) false 0).
  set (c1 := set_event_queue [e1] c).
  set (st1 := set_cqs (<[cq := c1]> (cqs st)) st).
  set (c2 := set_event_queue [e1; e2] c1).
  set (st2 := set_cqs (<[cq := c2]> (cqs st1)) st1).
  assert (cqs st1 !! cq = Some c1) as Hc1 by apply lookup_insert_eq.
  assert (cqs st2 !! cq = Some c2) as Hc2 by apply lookup_insert_eq.
  exists st1, st2. split.
  { unfold psmx_cq_write. rewrite deref_lookup, Hc by done. simpl.
    rewrite Hsz, (proj2 (Z.ltb_ge _ _) Hlen). simpl.
    rewrite Hq, Nat2Z.id. reflexivity. }
  split.
  { unfold psmx_cq_write. rewrite deref_lookup, Hc1 by done. simpl.
    rewrite Hsz, (proj2 (Z.ltb_ge _ _) Hlen). simpl.
    rewrite Nat2Z.id. reflexivity. }
  destruct (read_progress_idle E cq st2 c2 Ham Hmq Hn Hc2 Hidle) as (st3 & Hp & Hm3).
  destruct (read_progress_grow E cq st2 st3 Ham Hp cq c2 Hc2)
    as (c3 & Hc3 & _ & Hs3 & Hpe3 & evs & Hq3).
  simpl in Hs3, Hpe3, Hq3. rewrite Hsz in Hs3. rewrite Hpe in Hpe3.
  unfold psmx_cq_read.
  rewrite (readfrom_head E cq st2 st3 c3 e1 (e2 :: evs) out1 len None)
    by (done || lia).
  simpl. eexists _, _. split; [reflexivity|]. simpl.
  split; [done|]. split; [reflexivity|].
  rewrite Hs3, Nat2Z.id. split; [by apply Hcopy|].
  set (c3' := set_free_list _ _).
  set (st3' := set_cqs _ st3).
  assert (cqs st3' !! cq = Some c3') as Hc3' by apply lookup_insert_eq.
  destruct (read_progress_idle E cq st3' c3' Ham Hmq Hn Hc3' Hm3) as (st4 & Hp4 & _).
  destruct (read_progress_grow E cq st3' st4 Ham Hp4 cq c3' Hc3')
    as (c4 & Hc4 & _ & Hs4 & Hpe4 & evs' & Hq4).
  simpl in Hs4, Hpe4, Hq4. rewrite Hs3 in Hs4. rewrite Hpe3 in Hpe4.
  rewrite (readfrom_head E cq st3' st4 c4 e2 (evs ++ evs') out2 len None)
    by (done || lia).
  simpl. eexists _, _. split; [reflexivity|]. simpl.
  split; [done|]. split; [reflexivity|].
  rewrite Hs4, Nat2Z.id. by apply Hcopy.
Qed.

End ReadMore.

(** ** Routing of completions by the progress driver *)

Section RoutingFacts.

Variable E : env.

Lemma set_eps_same st : set_eps (eps st) st = st.
Proof. by destruct st. Qed.

Lemma twp_bump n QR (QN : unit -> state -> Prop) st :
  n = NULL \/ is_Some (cntrs st !! n) ->
  QN tt (set_cntrs (bumped n (cntrs st)) st) ->
  twp (if bool_decide (n <> NULL) then cntr_add n 1 else mret tt) QR QN st.
Proof.
  intros Hc H. case_bool_decide as Hn; unfold bumped in H.
  - destruct Hc as [?|[v Hv]]; [done|].
    rewrite bool_decide_false, Hv in H by done.
    eapply twp_cntr_add; [done..|]. exact H.
  - apply twp_ret.
    rewrite bool_decide_true in H by done. by destruct st.
Qed.

Lemma twp_exit_null cq (Post : state -> Prop) st :
  Post st ->
  twp (if bool_decide (cq = NULL) || bool_decide (NULL = cq)
       then return_ 1 else mret tt)
      (fun r st' => cq = NULL /\ r = 1 /\ Post st')
      (fun _ st' => cq <> NULL /\ Post st') st.
Proof.
  intros H. repeat case_bool_decide; simpl; unfold twp; simpl; try tauto.
  congruence.
Qed.

(** X13 (psmx_cq_poll_mq): a completion of a kind that reports to no
    CQ (the no-completion and inject kinds, or an endpoint without the
    CQ) builds no event: no CQ changes, the in-flight counter of the
    kind goes down by one, the completion counter selected for the kind
    goes up by one unless it is null, an inject context is freed, and
    the driver returns 1 only when called with a null [cq]. *)
Theorem completion_without_cq cq s st ctx ep :
  sts_context s <> NULL -> ctxts st !! sts_context s = Some ctx ->
  local_kind (ctxt_type ctx) = true ->
  ctxt_ep ctx <> NULL -> eps st !! ctxt_ep ctx = Some ep ->
  route_cq (ctxt_type ctx) ep = NULL ->
  (route_cntr (ctxt_type ctx) ep = NULL \/
   is_Some (cntrs st !! route_cntr (ctxt_type ctx) ep)) ->
  exists st',
    poll_one E cq s st
      = (if bool_decide (cq = NULL) then Return 1 st' else Next tt st') /\
    cqs st' = cqs st /\
    eps st' = <[ctxt_ep ctx := completes_pending (ctxt_type ctx) ep]> (eps st) /\
    cntrs st' = bumped (route_cntr (ctxt_type ctx) ep) (cntrs st) /\
    ctxts st' = (if frees_context (ctxt_type ctx)
                 then delete (sts_context s) (ctxts st) else ctxts st) /\
    psm_mq_of st' = psm_mq_of st.
Proof.
  intros Hsn Hctx Hloc Hen Hep Hq Hcntr.
  apply twp_poll_result.
  unfold poll_one, route. tstep. tstep. tstep.
  destruct (ctxt_type ctx) eqn:Hty; try discriminate Hloc;
    cbn [route_cq route_cntr completes_pending frees_context] in *;
    repeat tstep; cbn [tmp_cq tmp_cntr multi_recv];
    rewrite ?Hq; rewrite (bool_decide_false (NULL <> NULL)) by (by intros []);
    tstep; tstep; (apply twp_bump; [exact Hcntr|]); tstep; tstep;
    apply twp_exit_null; cbn;
    rewrite ?(insert_id (eps st)) by done; done.
Qed.

Lemma twp_status_event_local q s data st c ctx ev QR (QN : unit -> state -> Prop) :
  q <> NULL -> cqs st !! q = Some c ->
  sts_context s <> NULL -> ctxts st !! sts_context s = Some ctx ->
  ctxt_type ctx <> PSMX_MULTI_RECV_CONTEXT ->
  fill_event_from_status E (cq_format c)
    (PSMX_FREE_LIST_GET E (cq_free_list c)).1 s
    (reported_op_context (sts_context s) ctx) (reported_buf ctx) data
    (is_recv_kind (ctxt_type ctx)) = Some ev ->
  QN tt (set_cqs (<[q := set_event_queue (cq_event_queue c ++ [ev])
                          (set_free_list (PSMX_FREE_LIST_GET E (cq_free_list c)).2 c)]>
                    (cqs st)) st) ->
  twp (create_and_enqueue E q (psmx_cq_create_event_from_status E q s data))
      QR QN st.
Proof.
  intros Hn Hc Hsn Hctx Hty Hfill H.
  unfold create_and_enqueue, psmx_cq_create_event_from_status.
  destruct (PSMX_FREE_LIST_GET E (cq_free_list c)) as [rec fl] eqn:Hget.
  simpl in Hfill, H.
  tstep. tstep. tstep. rewrite Hget. tstep. tstep. tstep. tstep.
  unfold reported_op_context, reported_buf in Hfill.
  destruct (ctxt_type ctx) eqn:Hk; try done; simpl in Hfill;
    tstep; tstep; simpl; rewrite Hfill;
    (eapply twp_enqueue_on; [done | solve_lookup |]); simpl;
    by rewrite insert_insert_eq.
Qed.

(** X14 (psmx_cq_poll_mq, psmx_cq_create_event_from_status): a
    completion of a kind other than multi-recv and the one-sided ones,
    on an endpoint bound to a CQ for it, appends one event built from the
    status (immediate data 0) to that CQ, decrements the in-flight counter
    of the kind, increments the completion counter, and makes the driver
    return 1 exactly when it was called with a null [cq] or with the CQ
    the event went to. *)
Theorem completion_with_cq cq s st ctx ep c :
  sts_context s <> NULL -> ctxts st !! sts_context s = Some ctx ->
  local_kind (ctxt_type ctx) = true ->
  ctxt_ep ctx <> NULL -> eps st !! ctxt_ep ctx = Some ep ->
  route_cq (ctxt_type ctx) ep <> NULL ->
  cqs st !! route_cq (ctxt_type ctx) ep = Some c ->
  is_Some (entry_size_of (lay E) (cq_format c)) ->
  (route_cntr (ctxt_type ctx) ep = NULL \/
   is_Some (cntrs st !! route_cntr (ctxt_type ctx) ep)) ->
  exists ev st',
    fill_event_from_status E (cq_format c)
      (PSMX_FREE_LIST_GET E (cq_free_list c)).1 s
      (reported_op_context (sts_context s) ctx) (reported_buf ctx) 0
      (is_recv_kind (ctxt_type ctx)) = Some ev /\
    poll_one E cq s st
      = (if bool_decide (cq = NULL \/ route_cq (ctxt_type ctx) ep = cq)
         then Return 1 st' else Next tt st') /\
    cqs st' = <[route_cq (ctxt_type ctx) ep :=
                  set_event_queue (cq_event_queue c ++ [ev])
                    (set_free_list (PSMX_FREE_LIST_GET E (cq_free_list c)).2 c)]>
                (cqs st) /\
    eps st' = <[ctxt_ep ctx := completes_pending (ctxt_type ctx) ep]> (eps st) /\
    cntrs st' = bumped (route_cntr (ctxt_type ctx) ep) (cntrs st) /\
    ctxts st' = ctxts st /\
    psm_mq_of st' = psm_mq_of st.
Proof.
  intros Hsn Hctx Hloc Hen Hep Hq Hc Hfmt Hcntr.
  destruct (fill_event_from_status_is_Some E (cq_format c)
              (PSMX_FREE_LIST_GET E (cq_free_list c)).1 s
              (reported_op_context (sts_context s) ctx) (reported_buf ctx) 0
              (is_recv_kind (ctxt_type ctx)) Hfmt) as [ev Hfill].
  exists ev.
  cut (exists st',
    poll_one E cq s st
      = (if bool_decide (cq = NULL \/ route_cq (ctxt_type ctx) ep = cq)
         then Return 1 st' else Next tt st') /\
    cqs st' = <[route_cq (ctxt_type ctx) ep :=
                  set_event_queue (cq_event_queue c ++ [ev])
                    (set_free_list (PSMX_FREE_LIST_GET E (cq_free_list c)).2 c)]>
                (cqs st) /\
    eps st' = <[ctxt_ep ctx := completes_pending (ctxt_type ctx) ep]> (eps st) /\
    cntrs st' = bumped (route_cntr (ctxt_type ctx) ep) (cntrs st) /\
    ctxts st' = ctxts st /\
    psm_mq_of st' = psm_mq_of st).
  { intros (st' & H). by exists st'. }
  apply twp_poll_result.
  unfold poll_one, route. tstep. tstep. tstep.
  assert (ctxt_type ctx <> PSMX_MULTI_RECV_CONTEXT) as Hnm
    by (intros Hk; by rewrite Hk in Hloc).
  destruct (ctxt_type ctx) eqn:Hty; try discriminate Hloc;
    cbn [route_cq route_cntr completes_pending frees_context] in *; try done;
    repeat tstep; cbn [tmp_cq tmp_cntr multi_recv];
    rewrite bool_decide_true by done;
    (eapply twp_status_event_local;
      [done | solve_lookup | done | solve_lookup | by rewrite Hty
      | rewrite <- Hfill; unfold reported_op_context, reported_buf; by rewrite Hty |]);
    tstep; (apply twp_bump; [exact Hcntr|]); tstep; tstep;
    apply twp_poll_exit; cbn;
    rewrite ?(insert_id (eps st)) by done; done.
Qed.

Lemma twp_returns {A} (m : prog A) st r (Post : state -> Prop) :
  twp m (fun r' st' => r' = r /\ Post st') (fun _ _ => False) st ->
  exists st', m st = Return r st' /\ Post st'.
Proof.
  intros H. apply twp_outcome in H as [(r' & st' & Hm & -> & HP)|(a & st' & _ & [])].
  by exists st'.
Qed.

(** The continuation when [psm_mq_irecv] refuses the new receive. *)
Lemma twp_rearm_fails s r st ctx req QR (QN : unit -> state -> Prop) :
  sts_context s <> NULL -> ctxts st !! sts_context s = Some ctx ->
  ctxt_user ctx <> NULL -> multi_recvs st !! ctxt_user ctx = Some req ->
  tmp_ep r <> NULL -> is_Some (eps st !! tmp_ep r) ->
  mq_irecv_err (psm_mq_of st) <> PSM_OK E ->
  Mem.u64 (consumed req s + req_min_buf_size req) <= req_len req ->
  QR (psmx_errno E (mq_irecv_err (psm_mq_of st)))
     (set_multi_recvs
        (<[ctxt_user ctx := set_offset (consumed req s) req]> (multi_recvs st)) st) ->
  twp (multi_recv_continuation E s r) QR QN st.
Proof.
  intros Hsn Hctx Hun Hreq Hen [ep Hep] Hok Hfit H.
  unfold multi_recv_continuation. repeat tstep. simpl.
  fold (consumed req s).
  rewrite (proj2 (Z.leb_le _ _) Hfit).
  tstep. tstep. tstep.
  unfold twp, psm_mq_irecv, mbind, prog_bind. simpl.
  rewrite bool_decide_false by done. simpl.
  rewrite bool_decide_true by done. simpl.
  exact H.
Qed.

(** X15 (psmx_cq_poll_mq): when the buffer of a multi-recv has room
    left but the receive cannot be posted again, the driver returns
    [psmx_errno] of the PSM code as it is (not negated), after the
    completion was reported: the event is on the CQ, the counter went
    up and the offset advanced, but no receive is posted. *)
Theorem rearm_failure cq st s ctx ep req :
  multi_recv_completion st s ctx ep req ->
  mq_irecv_err (psm_mq_of st) <> PSM_OK E ->
  Mem.u64 (consumed req s + req_min_buf_size req) <= req_len req ->
  (forall c,
      ep_recv_cq ep <> NULL -> cqs st !! ep_recv_cq ep = Some c ->
      is_Some (entry_size_of (lay E) (cq_format c)) ->
      exists ev st',
        fill_event_from_status E (cq_format c)
          (PSMX_FREE_LIST_GET E (cq_free_list c)).1 s (sts_context s)
          (Mem.u64 (req_buf req + req_offset req)) 0 true = Some ev /\
        poll_one E cq s st
          = Return (psmx_errno E (mq_irecv_err (psm_mq_of st))) st' /\
        mq_posted (psm_mq_of st') = mq_posted (psm_mq_of st) /\
        multi_recvs st' !! ctxt_user ctx
          = Some (set_offset (consumed req s) req) /\
        ctxts st' = ctxts st /\
        cntrs st' = bumped (ep_recv_cntr ep) (cntrs st) /\
        exists c', cqs st' !! ep_recv_cq ep = Some c' /\
          cq_event_queue c' = cq_event_queue c ++ [ev]) /\
  (ep_recv_cq ep = NULL ->
      exists st',
        poll_one E cq s st
          = Return (psmx_errno E (mq_irecv_err (psm_mq_of st))) st' /\
        mq_posted (psm_mq_of st') = mq_posted (psm_mq_of st) /\
        multi_recvs st' !! ctxt_user ctx
          = Some (set_offset (consumed req s) req) /\
        ctxts st' = ctxts st /\
        cntrs st' = bumped (ep_recv_cntr ep) (cntrs st) /\
        cqs st' = cqs st).
Proof.
  intros (Hsn & Hctx & Hty & Hen & Hep & Hun & Hreq & Hcntr) Hok Hfit.
  split.
  - intros c Hcn Hc Hfmt.
    destruct (fill_event_from_status_is_Some E (cq_format c)
                (PSMX_FREE_LIST_GET E (cq_free_list c)).1 s (sts_context s)
                (Mem.u64 (req_buf req + req_offset req)) 0 true Hfmt)
      as [ev Hfill].
    exists ev.
    cut (exists st',
      poll_one E cq s st
        = Return (psmx_errno E (mq_irecv_err (psm_mq_of st))) st' /\
      mq_posted (psm_mq_of st') = mq_posted (psm_mq_of st) /\
      multi_recvs st' !! ctxt_user ctx
        = Some (set_offset (consumed req s) req) /\
      ctxts st' = ctxts st /\
      cntrs st' = bumped (ep_recv_cntr ep) (cntrs st) /\
      exists c', cqs st' !! ep_recv_cq ep = Some c' /\
        cq_event_queue c' = cq_event_queue c ++ [ev]).
    { intros (st' & H). by exists st'. }
    apply twp_returns.
    eapply twp_poll_one_multi; [done..|]. simpl.
    tstep. rewrite bool_decide_true by done.
    eapply twp_status_event_multi; [done..|].
    tstep. apply twp_bump; [exact Hcntr|].
    tstep. eapply twp_rearm_fails; [done.. | by eexists | done | done |].
    simpl. split; [done|]. split; [done|].
    split; [by rewrite lookup_insert_eq|]. split; [done|]. split; [done|].
    eexists. by rewrite lookup_insert_eq.
  - intros Hcn.
    apply twp_returns.
    eapply twp_poll_one_multi; [done..|]. simpl.
    tstep. rewrite bool_decide_false by (by intros []).
    tstep. tstep. apply twp_bump; [exact Hcntr|].
    tstep. eapply twp_rearm_fails; [done.. | by eexists | done | done |].
    simpl. split; [done|]. split; [done|].
    split; [by rewrite lookup_insert_eq|]. done.
Qed.

(** X16 (psmx_cq_poll_mq): a one-sided completion on a memory region
    without counter.  With a CQ on the region, one event is appended to
    it and no endpoint and no counter changes; for a status without
    error the entry has the region as operation context, a null buffer,
    the received bytes as length, and as data the immediate data of the
    write when that is not 0: for a read, and for a write with immediate
    data 0, the data member is not written and keeps what the pooled
    record held.  Without a CQ nothing changes at all. *)
Theorem remote_completion_without_counter cq s st ctx mr :
  sts_context s <> NULL -> ctxts st !! sts_context s = Some ctx ->
  ctxt_type ctx = PSMX_REMOTE_WRITE_CONTEXT \/
    ctxt_type ctx = PSMX_REMOTE_READ_CONTEXT ->
  ctxt_user ctx <> NULL -> mrs st !! ctxt_user ctx = Some mr ->
  mr_cntr mr = NULL ->
  (forall c data,
      mr_cq mr <> NULL -> cqs st !! mr_cq mr = Some c ->
      is_Some (entry_size_of (lay E) (cq_format c)) ->
      (ctxt_type ctx = PSMX_REMOTE_WRITE_CONTEXT ->
       am_write_data st !! sts_context s = Some data) ->
      (ctxt_type ctx = PSMX_REMOTE_READ_CONTEXT -> data = 0) ->
      exists ev st',
        fill_event_from_status E (cq_format c)
          (PSMX_FREE_LIST_GET E (cq_free_list c)).1 s
          (ctxt_user ctx) NULL data false = Some ev /\
        poll_one E cq s st
          = (if bool_decide (cq = NULL \/ mr_cq mr = cq)
             then Return 1 st' else Next tt st') /\
        cqs st' = <[mr_cq mr :=
                      set_event_queue (cq_event_queue c ++ [ev])
                        (set_free_list (PSMX_FREE_LIST_GET E (cq_free_list c)).2 c)]>
                    (cqs st) /\
        eps st' = eps st /\ cntrs st' = cntrs st /\ ctxts st' = ctxts st /\
        (fields_ok (sizeof_cqe (lay E)) (entry_fields (lay E) (cq_format c)) ->
         pool_ok (lay E) c -> sts_error_code s = 0 ->
         ev_error ev = false /\
         entry_op_context (lay E) (cq_format c) (ev_cqe ev)
           = Some (Mem.u64 (ctxt_user ctx)) /\
         entry_buf (lay E) (cq_format c) (ev_cqe ev)
           = (if has_data (cq_format c) then Some NULL else None) /\
         entry_len (lay E) (cq_format c) (ev_cqe ev)
           = (if has_len (cq_format c) then Some (Mem.u64 (sts_nbytes s))
              else None) /\
         entry_data (lay E) (cq_format c) (ev_cqe ev)
           = (if data =? 0
              then entry_data (lay E) (cq_format c)
                     (ev_cqe (PSMX_FREE_LIST_GET E (cq_free_list c)).1)
              else if has_data (cq_format c) then Some (Mem.u64 data)
              else None))) /\
  (mr_cq mr = NULL ->
      poll_one E cq s st
        = (if bool_decide (cq = NULL) then Return 1 st else Next tt st)).
Proof.
  intros Hsn Hctx Hty Hun Hmr Hcn.
  assert (ctxt_type ctx <> PSMX_MULTI_RECV_CONTEXT) as Hnm
    by (destruct Hty as [Hk|Hk]; by rewrite Hk).
  split.
  - intros c data Hq Hc Hfmt Hw Hr.
    destruct (fill_event_from_status_is_Some E (cq_format c)
                (PSMX_FREE_LIST_GET E (cq_free_list c)).1 s
                (ctxt_user ctx) NULL data false Hfmt) as [ev Hfill].
    exists ev.
    cut (exists st',
      poll_one E cq s st
        = (if bool_decide (cq = NULL \/ mr_cq mr = cq)
           then Return 1 st' else Next tt st') /\
      cqs st' = <[mr_cq mr :=
                    set_event_queue (cq_event_queue c ++ [ev])
                      (set_free_list (PSMX_FREE_LIST_GET E (cq_free_list c)).2 c)]>
                  (cqs st) /\
      eps st' = eps st /\ cntrs st' = cntrs st /\ ctxts st' = ctxts st).
    { intros (st' & H1 & H2 & H3 & H4 & H5). exists st'.
      split; [done|]. split; [done|]. split; [done|]. split; [done|].
      split; [done|]. split; [done|].
      intros HL Hpool Herr. destruct (get_pool_ok E c Hpool) as [Hlen _].
      exact (success_entry_fields E (cq_format c) _ s (ctxt_user ctx) NULL data
               false ev HL Hlen Herr Hfill). }
    apply twp_poll_result.
    unfold poll_one, route. tstep. tstep. tstep.
    destruct Hty as [Hk|Hk]; rewrite Hk; unfold remote_completion;
      tstep; tstep; tstep;
      rewrite (bool_decide_true (mr_cq mr <> NULL)) by done.
    + tstep. eapply twp_load; [done | exact (Hw Hk) |].
      (eapply twp_status_event_local;
        [done | solve_lookup | done | solve_lookup | done
        | rewrite <- Hfill; unfold reported_op_context, reported_buf, is_recv_kind;
          by rewrite Hk |]).
      tstep. rewrite Hcn, bool_decide_false by (by intros []).
      tstep.
      repeat case_bool_decide; simpl; unfold twp; simpl; tauto.
    + rewrite (Hr Hk) in *. tstep. tstep.
      (eapply twp_status_event_local;
        [done | solve_lookup | done | solve_lookup | done
        | rewrite <- Hfill; unfold reported_op_context, reported_buf, is_recv_kind;
          by rewrite Hk |]).
      tstep. rewrite Hcn, bool_decide_false by (by intros []).
      tstep.
      repeat case_bool_decide; simpl; unfold twp; simpl; tauto.
  - intros Hq.
    unfold poll_one, route, remote_completion, mbind, prog_bind, load, deref.
    rewrite !bool_decide_false by done. rewrite Hctx.
    destruct Hty as [Hk|Hk]; rewrite Hk;
      rewrite !bool_decide_false by done; rewrite Hmr, Hq, Hcn;
      rewrite !(bool_decide_false (NULL <> NULL)) by (by intros []);
      cbn; repeat case_bool_decide; simpl; try congruence; reflexivity.
Qed.

End RoutingFacts.

(** ** Open and close *)

Section OpenFacts.

Variable E : env.

Ltac open_cases H :=
  repeat first
    [ discriminate H
    | match type of H with
      | context [if ?b then _ else _] => destruct b eqn:?; simpl in H
      | context [match pipe_result ?os with _ => _ end] =>
          destruct (pipe_result os) as [?|[? ?]] eqn:?; simpl in H
      end ].

(** X17 (psmx_cq_open): an unknown format is refused with -FI_EINVAL
    before [attr] is touched; an unknown wait object, a wait set that is
    null, or an unknown wait condition on a wait object other than
    FI_WAIT_NONE is refused with -FI_EINVAL after an unspecified format
    has already been replaced in [attr]; with FI_WAIT_NONE the wait
    condition is not looked at and the CQ gets no wait object. *)
Theorem open_validation attr context os :
  ((exists n, attr_format attr = FI_CQ_FORMAT_OTHER n) ->
   psmx_cq_open E attr context os = (- FI_EINVAL E, attr, None)) /\
  ((forall n, attr_format attr <> FI_CQ_FORMAT_OTHER n) -> wait_invalid attr ->
   psmx_cq_open E attr context os = (- FI_EINVAL E, attr_defaulted attr, None)) /\
  ((forall n, attr_format attr <> FI_CQ_FORMAT_OTHER n) ->
   attr_wait_obj attr = FI_WAIT_NONE -> calloc_cq_ok os = true ->
   exists c, psmx_cq_open E attr context os = (0, attr_defaulted attr, Some c) /\
             cq_wait c = None).
Proof.
  unfold wait_invalid, attr_defaulted, psmx_cq_open.
  destruct attr as [f w wc ws]; simpl. split; [|split].
  - by intros [n ->].
  - intros Hf [[n ->]|[[-> ->]|[Hw [n ->]]]];
      destruct f; simpl; try done; try (by destruct (Hf n0)).
    all: destruct w; simpl; try done; case_bool_decide; done.
  - intros Hf -> ->. destruct f; simpl; try (by eexists); by destruct (Hf n).
Qed.

(** X19 (psmx_cq_close, psmx_cq_open, psmx_cq_init_wait): closing a CQ
    that [psmx_cq_open] handed out returns 0, closes exactly the two
    descriptors of the pipe opened for FI_WAIT_FD (none for the other
    wait objects), removes the CQ and leaves the other CQs alone. *)
Theorem open_then_close_descriptors attr context os attr' c fid st :
  pipe_result os <> inl 0 ->
  psmx_cq_open E attr context os = (0, attr', Some c) ->
  fid <> NULL -> cqs st !! fid = Some c ->
  exists st',
    psmx_cq_close fid st = Some (0, pipe_descriptors attr os, st') /\
    cqs st' !! fid = None /\
    (forall p, p <> fid -> cqs st' !! p = cqs st !! p).
Proof.
  intros Hpipe H Hn Hc. unfold psmx_cq_close. rewrite deref_lookup, Hc by done. simpl.
  exists (set_cqs (delete fid (cqs st)) st).
  split; [|split; [apply lookup_delete_eq | intros p Hp; by apply lookup_delete_ne]].
  do 2 f_equal. f_equal.
  unfold psmx_cq_open, psmx_cq_init_wait, pipe_descriptors in *.
  destruct attr as [f w wc ws]; simpl in *.
  destruct f, w, wc; simpl in H; open_cases H;
    inversion H; subst; simpl; try done;
    repeat match goal with
           | Hp : pipe_result os = _ |- _ => rewrite Hp
           end; try done.
  all: match goal with
       | Hz : negb (- ?z =? 0) = false |- _ =>
           apply negb_false_iff, Z.eqb_eq in Hz; assert (z = 0) as -> by lia; done
       end.
Qed.

(** X18 (psmx_cq_open, psmx_cq_init_wait): the call returns 0 exactly
    when it hands out a CQ, and that CQ has the format [attr] is left
    with, the entry size of that format, an empty queue, no pending
    error, a free list of 64 records, the caller's context, and a wait
    object exactly when [attr] asks for one, of the type and condition
    asked for and holding the wait set or the descriptors of the pipe. *)
Theorem open_hands_out_fresh_cq attr context os r attr' oc :
  FI_EINVAL E <> 0 -> FI_ENOMEM E <> 0 -> pipe_result os <> inl 0 ->
  psmx_cq_open E attr context os = (r, attr', oc) ->
  (r = 0 <-> is_Some oc) /\
  forall c, oc = Some c ->
    attr' = attr_defaulted attr /\
    cq_format c = attr_format attr' /\
    (exists n, entry_size_of (lay E) (cq_format c) = Some n /\
               cq_entry_size c = Z.of_nat n) /\
    cq_event_queue c = [] /\ cq_pending_error c = None /\
    cq_free_list c = replicate 64 (fresh_event E) /\
    cq_poll_am_before_mq c = false /\ cq_fid_context c = context /\
    (attr_wait_obj attr = FI_WAIT_NONE -> cq_wait c = None) /\
    (attr_wait_obj attr <> FI_WAIT_NONE ->
     exists w, cq_wait c = Some w /\
       wait_type w = attr_wait_obj attr /\ wait_cond w = attr_wait_cond attr /\
       (attr_wait_obj attr = FI_WAIT_SET -> wait_wait_set w = attr_wait_set attr) /\
       (attr_wait_obj attr = FI_WAIT_FD -> pipe_result os = inr (wait_fd w))).
Proof.
  intros Hinv Hmem Hpipe H.
  unfold psmx_cq_open, psmx_cq_init_wait, attr_defaulted in *.
  destruct attr as [f w wc ws]; simpl in *.
  destruct f, w, wc; simpl in H; open_cases H;
    inversion H; subst; simpl;
    (split; [split; [intros ?; try lia; by eexists | by intros [? ?]] |]);
    try (intros ? [=]; fail).
  all: try match goal with
       | Hz : negb (- ?z =? 0) = false |- _ =>
           apply negb_false_iff, Z.eqb_eq in Hz; assert (z = 0) as -> by lia; done
       end.
  all: intros c0 [= <-]; simpl; split_and!; try done; try (by eexists);
    try (intros _; eexists; split_and!; done).
Qed.

End OpenFacts.

(** ** The flag printers *)

Module TostrFacts.
Import Tostr.
Import String.StringSyntax.
Local Open Scope string_scope.

Lemma length_sep : length (lit ", ") = 2%nat.
Proof. reflexivity. Qed.

Lemma strcatf_fits dest text :
  (length dest + length text <= FI_BUFSIZ - 2)%nat ->
  strcatf dest text = Some (dest ++ text).
Proof.
  unfold strcatf, FI_BUFSIZ. intros H.
  rewrite Nat.min_l by lia.
  rewrite (proj2 (Nat.ltb_lt _ _)) by lia.
  by rewrite take_ge by lia.
Qed.

(** X20 (strcatf): appending to a string that is terminated within the
    buffer keeps it terminated within the buffer, whatever the length of
    the text; the result is the string followed by a prefix of the text,
    all of it when string and text fit in FI_BUFSIZ - 2 characters, and
    never longer than FI_BUFSIZ - 2 characters when the string was
    not. *)
Theorem strcatf_stays_in_buffer dest text :
  (length dest < FI_BUFSIZ)%nat ->
  exists out,
    strcatf dest text = Some out /\
    (length out < FI_BUFSIZ)%nat /\
    (exists k, out = dest ++ take k text) /\
    ((length dest + length text <= FI_BUFSIZ - 2)%nat -> out = dest ++ text) /\
    ((length dest <= FI_BUFSIZ - 2)%nat -> (length out <= FI_BUFSIZ - 2)%nat).
Proof.
  unfold strcatf, FI_BUFSIZ. intros H.
  rewrite Nat.min_l by lia.
  rewrite (proj2 (Nat.ltb_lt _ _)) by lia.
  eexists. split; [reflexivity|].
  rewrite length_app, length_take.
  split; [lia|]. split; [by eexists|].
  split; [|lia]. intros Hfit. by rewrite take_ge by lia.
Qed.

Lemma remove_comma_sep s : fi_remove_comma (s ++ lit ", ") = s.
Proof.
  unfold fi_remove_comma. rewrite length_app, length_sep.
  rewrite (proj2 (Nat.ltb_ge _ _)) by lia.
  replace (length s + 2 - 2)%nat with (length s) by lia.
  rewrite drop_app_length, take_app_length.
  by rewrite bool_decide_true.
Qed.

Lemma remove_comma_keeps buffer :
  (forall s, buffer <> s ++ lit ", ") -> fi_remove_comma buffer = buffer.
Proof.
  intros H. unfold fi_remove_comma.
  destruct (length buffer <? 2)%nat; [done|].
  case_bool_decide as Hd; [|done].
  destruct (H (take (length buffer - 2) buffer)).
  by rewrite <- Hd, take_drop.
Qed.

(** X21 (fi_remove_comma): a buffer that ends in a comma and a space
    loses exactly these two characters; any other buffer, the empty one
    included, is left as it is. *)
Theorem fi_remove_comma_strips_one_separator :
  (forall s, fi_remove_comma (s ++ lit ", ") = s) /\
  (forall buffer, (forall s, buffer <> s ++ lit ", ") ->
                  fi_remove_comma buffer = buffer).
Proof. split; [apply remove_comma_sep | apply remove_comma_keeps]. Qed.

Lemma length_appended table flags :
  (length (appended (set_names table flags)) <= table_width table)%nat.
Proof.
  unfold appended, set_names.
  induction table as [|e rest IH]; [done|].
  rewrite filter_cons. cbn [table_width]. case_decide; [|lia].
  rewrite fmap_cons. cbn [fmap list_fmap concat].
  rewrite !length_app, length_sep. cbn [fmap] in IH. lia.
Qed.

Lemma flag_run_fits table flags k : forall buf,
  (length buf + table_width table <= FI_BUFSIZ - 2)%nat ->
  flag_run table flags k buf = k (buf ++ appended (set_names table flags)).
Proof.
  unfold appended, set_names.
  induction table as [|e rest IH]; intros buf Hfit.
  - simpl. by rewrite app_nil_r.
  - cbn [flag_run table_width] in *. unfold IFFLAGSTR.
    rewrite filter_cons.
    destruct (Z.land flags e.1 =? 0) eqn:Hb;
      [apply Z.eqb_eq in Hb | apply Z.eqb_neq in Hb]; cbn [negb].
    + rewrite decide_False by (by intros ?). cbn [mbind option_bind].
      apply IH; lia.
    + rewrite decide_True by done.
      rewrite strcatf_fits by (rewrite length_app, length_sep; lia).
      cbn [mbind option_bind].
      rewrite IH by (rewrite !length_app, length_sep; lia).
      rewrite !fmap_cons. cbn [concat]. by rewrite <- !app_assoc.
Qed.

Lemma appended_join names :
  names <> [] -> appended names = join names ++ lit ", ".
Proof.
  unfold appended. induction names as [|n r IH]; [done|]. intros _.
  destruct r as [|n' r'].
  - simpl. by rewrite app_nil_r.
  - cbn [fmap list_fmap concat join] in *.
    rewrite IH by done. by rewrite <- !app_assoc.
Qed.

Lemma remove_comma_appended buf names :
  names <> [] ->
  fi_remove_comma (buf ++ appended names) = buf ++ join names.
Proof.
  intros H. rewrite appended_join by done.
  rewrite app_assoc. apply remove_comma_sep.
Qed.

Lemma remove_comma_appended_nil names :
  fi_remove_comma (appended names) = join names.
Proof.
  destruct names as [|n r]; [done|].
  by apply (remove_comma_appended []).
Qed.

Lemma table_fits table :
  (table_width table <=? Z.to_nat 8190)%nat = true ->
  (0 + table_width table <= FI_BUFSIZ - 2)%nat.
Proof. intros H%Nat.leb_le. unfold FI_BUFSIZ. lia. Qed.

Lemma flag_run_prints table flags :
  (table_width table <=? Z.to_nat 8190)%nat = true ->
  flag_run table flags (fun buf => Some (fi_remove_comma buf)) []
  = Some (join (set_names table flags)).
Proof.
  intros Hw. rewrite flag_run_fits by by apply table_fits.
  cbn [app]. by rewrite remove_comma_appended_nil.
Qed.

(** X22 (fi_tostr_flags, fi_tostr_order, fi_tostr_mode): on an empty
    buffer each printer yields the names of the flags whose bit is set,
    in the order the printer tests them, separated by a comma and a
    space, with no separator at the end and nothing when no flag is set;
    the buffer never overflows. *)
Theorem flag_printers_list_the_set_flags C flags :
  fi_tostr_flags C [] flags = Some (join (set_names (flags_table C) flags)) /\
  fi_tostr_order C [] flags = Some (join (set_names (order_table C) flags)) /\
  fi_tostr_mode C [] flags = Some (join (set_names (mode_table C) flags)).
Proof.
  split_and!.
  - by apply (flag_run_prints (flags_table C)).
  - by apply (flag_run_prints (order_table C)).
  - by apply (flag_run_prints (mode_table C)).
Qed.

(** X23 (fi_tostr_mr_mode, fi_tostr_cq_event_flags): the same for the
    printer of the memory-registration mode bits and the printer of the
    flags of a completion, the latter in its own order of the operation
    flags. *)
Theorem mr_mode_and_event_flag_printers_list_the_set_flags C flags :
  fi_tostr_mr_mode C [] flags = Some (join (set_names (mr_mode_table C) flags)) /\
  fi_tostr_cq_event_flags C [] flags
    = Some (join (set_names (cq_event_flags_table C) flags)).
Proof.
  split.
  - by apply (flag_run_prints (mr_mode_table C)).
  - by apply (flag_run_prints (cq_event_flags_table C)).
Qed.

Lemma join_last names :
  names <> [] -> forallb solid names = true ->
  exists s c, join names = s ++ [c] /\ c <> " "%char.
Proof.
  induction names as [|n r IH]; [done|]. intros _ Hall.
  cbn [forallb] in Hall. apply andb_true_iff in Hall as [Hn Hr].
  destruct r as [|n' r'].
  - unfold solid in Hn. destruct (last n) as [c|] eqn:Hl; [|done].
    apply last_Some in Hl as [s ->]. exists s, c. split; [done|].
    intros ->. by rewrite Ascii.eqb_refl in Hn.
  - destruct (IH ltac:(done) Hr) as (s & c & Hj & Hc).
    exists (n ++ lit ", " ++ s), c. split; [|done].
    cbn [join] in *. rewrite Hj. by rewrite <- !app_assoc.
Qed.

Lemma remove_comma_join names :
  forallb solid names = true -> fi_remove_comma (join names) = join names.
Proof.
  intros Hall. destruct (decide (names = [])) as [->|Hne]; [done|].
  destruct (join_last names Hne Hall) as (s & c & Hj & Hc).
  apply remove_comma_keeps. intros s' Heq.
  rewrite Hj in Heq.
  change (lit ", ") with ([","%char] ++ [" "%char]) in Heq.
  rewrite app_assoc in Heq. apply app_inj_tail in Heq as [_ ->]. done.
Qed.

Lemma set_names_solid table flags :
  forallb (fun e => solid (lit e.2)) table = true ->
  forallb solid (set_names table flags) = true.
Proof.
  unfold set_names. induction table as [|e r IH]; [done|].
  cbn [forallb]. intros [He Hr]%andb_true_iff.
  rewrite filter_cons. case_decide; [|by apply IH].
  rewrite fmap_cons. cbn [forallb]. rewrite He. by apply IH.
Qed.

Lemma set_names_app t1 t2 flags :
  set_names (t1 ++ t2) flags = set_names t1 flags ++ set_names t2 flags.
Proof. unfold set_names. by rewrite filter_app, fmap_app. Qed.

Lemma appended_app n1 n2 : appended (n1 ++ n2) = appended n1 ++ appended n2.
Proof. unfold appended. by rewrite fmap_app, concat_app. Qed.

(** X24 (fi_tostr_caps): on an empty buffer the capabilities are
    printed as the names of the set capability bits followed by those of
    the set operation flags, as one list separated by a comma and a
    space; the second removal of the separator finds none to remove. *)
Theorem fi_tostr_caps_lists_the_set_flags C caps :
  fi_tostr_caps C [] caps
    = Some (join (set_names (caps_table C ++ flags_table C) caps)).
Proof.
  change (fi_tostr_caps C [] caps) with
    (flag_run (caps_table C) caps
       (fun buf => buf ← flag_run (flags_table C) caps
                           (fun buf => Some (fi_remove_comma buf)) buf;
                   Some (fi_remove_comma buf)) []).
  rewrite flag_run_fits by by apply table_fits.
  cbn [app].
  rewrite flag_run_fits.
  2:{ pose proof (length_appended (caps_table C) caps) as Hl.
      assert (table_width (caps_table C) + table_width (flags_table C)
              <= FI_BUFSIZ - 2)%nat as Hw; [|lia].
      apply (table_fits (caps_table C ++ flags_table C)). done. }
  cbn [mbind option_bind].
  rewrite <- appended_app, <- set_names_app.
  rewrite remove_comma_appended_nil.
  rewrite remove_comma_join; [done|].
  by apply set_names_solid.
Qed.

End TostrFacts.

(** ** The further statements on the sample states *)

Module EventListWitness.
Import EventList EventListFacts.

Lemma two_mem_rep : queue_rep two_mem [16; 32].
Proof.
  split; [compute_done|]. split; [|done].
  simpl. split; [done|]. split; [done|]. exists 32. split; [done|].
  split; [done|]. split; [done|]. by exists 0.
Qed.

Lemma dequeue_past_the_end_witness :
  result (dequeue_n 4 two_mem) = [16; 32; NULL; NULL].
Proof.
  exact (proj1 (EventListMore.dequeue_past_the_end two_mem [16; 32] 2 two_mem_rep)).
Defined.

Lemma dequeue_then_enqueue_rotates_witness :
  queue_rep
    (final ((event ← psmx_cq_dequeue_event; psmx_cq_enqueue_event event) two_mem))
    [32; 16].
Proof.
  exact (EventListMore.dequeue_then_enqueue_rotates two_mem 16 [32] two_mem_rep).
Defined.

End EventListWitness.

Lemma lp64_err_fields_ok : fields_ok (sizeof_cqe lp64_layout) (err_fields lp64_layout).
Proof.
  unfold fields_ok, err_fields. cbn [fields_apart].
  rewrite ?Forall_cons, ?Forall_nil. unfold field_apart. simpl. lia.
Qed.

Lemma lp64_entry_fields_ok format :
  fields_ok (sizeof_cqe lp64_layout) (entry_fields lp64_layout format).
Proof.
  unfold fields_ok. destruct format; cbn [entry_fields fields_apart];
    rewrite ?Forall_cons, ?Forall_nil; unfold field_apart; simpl; lia.
Qed.

Lemma status_error_entry_witness :
  exists ev,
    fill_event_from_status sample_env FI_CQ_FORMAT_TAGGED (fresh_event sample_env)
      failed_status 500 4096 0 true = Some ev /\
    ev_error ev = true /\
    ev_source ev = 7 /\
    read_err_entry lp64_layout (ev_cqe ev) = ErrEntry 500 256 5 0 7 40.
Proof.
  assert (sts_error_code failed_status <> 0) as Hne by done.
  assert (int_range (sts_error_code failed_status)) as H1 by (by vm_compute).
  assert (int_range (- psmx_errno sample_env (sts_error_code failed_status))) as H2
    by (by vm_compute).
  exact (status_error_entry sample_env FI_CQ_FORMAT_TAGGED (fresh_event sample_env)
           failed_status 500 4096 0 true lp64_err_fields_ok eq_refl Hne H1 H2).
Defined.

Lemma create_event_error_entry_witness :
  exists ev,
    fill_event sample_env FI_CQ_FORMAT_MSG (fresh_event sample_env)
      900 4096 0 100 3 7 40 22 = Some ev /\
    ev_error ev = true /\
    ev_source ev = 0 /\
    read_err_entry lp64_layout (ev_cqe ev) = ErrEntry 900 (- 22) 0 3 7 40 /\
    length (ev_cqe ev) = 72%nat /\
    (forall i,
        Forall (fun f => ~ (f.1 <= i < f.1 + f.2)%nat) (err_fields lp64_layout) ->
        ev_cqe ev !! i = ev_cqe (fresh_event sample_env) !! i) /\
    (forall buf' flags' len',
        fill_event sample_env FI_CQ_FORMAT_MSG (fresh_event sample_env)
          900 buf' flags' len' 3 7 40 22 = Some ev).
Proof.
  assert (22 <> 0) as Hne by done.
  assert (int_range (- 22)) as H1 by (by vm_compute).
  exact (create_event_error_entry sample_env FI_CQ_FORMAT_MSG (fresh_event sample_env)
           900 4096 0 100 3 7 40 22 lp64_err_fields_ok eq_refl Hne H1).
Defined.

Lemma status_success_entry_witness :
  ev_error sample_status_event = false /\
  ev_source sample_status_event = 7 /\
  entry_op_context lp64_layout FI_CQ_FORMAT_TAGGED (ev_cqe sample_status_event)
    = Some 500 /\
  entry_buf lp64_layout FI_CQ_FORMAT_TAGGED (ev_cqe sample_status_event)
    = Some 4096 /\
  entry_len lp64_layout FI_CQ_FORMAT_TAGGED (ev_cqe sample_status_event)
    = Some 30 /\
  entry_tag lp64_layout FI_CQ_FORMAT_TAGGED (ev_cqe sample_status_event)
    = Some 7 /\
  entry_flags lp64_layout FI_CQ_FORMAT_TAGGED (ev_cqe sample_status_event)
    = Some 0 /\
  entry_data lp64_layout FI_CQ_FORMAT_TAGGED (ev_cqe sample_status_event)
    = Some 0.
Proof.
  exact (status_success_entry sample_env FI_CQ_FORMAT_TAGGED (fresh_event sample_env)
           first_status 500 4096 0 true sample_status_event
           (lp64_entry_fields_ok FI_CQ_FORMAT_TAGGED) eq_refl eq_refl eq_refl).
Defined.

Lemma received_progress :
  read_progress sample_env 100 received_state = Some received_state1.
Proof. by vm_compute. Qed.

Lemma read_source_address_witness :
  exists r a,
    psmx_cq_readfrom sample_env 100 (Some (replicate 48 0)) 48 (Some 0) received_state
      = Some r /\
    rd_ret r = 48 /\
    rd_src_addr r = Some a /\
    (forall a', source_derivable sample_env (2 ^ 63) received_event ->
       psmx_epid_to_epaddr sample_env (Z.ldiff (2 ^ 63 + 5) (2 ^ 63)) = (0, a') ->
       a = a') /\
    (~ source_derivable sample_env (2 ^ 63) received_event \/
     (psmx_epid_to_epaddr sample_env (Z.ldiff (2 ^ 63 + 5) (2 ^ 63))).1 <> 0 ->
     a = FI_ADDR_UNSPEC sample_env).
Proof.
  assert (ENODATA sample_env <> 0) as Hnd by done.
  assert (100 <> NULL) as Hn by done.
  assert (48 <= 48) as Hlen by done.
  exact (read_source_address sample_env 100 received_state received_state1
           (Cq FI_CQ_FORMAT_TAGGED 48 [received_event] [] None None true 0)
           received_event [] (replicate 48 0) 48 0
           Hnd Hn received_progress eq_refl eq_refl eq_refl eq_refl Hlen).
Defined.

Lemma idle_progress : read_progress sample_env 100 idle_state = Some idle_state1.
Proof. by vm_compute. Qed.

Lemma read_null_buffer_witness :
  psmx_cq_readfrom sample_env 100 None 48 None idle_state
    = Some (ReadResult (- FI_EINVAL sample_env) None None idle_state1).
Proof.
  assert (100 <> NULL) as Hn by done.
  assert (48 <= 48) as Hlen by done.
  exact (read_null_buffer sample_env 100 idle_state idle_state1
           (Cq FI_CQ_FORMAT_TAGGED 48 [] [] None None true 0) 48 None
           Hn idle_progress eq_refl eq_refl Hlen).
Defined.

Lemma read_empty_queue_witness :
  psmx_cq_readfrom sample_env 100 (Some (replicate 48 0)) 48 None idle_state
    = Some (ReadResult 0 (Some (replicate 48 0)) None idle_state1).
Proof.
  assert (100 <> NULL) as Hn by done.
  assert (48 <= 48) as Hlen by done.
  exact (read_empty_queue sample_env 100 idle_state idle_state1
           (Cq FI_CQ_FORMAT_TAGGED 48 [] [] None None true 0)
           (replicate 48 0) 48 None
           Hn idle_progress eq_refl eq_refl eq_refl Hlen).
Defined.

Lemma read_copies_entry_size_witness :
  exists r got,
    psmx_cq_readfrom sample_env 100 (Some (replicate 64 0)) 64 None received_state
      = Some r /\
    rd_ret r = 48 /\ rd_buf r = Some got /\
    length got = 64%nat /\
    take 48 got = replicate 48 1 /\
    drop 48 got = replicate 16 0 /\
    cqs (rd_state r) !! 100
      = Some (Cq FI_CQ_FORMAT_TAGGED 48 [] [received_event] None None true 0).
Proof.
  assert (100 <> NULL) as Hn by done.
  assert (0 <= 48 <= 64) as Hlen by done.
  assert (Z.to_nat 48 <= length (ev_cqe received_event))%nat as He
    by (vm_compute; lia).
  assert (Z.to_nat 48 <= length (replicate 64 0))%nat as Hb by (vm_compute; lia).
  exact (read_copies_entry_size sample_env 100 received_state received_state1
           (Cq FI_CQ_FORMAT_TAGGED 48 [received_event] [] None None true 0)
           received_event [] (replicate 64 0) 64 None
           Hn received_progress eq_refl eq_refl eq_refl eq_refl Hlen He Hb).
Defined.

Lemma readerr_touches_only_the_error_slot_witness :
  exists c',
    cqs (set_cqs (<[100 := set_pending_error None
                             (Cq FI_CQ_FORMAT_TAGGED 48 [] []
                                 (Some sample_error) None false 0)]>
                    (cqs pending_state)) pending_state) !! 100 = Some c' /\
    cq_event_queue c' = [] /\ cq_free_list c' = [] /\
    (cq_pending_error c' = Some sample_error \/
     cq_pending_error c' = None /\ 72 = Z.of_nat (sizeof_fi_cq_err_entry lp64_layout)).
Proof.
  assert (100 <> NULL) as Hn by done.
  exact (proj1 (proj2 (readerr_touches_only_the_error_slot sample_env 100
                         pending_state (Some (replicate 72 0)) 72 0 _ eq_refl))
               (Cq FI_CQ_FORMAT_TAGGED 48 [] [] (Some sample_error) None false 0)
               Hn eq_refl).
Defined.

Lemma write_appends_or_changes_nothing_witness :
  (48 = 48 /\ 48 <= 48 /\ true = true /\
   exists bytes,
     Some sample_bytes = Some bytes /\
     written_state
       = set_cqs (<[100 := set_event_queue
                             (cq_event_queue sample_cq ++
                                [CqEvent (Mem.memcpy (Mem.zeros 72) bytes (Z.to_nat 48))
                                         false 0]) sample_cq]>
                    (cqs idle_state)) idle_state) \/
  (written_state = idle_state /\
   (48 = - FI_ETOOSMALL sample_env /\ 48 < 48 \/
    48 = - ENOMEM sample_env /\ 48 <= 48 /\ true = false)).
Proof.
  assert (100 <> NULL) as Hn by done.
  exact (write_appends_or_changes_nothing sample_env 100 idle_state sample_cq
           (Some sample_bytes) 48 true 48 written_state Hn eq_refl eq_refl).
Defined.

Lemma writes_are_read_in_order_witness :
  exists st1 st2,
    psmx_cq_write sample_env 100 (Some sample_bytes) 48 true idle_state
      = Some (48, st1) /\
    psmx_cq_write sample_env 100 (Some (replicate 48 9)) 48 true st1
      = Some (48, st2) /\
    exists r1 got1,
      psmx_cq_read sample_env 100 (Some (replicate 48 0)) 48 st2 = Some r1 /\
      rd_ret r1 = 48 /\ rd_buf r1 = Some got1 /\
      take 48 got1 = take 48 sample_bytes /\
      exists r2 got2,
        psmx_cq_read sample_env 100 (Some (replicate 48 0)) 48 (rd_state r1)
          = Some r2 /\
        rd_ret r2 = 48 /\ rd_buf r2 = Some got2 /\
        take 48 got2 = take 48 (replicate 48 9).
Proof.
  assert (100 <> NULL) as Hn by done.
  assert (Z.of_nat 48 <= 48) as Hlen by done.
  assert (48 <= length sample_bytes)%nat as Hb1 by (vm_compute; lia).
  assert (48 <= length (replicate 48 9))%nat as Hb2 by (vm_compute; lia).
  exact (writes_are_read_in_order sample_env 100 idle_state sample_cq 48
           sample_bytes (replicate 48 9) 48 (replicate 48 0) (replicate 48 0)
           sample_am_progress_appends sample_am_progress_keeps_mq Hn
           eq_refl eq_refl eq_refl eq_refl eq_refl Hlen Hb1 Hb2).
Defined.

Lemma completion_without_cq_witness :
  exists st',
    poll_one sample_env 100 send_status nocomp_cntr_state
      = (if bool_decide (100 = NULL) then Return 1 st' else Next tt st') /\
    cqs st' = cqs nocomp_cntr_state /\
    eps st' = <[200 := set_pending_sends 0 send_ep]> (eps nocomp_cntr_state) /\
    cntrs st' = bumped 300 (cntrs nocomp_cntr_state) /\
    ctxts st' = ctxts nocomp_cntr_state /\
    psm_mq_of st' = psm_mq_of nocomp_cntr_state.
Proof.
  assert (500 <> NULL) as H1 by done.
  assert (200 <> NULL) as H2 by done.
  assert (is_Some (cntrs nocomp_cntr_state !! 300)) as H3 by (by eexists).
  exact (completion_without_cq sample_env 100 send_status nocomp_cntr_state
           (Ctxt 0 PSMX_NOCOMP_SEND_CONTEXT 7000 200) send_ep
           H1 eq_refl eq_refl H2 eq_refl eq_refl (or_intror H3)).
Defined.

Lemma completion_with_cq_witness :
  exists ev st',
    fill_event_from_status sample_env FI_CQ_FORMAT_TAGGED
      (PSMX_FREE_LIST_GET sample_env []).1 send_status 500 7000 0 false = Some ev /\
    poll_one sample_env 100 send_status send_state
      = (if bool_decide (100 = NULL \/ 100 = 100)
         then Return 1 st' else Next tt st') /\
    cqs st' = <[100 := set_event_queue (cq_event_queue sample_cq ++ [ev])
                         (set_free_list (PSMX_FREE_LIST_GET sample_env []).2
                                        sample_cq)]>
                (cqs send_state) /\
    eps st' = <[200 := set_pending_sends 0 send_ep]> (eps send_state) /\
    cntrs st' = bumped 300 (cntrs send_state) /\
    ctxts st' = ctxts send_state /\
    psm_mq_of st' = psm_mq_of send_state.
Proof.
  assert (500 <> NULL) as H1 by done.
  assert (200 <> NULL) as H2 by done.
  assert (100 <> NULL) as H3 by done.
  assert (is_Some (entry_size_of lp64_layout FI_CQ_FORMAT_TAGGED)) as H4
    by (by eexists).
  assert (is_Some (cntrs send_state !! 300)) as H5 by (by eexists).
  exact (completion_with_cq sample_env 100 send_status send_state
           (Ctxt 0 PSMX_SEND_CONTEXT 7000 200) send_ep sample_cq
           H1 eq_refl eq_refl H2 eq_refl H3 eq_refl H4 (or_intror H5)).
Defined.

Lemma rearm_refused_completion :
  multi_recv_completion rearm_refused_state first_status sample_ctxt sample_ep
    sample_req.
Proof. repeat split; try done. by left. Qed.

Lemma rearm_failure_witness :
  exists ev st',
    fill_event_from_status sample_env FI_CQ_FORMAT_TAGGED
      (PSMX_FREE_LIST_GET sample_env []).1 first_status 500
      (Mem.u64 (4096 + 0)) 0 true = Some ev /\
    poll_one sample_env 100 first_status rearm_refused_state
      = Return (psmx_errno sample_env 7) st' /\
    mq_posted (psm_mq_of st') = [] /\
    multi_recvs st' !! 600
      = Some (set_offset (consumed sample_req first_status) sample_req) /\
    ctxts st' = ctxts rearm_refused_state /\
    cntrs st' = bumped 0 (cntrs rearm_refused_state) /\
    exists c', cqs st' !! 100 = Some c' /\
      cq_event_queue c' = cq_event_queue sample_cq ++ [ev].
Proof.
  assert (mq_irecv_err (psm_mq_of rearm_refused_state) <> PSM_OK sample_env) as Hno
    by done.
  assert (Mem.u64 (consumed sample_req first_status + req_min_buf_size sample_req)
          <= req_len sample_req) as Hfit by by vm_compute.
  assert (100 <> NULL) as Hn by done.
  assert (is_Some (entry_size_of lp64_layout FI_CQ_FORMAT_TAGGED)) as Hf
    by by eexists.
  exact (proj1 (rearm_failure sample_env 100 rearm_refused_state first_status
                  sample_ctxt sample_ep sample_req rearm_refused_completion Hno Hfit)
               sample_cq Hn eq_refl Hf).
Defined.

Lemma remote_completion_without_counter_witness :
  exists ev st',
    fill_event_from_status sample_env FI_CQ_FORMAT_TAGGED
      (PSMX_FREE_LIST_GET sample_env []).1 (Status 0 8 8 0 510)
      400 NULL 77 false = Some ev /\
    poll_one sample_env 100 (Status 0 8 8 0 510) remote_cq_state
      = (if bool_decide (100 = NULL \/ 100 = 100)
         then Return 1 st' else Next tt st') /\
    cqs st' = <[100 := set_event_queue (cq_event_queue sample_cq ++ [ev])
                         (set_free_list (PSMX_FREE_LIST_GET sample_env []).2
                                        sample_cq)]>
                (cqs remote_cq_state) /\
    eps st' = eps remote_cq_state /\ cntrs st' = cntrs remote_cq_state /\
    ctxts st' = ctxts remote_cq_state /\
    ev_error ev = false /\
    entry_op_context lp64_layout FI_CQ_FORMAT_TAGGED (ev_cqe ev) = Some 400 /\
    entry_buf lp64_layout FI_CQ_FORMAT_TAGGED (ev_cqe ev) = Some NULL /\
    entry_len lp64_layout FI_CQ_FORMAT_TAGGED (ev_cqe ev) = Some 8 /\
    entry_data lp64_layout FI_CQ_FORMAT_TAGGED (ev_cqe ev) = Some 77.
Proof.
  assert (510 <> NULL) as H1 by done.
  assert (400 <> NULL) as H2 by done.
  assert (100 <> NULL) as H3 by done.
  assert (is_Some (entry_size_of lp64_layout FI_CQ_FORMAT_TAGGED)) as H4
    by (by eexists).
  assert (PSMX_REMOTE_WRITE_CONTEXT = PSMX_REMOTE_READ_CONTEXT -> 77 = 0) as H5
    by done.
  assert (pool_ok lp64_layout sample_cq) as Hpool by constructor.
  destruct (proj1 (remote_completion_without_counter sample_env 100
                     (Status 0 8 8 0 510) remote_cq_state
                     (Ctxt 0 PSMX_REMOTE_WRITE_CONTEXT 400 0) (Mr 100 0)
                     H1 eq_refl (or_introl eq_refl) H2 eq_refl eq_refl)
                  sample_cq 77 H3 eq_refl H4 (fun _ => eq_refl) H5)
    as (ev & st' & Hf & Hp & Hc & He & Hn & Hx & Hfields).
  exists ev, st'.
  split; [exact Hf|]. split; [exact Hp|]. split; [exact Hc|].
  split; [exact He|]. split; [exact Hn|]. split; [exact Hx|].
  exact (Hfields (lp64_entry_fields_ok FI_CQ_FORMAT_TAGGED) Hpool eq_refl).
Defined.

Lemma open_then_close_descriptors_witness :
  exists st',
    psmx_cq_close 100 fd_state = Some (0, [3; 4], st') /\
    cqs st' !! 100 = None /\
    (forall p, p <> 100 -> cqs st' !! p = cqs fd_state !! p).
Proof.
  assert (pipe_result fd_oracle <> inl 0) as Hp by done.
  assert (100 <> NULL) as Hn by done.
  exact (open_then_close_descriptors sample_env fd_attr 0 fd_oracle
           (CqAttr FI_CQ_FORMAT_TAGGED FI_WAIT_FD FI_CQ_COND_NONE 0) fd_cq
           100 fd_state Hp eq_refl Hn eq_refl).
Defined.

Lemma open_hands_out_fresh_cq_witness :
  (0 = 0 <-> is_Some (Some fd_cq)) /\
  cq_free_list fd_cq = replicate 64 (fresh_event sample_env).
Proof.
  assert (FI_EINVAL sample_env <> 0) as H1 by done.
  assert (FI_ENOMEM sample_env <> 0) as H2 by done.
  assert (pipe_result fd_oracle <> inl 0) as H3 by done.
  destruct (open_hands_out_fresh_cq sample_env fd_attr 0 fd_oracle 0
              (CqAttr FI_CQ_FORMAT_TAGGED FI_WAIT_FD FI_CQ_COND_NONE 0)
              (Some fd_cq) H1 H2 H3 eq_refl) as [Hiff Hc].
  split; [exact Hiff|].
  exact (proj1 (proj2 (proj2 (proj2 (proj2 (proj2 (Hc fd_cq eq_refl))))))).
Defined.

Module TostrWitness.
Import Tostr TostrFacts.
Import String.StringSyntax.
Local Open Scope string_scope.

Lemma strcatf_stays_in_buffer_witness :
  exists out,
    strcatf (lit "caps: [ ") (lit "FI_MSG, ") = Some out /\
    (length out < FI_BUFSIZ)%nat /\
    (exists k, out = lit "caps: [ " ++ take k (lit "FI_MSG, ")) /\
    ((length (lit "caps: [ ") + length (lit "FI_MSG, ") <= FI_BUFSIZ - 2)%nat ->
     out = lit "caps: [ " ++ lit "FI_MSG, ") /\
    ((length (lit "caps: [ ") <= FI_BUFSIZ - 2)%nat ->
     (length out <= FI_BUFSIZ - 2)%nat).
Proof.
  assert (length (lit "caps: [ ") < FI_BUFSIZ)%nat as H
    by (unfold FI_BUFSIZ; cbn [length lit String.list_ascii_of_string]; lia).
  exact (strcatf_stays_in_buffer (lit "caps: [ ") (lit "FI_MSG, ") H).
Defined.

End TostrWitness.
